(** * Liam media library: filename inference and metadata reconciliation

    A shallow embedding of the inference core of the application
    (src/main/handlers/folderHandler.ts, src/main/handlers/anilistHandler.ts,
    the metadata store handler and the scan-and-fetch-metadata handler of
    src/main/main.ts), with the properties of the specification proved or
    refuted on it.

    Conventions of the embedding.
    - A JavaScript string is the list of its UTF-16 code units ([jsstring]).
    - A regular expression literal of the source is a term of [regex]; it is
      run by a backtracking matcher that follows the ECMAScript semantics of
      the constructs the source uses (greedy and lazy quantifiers, leftmost
      match, capture groups, [\b], [$], negative lookahead, flags i and g).
    - Integers read by [parseInt] are exact naturals ([N]); episode numbers,
      which the source computes in double precision, are exact rationals
      ([Q], kept in lowest terms). The run-time agrees with this on the safe
      integers (up to 2^53 - 1): past them it rounds to a double, and from
      10^21 on [toString] writes an exponent where [toStringN] writes
      digits. A property that rests on the digits of a printed number
      assumes a safe integer ([isSafeInteger]).
    - An object that the source uses as a map from identifiers to records is
      a finite map ([gmap]). The two agree on every key that is not a
      property name of [Object.prototype]: an assignment to the key
      [__proto__] adds no entry to a plain object. A property that looks up
      the saved record of an identifier assumes that the identifier is no
      such name ([objectPrototypeKeys]).
    - Directory entries are names without a path separator, other than [.]
      and [..], and a directory path is normalized and does not end in a
      separator: [path.join] then puts one separator between the two. *)

From Stdlib Require Import NArith ZArith QArith Qround List String Ascii Bool Lia Sorted Permutation.
From stdpp Require Import base option list gmap.

Local Open Scope N_scope.
Local Open Scope list_scope.

(** ** JavaScript strings *)

Definition jsstring : Type := list N.

(** The code units of an ASCII literal. *)
Definition str (s : string) : jsstring :=
  List.map N_of_ascii (list_ascii_of_string s).

Definition isDigit (c : N) : bool := (48 <=? c) && (c <=? 57).
Definition isUpper (c : N) : bool := (65 <=? c) && (c <=? 90).
Definition isLower (c : N) : bool := (97 <=? c) && (c <=? 122).
Definition isAlnum (c : N) : bool := isDigit c || isUpper c || isLower c.

(** [\w] *)
Definition isWordChar (c : N) : bool := isAlnum c || (c =? 95).

(** [\s]: WhiteSpace and LineTerminator of ECMAScript. *)
Definition isSpace (c : N) : bool :=
  ((9 <=? c) && (c <=? 13)) || (c =? 32) || (c =? 160) || (c =? 5760)
  || ((8192 <=? c) && (c <=? 8202)) || (c =? 8232) || (c =? 8233)
  || (c =? 8239) || (c =? 8287) || (c =? 12288) || (c =? 65279).

(** [.] matches everything but a line terminator. *)
Definition isLineTerminator (c : N) : bool :=
  (c =? 10) || (c =? 13) || (c =? 8232) || (c =? 8233).

Definition asciiLower (c : N) : N := if isUpper c then c + 32 else c.
Definition asciiUpper (c : N) : N := if isLower c then c - 32 else c.
Definition isAscii (c : N) : bool := c <? 128.

(** A literal character of a pattern. *)
Definition lit (a : ascii) : N -> bool := fun c => c =? N_of_ascii a.

(** A literal character under the [i] flag (no [u] flag): a code unit of the
    input matches an ASCII letter of the pattern when it is that letter in
    either case; canonicalisation never maps a code unit above 127 to
    ASCII. *)
Definition liti (a : ascii) : N -> bool :=
  fun c => isAscii c && (asciiUpper c =? asciiUpper (N_of_ascii a)).

Definition jsstring_eqb (a b : jsstring) : bool := bool_decide (a = b).

Fixpoint startsWith (p s : jsstring) : bool :=
  match p, s with
  | [], _ => true
  | c :: p', d :: s' => (c =? d) && startsWith p' s'
  | _ :: _, [] => false
  end.

(** [hay.includes(needle)] *)
Fixpoint includes (hay needle : jsstring) : bool :=
  startsWith needle hay ||
  match hay with
  | [] => false
  | _ :: t => includes t needle
  end.

Definition endsWith (s suffix : jsstring) : bool :=
  (length suffix <=? length s)%nat &&
  jsstring_eqb (drop (length s - length suffix)%nat s) suffix.

(** [s.trim()] *)
Fixpoint trimStart (s : jsstring) : jsstring :=
  match s with
  | c :: t => if isSpace c then trimStart t else s
  | [] => []
  end.

Definition trim (s : jsstring) : jsstring := rev (trimStart (rev (trimStart s))).

(** ** Regular expressions *)

Inductive regex : Type :=
| Eps
| Chr (p : N -> bool)                               (* one code unit of a class *)
| Rep (p : N -> bool) (lo : nat) (hi : option nat)   (* greedy  p{lo,hi} *)
| RepLazy (p : N -> bool)                            (* lazy    p*?      *)
| WordB                                              (* \b *)
| Eos                                                (* $  *)
| Seq (a b : regex)
| Alt (a b : regex)
| Grp (a : regex)                                    (* capturing group *)
| NotAhead (a : regex).                              (* (?!a) *)

Declare Scope regex_scope.
Delimit Scope regex_scope with re.
Bind Scope regex_scope with regex.
Infix "⋅" := Seq (at level 40, left associativity) : regex_scope.
Infix "∣" := Alt (at level 50, left associativity) : regex_scope.

Definition Star (p : N -> bool) : regex := Rep p 0 None.
Definition Plus (p : N -> bool) : regex := Rep p 1 None.
Definition Opt (a : regex) : regex := Alt a Eps.

(** The matcher state: the index of the current position, the code unit
    before it, the input still to read, and the captures closed so far (in
    the source's patterns groups are neither nested nor inside an
    alternative, so this is the order of their numbers). *)
Record mstate : Type := MState {
  st_pos : nat;
  st_prev : option N;
  st_rest : jsstring;
  st_caps : list jsstring
}.

Definition isWordOpt (c : option N) : bool :=
  match c with Some x => isWordChar x | None => false end.

Definition atBoundary (st : mstate) : bool :=
  xorb (isWordOpt (st_prev st)) (isWordOpt (head (st_rest st))).

(** Greedy repetition of a character class, by recursion on the input. *)
Fixpoint rep (p : N -> bool) (lo : nat) (hi : option nat)
    (pos : nat) (prev : option N) (s : jsstring) (caps : list jsstring)
    (k : mstate -> option mstate) : option mstate :=
  let stop := match lo with
              | O => k (MState pos prev s caps)
              | S _ => None
              end in
  match hi with
  | Some O => stop
  | _ =>
    match s with
    | c :: t =>
      if p c then
        match rep p (pred lo) (option_map pred hi) (S pos) (Some c) t caps k with
        | Some r => Some r
        | None => stop
        end
      else stop
    | [] => stop
    end
  end.

(** Lazy [p*?]: try the continuation first, then one more code unit. *)
Fixpoint repLazy (p : N -> bool)
    (pos : nat) (prev : option N) (s : jsstring) (caps : list jsstring)
    (k : mstate -> option mstate) : option mstate :=
  match k (MState pos prev s caps) with
  | Some r => Some r
  | None =>
    match s with
    | c :: t => if p c then repLazy p (S pos) (Some c) t caps k else None
    | [] => None
    end
  end.

(** The backtracking matcher, in continuation-passing style: [m r st k] is
    the first way to match [r] at [st] that the continuation accepts. *)
Fixpoint m (r : regex) (st : mstate) (k : mstate -> option mstate)
    : option mstate :=
  match r with
  | Eps => k st
  | Chr p =>
    match st_rest st with
    | c :: t =>
      if p c then k (MState (S (st_pos st)) (Some c) t (st_caps st)) else None
    | [] => None
    end
  | Rep p lo hi => rep p lo hi (st_pos st) (st_prev st) (st_rest st) (st_caps st) k
  | RepLazy p => repLazy p (st_pos st) (st_prev st) (st_rest st) (st_caps st) k
  | WordB => if atBoundary st then k st else None
  | Eos => match st_rest st with [] => k st | _ :: _ => None end
  | Seq a b => m a st (fun st' => m b st' k)
  | Alt a b =>
    match m a st k with
    | Some r => Some r
    | None => m b st k
    end
  | Grp a =>
    m a st (fun st' =>
      k (MState (st_pos st') (st_prev st') (st_rest st')
           (st_caps st' ++ [take (st_pos st' - st_pos st)%nat (st_rest st)])))
  | NotAhead a =>
    match m a st Some with
    | Some _ => None
    | None => k st
    end
  end.

(** The result of [s.match(re)] for a pattern without the [g] flag. *)
Record MatchResult : Type := Match {
  m_index : nat;
  m_length : nat;
  m_groups : list jsstring
}.

Definition matchAt (r : regex) (pos : nat) (prev : option N) (s : jsstring)
    : option MatchResult :=
  match m r (MState pos prev s []) Some with
  | Some st => Some (Match pos (st_pos st - pos)%nat (st_caps st))
  | None => None
  end.

Fixpoint execFrom (r : regex) (pos : nat) (prev : option N) (s : jsstring)
    : option MatchResult :=
  match matchAt r pos prev s with
  | Some res => Some res
  | None =>
    match s with
    | [] => None
    | c :: t => execFrom r (S pos) (Some c) t
    end
  end.

(** [s.match(re)] / [re.exec(s)]: the leftmost match. *)
Definition exec (r : regex) (s : jsstring) : option MatchResult :=
  execFrom r 0 None s.

(** [re.test(s)] *)
Definition test (r : regex) (s : jsstring) : bool :=
  match exec r s with Some _ => true | None => false end.

(** [s.match(re)] with the [g] flag: every match, left to right, the next
    search starting where the last match ended (one further after an empty
    match). [skip] code units are passed over before the next attempt. *)
Fixpoint matchAllFrom (r : regex) (skip : nat) (pos : nat) (prev : option N)
    (s : jsstring) : list jsstring :=
  match skip with
  | S n =>
    match s with
    | [] => []
    | c :: t => matchAllFrom r n (S pos) (Some c) t
    end
  | O =>
    match matchAt r pos prev s with
    | Some res =>
      take (m_length res) s ::
      match s with
      | [] => []
      | c :: t => matchAllFrom r (pred (m_length res)) (S pos) (Some c) t
      end
    | None =>
      match s with
      | [] => []
      | c :: t => matchAllFrom r 0 (S pos) (Some c) t
      end
    end
  end.

Definition matchAll (r : regex) (s : jsstring) : list jsstring :=
  matchAllFrom r 0 0 None s.

(** [s.replace(re, by)]: with the [g] flag every match is replaced, without
    it only the leftmost one. The replacement texts of the source hold no
    [$] pattern. *)
Fixpoint replaceFrom (g : bool) (r : regex) (by_ : jsstring) (active : bool)
    (skip : nat) (pos : nat) (prev : option N) (s : jsstring) : jsstring :=
  match skip with
  | S n =>
    match s with
    | [] => []
    | c :: t => replaceFrom g r by_ active n (S pos) (Some c) t
    end
  | O =>
    match (if active then matchAt r pos prev s else None) with
    | Some res =>
      by_ ++
      match s with
      | [] => []
      | c :: t =>
        match m_length res with
        | O => c :: replaceFrom g r by_ g 0 (S pos) (Some c) t
        | S n => replaceFrom g r by_ g n (S pos) (Some c) t
        end
      end
    | None =>
      match s with
      | [] => []
      | c :: t => c :: replaceFrom g r by_ active 0 (S pos) (Some c) t
      end
    end
  end.

Definition replaceAll (r : regex) (by_ : jsstring) (s : jsstring) : jsstring :=
  replaceFrom true r by_ true 0 0 None s.

Definition replaceFirst (r : regex) (by_ : jsstring) (s : jsstring) : jsstring :=
  replaceFrom false r by_ true 0 0 None s.

(** A literal word of a pattern, with or without the [i] flag. *)
Fixpoint word_ (ci : bool) (l : list ascii) : regex :=
  match l with
  | [] => Eps
  | [a] => Chr (if ci then liti a else lit a)
  | a :: t => Seq (Chr (if ci then liti a else lit a)) (word_ ci t)
  end.

Definition word (s : string) : regex := word_ false (list_ascii_of_string s).
Definition wordi (s : string) : regex := word_ true (list_ascii_of_string s).

(** ** Numbers *)

(** The value of the leading decimal digits of [s]: [parseInt(s, 10)] on
    the digit runs captured by the source's patterns. *)
Fixpoint digitsValue (acc : N) (s : jsstring) : N :=
  match s with
  | c :: t => if isDigit c then digitsValue (acc * 10 + (c - 48)) t else acc
  | [] => acc
  end.

Definition parseInt (s : jsstring) : N := digitsValue 0 s.

Definition numOfN (n : N) : Q := inject_Z (Z.of_N n).

(** [Number.isInteger] *)
Definition isInteger (q : Q) : bool := (Qden (Qred q) =? 1)%positive.

(** [n.toString()] and [String(n)] for a natural number below 10^21: its
    decimal digits. *)
Fixpoint digitsOfPos (fuel : nat) (n : N) (acc : jsstring) : jsstring :=
  match fuel with
  | O => acc
  | S f =>
    let acc' := (48 + n mod 10) :: acc in
    if n <? 10 then acc' else digitsOfPos f (n / 10) acc'
  end.

Definition toStringN (n : N) : jsstring := digitsOfPos (S (N.to_nat (N.log2 n))) n [].

(** [s.padStart(width, fill)] for a one-unit [fill]. *)
Definition padStart (width : nat) (fill : N) (s : jsstring) : jsstring :=
  replicate (width - length s)%nat fill ++ s.

(** ** The path module, on names without a separator *)

Fixpoint lastIndexOfFrom (c : N) (i : nat) (s : jsstring) : option nat :=
  match s with
  | [] => None
  | d :: t =>
    match lastIndexOfFrom c (S i) t with
    | Some j => Some j
    | None => if d =? c then Some i else None
    end
  end.

(** [path.extname]: from the last dot to the end; empty when there is no
    dot, when the only dot leads the name, and for the name [..]. *)
Definition extname (p : jsstring) : jsstring :=
  match lastIndexOfFrom 46 0 p with
  | None => []
  | Some i =>
    if (i =? 0)%nat || jsstring_eqb p [46; 46] then [] else drop i p
  end.

(** [path.basename(p, suffix)] *)
Definition basename (p suffix : jsstring) : jsstring :=
  match suffix with
  | [] => p
  | _ :: _ =>
    if jsstring_eqb suffix p then []
    else if endsWith p suffix then take (length p - length suffix)%nat p
    else p
  end.

(** [path.join(dir, name)] for a normalized directory path and an entry
    name, where it has nothing to normalize. *)
Definition join (dir name : jsstring) : jsstring := dir ++ [47] ++ name.

Definition getBaseName (filename : jsstring) : jsstring :=
  basename filename (extname filename).

(** ** The filename tokenizer (folderHandler.ts) *)

Record SeasonEpisode : Type := SE {
  season : option N;
  episode : Q
}.

(* /\bS(\d+)E(\d+)\b/i *)
Definition reSeasonEpisode : regex :=
  (WordB ⋅ wordi "S" ⋅ Grp (Plus isDigit) ⋅ wordi "E" ⋅ Grp (Plus isDigit) ⋅ WordB)%re.

(* /Episode\s*(\d+)\.(\d+)/i *)
Definition reDecimalEpisode : regex :=
  (wordi "Episode" ⋅ Star isSpace ⋅ Grp (Plus isDigit) ⋅ word "." ⋅ Grp (Plus isDigit))%re.

Definition episodePatterns : list regex :=
  [ (wordi "Episode" ⋅ Star isSpace ⋅ Grp (Plus isDigit))%re;              (* /Episode\s*(\d+)/i *)
    (wordi "Ep" ⋅ Rep (lit ".") 0 (Some 1%nat) ⋅ Star isSpace ⋅ Grp (Plus isDigit))%re; (* /Ep\.?\s*(\d+)/i *)
    (wordi "E" ⋅ Grp (Rep isDigit 2 None))%re;                                (* /E(\d{2,})/i *)
    (Chr isSpace ⋅ word "-" ⋅ Star isSpace ⋅ Grp (Plus isDigit) ⋅ (Chr isSpace ∣ Eos))%re; (* /\s-\s*(\d+)(?:\s|$)/ *)
    (word "[" ⋅ Grp (Plus isDigit) ⋅ word "]")%re;                            (* /\[(\d+)\]/ *)
    (Chr isSpace ⋅ Grp (Rep isDigit 1 (Some 3%nat)) ⋅ (Chr isSpace ∣ Eos))%re ]. (* /\s(\d{1,3})(?:\s|$)/ *)

(* /\d+/g *)
Definition reDigits : regex := Plus isDigit.

(** [match[i]] for a capture group, [i >= 1]. *)
Definition group (i : nat) (res : MatchResult) : jsstring :=
  nth (pred i) (m_groups res) [].

(** The loop over [patterns]: the first pattern that matches. *)
Fixpoint firstPattern (ps : list regex) (baseName : jsstring) : option MatchResult :=
  match ps with
  | [] => None
  | p :: ps' =>
    match exec p baseName with
    | Some res => Some res
    | None => firstPattern ps' baseName
    end
  end.

(** The fallback on the digit runs of the base name. *)
Definition fallbackEpisode (baseName : jsstring) : N :=
  let numbers := matchAll reDigits baseName in
  let nonYearNumbers :=
    List.filter (fun n => let num := parseInt n in (num <? 1900) || (2099 <? num)) numbers in
  match last nonYearNumbers with
  | Some n => parseInt n
  | None => 1
  end.

Definition extractSeasonAndEpisode (filename : jsstring) : SeasonEpisode :=
  let baseName := getBaseName filename in
  match exec reSeasonEpisode baseName with
  | Some sem =>
    SE (Some (parseInt (group 1 sem))) (numOfN (parseInt (group 2 sem)))
  | None =>
    match exec reDecimalEpisode baseName with
    | Some dm =>
      let whole := parseInt (group 1 dm) in
      let decimal := parseInt (group 2 dm) in
      SE None (Qred (numOfN whole + numOfN decimal / 10))
    | None =>
      match firstPattern episodePatterns baseName with
      | Some pm => SE None (numOfN (parseInt (group 1 pm)))
      | None => SE None (numOfN (fallbackEpisode baseName))
      end
    end
  end.

(** The season of a folder name. *)
Definition seasonPatterns : list regex :=
  [ (wordi "Season" ⋅ Star isSpace ⋅ Grp (Plus isDigit))%re;   (* /Season\s*(\d+)/i *)
    (WordB ⋅ wordi "S" ⋅ Grp (Plus isDigit) ⋅ WordB)%re;       (* /\bS(\d+)\b/i *)
    (wordi "Season" ⋅ Star isSpace ⋅ Grp (Plus isDigit))%re ]. (* /Season\s*(\d+)/i *)

Definition extractSeasonNumber (folderName : jsstring) : option N :=
  match firstPattern seasonPatterns folderName with
  | Some res => Some (parseInt (group 1 res))
  | None => None
  end.

Definition partPatterns : list regex :=
  [ (wordi "Part" ⋅ Star isSpace ⋅ Grp (Plus isDigit))%re;     (* /Part\s*(\d+)/i *)
    (WordB ⋅ wordi "P" ⋅ Grp (Plus isDigit) ⋅ WordB)%re ].     (* /\bP(\d+)\b/i *)

Definition extractPartNumber (folderName : jsstring) : option N :=
  match firstPattern partPatterns folderName with
  | Some res => Some (parseInt (group 1 res))
  | None => None
  end.

(** ** The series-name extractor *)

Definition notLT (c : N) : bool := negb (isLineTerminator c).
Definition dotAllEnd : regex := (Star notLT ⋅ Eos)%re.                 (* .*$ *)
Definition optFraction : regex := Opt (Grp (word "." ⋅ Plus isDigit)). (* (\.\d+)? *)
Definition optAB (ci : bool) : regex :=                                (* [ab]? *)
  Rep (fun c => if ci then liti "a" c || liti "b" c else lit "a" c || lit "b" c)
      0 (Some 1%nat).
Definition spaceOrEnd : regex := (Chr isSpace ∣ Eos)%re.               (* (?:\s|$) *)

(** The chain of replacements that cleans one base name. *)
Definition cleanName (baseName : jsstring) : jsstring :=
  let s := baseName in
  (* /\s*\bS\d+E\d+(\.\d+)?\b.*$/i *)
  let s := replaceFirst (Star isSpace ⋅ WordB ⋅ wordi "S" ⋅ Plus isDigit ⋅ wordi "E"
                         ⋅ Plus isDigit ⋅ optFraction ⋅ WordB ⋅ dotAllEnd)%re [] s in
  (* /\s*\bE\d+(\.\d+)?\b.*$/i *)
  let s := replaceFirst (Star isSpace ⋅ WordB ⋅ wordi "E" ⋅ Plus isDigit ⋅ optFraction
                         ⋅ WordB ⋅ dotAllEnd)%re [] s in
  (* /\s*\bPart\s*\d+\b.*$/i *)
  let s := replaceFirst (Star isSpace ⋅ WordB ⋅ wordi "Part" ⋅ Star isSpace ⋅ Plus isDigit
                         ⋅ WordB ⋅ dotAllEnd)%re [] s in
  (* /\s*\bSeason\s*\d+\b.*$/i *)
  let s := replaceFirst (Star isSpace ⋅ WordB ⋅ wordi "Season" ⋅ Star isSpace ⋅ Plus isDigit
                         ⋅ WordB ⋅ dotAllEnd)%re [] s in
  (* /\s*Episode\s*\d+(\.\d+)?[ab]?\s*.*$/i *)
  let s := replaceFirst (Star isSpace ⋅ wordi "Episode" ⋅ Star isSpace ⋅ Plus isDigit
                         ⋅ optFraction ⋅ optAB true ⋅ Star isSpace ⋅ dotAllEnd)%re [] s in
  (* /\s*Ep\.?\s*\d+(\.\d+)?[ab]?\s*.*$/i *)
  let s := replaceFirst (Star isSpace ⋅ wordi "Ep" ⋅ Rep (lit ".") 0 (Some 1%nat)
                         ⋅ Star isSpace ⋅ Plus isDigit ⋅ optFraction ⋅ optAB true
                         ⋅ Star isSpace ⋅ dotAllEnd)%re [] s in
  (* /\s*\[\d+(\.\d+)?[ab]?\].*$/ *)
  let s := replaceFirst (Star isSpace ⋅ word "[" ⋅ Plus isDigit ⋅ optFraction ⋅ optAB false
                         ⋅ word "]" ⋅ dotAllEnd)%re [] s in
  (* /\s*-\s*\d{1,4}(?:\.\d+)?[ab]?(?:\s|$).*$/ *)
  let s := replaceFirst (Star isSpace ⋅ word "-" ⋅ Star isSpace ⋅ Rep isDigit 1 (Some 4%nat)
                         ⋅ Opt (word "." ⋅ Plus isDigit) ⋅ optAB false ⋅ spaceOrEnd
                         ⋅ dotAllEnd)%re [] s in
  (* /\s+\d{1,3}(?!\d)(?:\s|$)/g *)
  let s := replaceAll (Plus isSpace ⋅ Rep isDigit 1 (Some 3%nat) ⋅ NotAhead (Chr isDigit)
                       ⋅ spaceOrEnd)%re [] s in
  (* /\s*\[(?:1080|720|480|360)p?\]\s*/gi *)
  let s := replaceAll (Star isSpace ⋅ word "["
                       ⋅ (word "1080" ∣ word "720" ∣ word "480" ∣ word "360")
                       ⋅ Rep (liti "p") 0 (Some 1%nat) ⋅ word "]" ⋅ Star isSpace)%re
                      (str " ") s in
  (* /\s*\[(?:HD|SD|FHD|UHD)\]?\s*/gi *)
  let s := replaceAll (Star isSpace ⋅ word "["
                       ⋅ (wordi "HD" ∣ wordi "SD" ∣ wordi "FHD" ∣ wordi "UHD")
                       ⋅ Rep (lit "]") 0 (Some 1%nat) ⋅ Star isSpace)%re
                      (str " ") s in
  (* /\s*\(\d{4}\)\s*$/ *)
  let s := replaceFirst (Star isSpace ⋅ word "(" ⋅ Rep isDigit 4 (Some 4%nat) ⋅ word ")"
                         ⋅ Star isSpace ⋅ Eos)%re [] s in
  (* /\s*\([^)]*\)\s*/g *)
  let s := replaceAll (Star isSpace ⋅ word "(" ⋅ Star (fun c => negb (lit ")" c))
                       ⋅ word ")" ⋅ Star isSpace)%re (str " ") s in
  let s := replaceAll (word ".") (str " ") s in       (* /\./g *)
  let s := replaceAll (word "_") (str " ") s in       (* /_/g *)
  let s := replaceAll (Plus isSpace) (str " ") s in   (* /\s+/g *)
  trim s.

(** [names.sort((a, b) => a.length - b.length)], a stable sort: the names
    are inserted from left to right, each one behind the names that are not
    longer, so that names of one length keep the order of the array. *)
Fixpoint insertByLength (x : jsstring) (l : list jsstring) : list jsstring :=
  match l with
  | [] => [x]
  | y :: t => if (length x <? length y)%nat then x :: l else y :: insertByLength x t
  end.

Definition sortByLength (l : list jsstring) : list jsstring :=
  foldl (fun acc x => insertByLength x acc) [] l.

(** The loop that grows [commonPrefix] over the indices of [shortest]. *)
Fixpoint commonPrefixFrom (i : nat) (todo : jsstring) (names : list jsstring) : jsstring :=
  match todo with
  | [] => []
  | char :: todo' =>
    if forallb (fun name => bool_decide (name !! i = Some char)) names
    then char :: commonPrefixFrom (S i) todo' names
    else []
  end.

(** [s.split(/\s+/).filter(w => w.length > 0)] *)
Fixpoint wordsFrom (cur : jsstring) (s : jsstring) : list jsstring :=
  match s with
  | [] => match cur with [] => [] | _ => [rev cur] end
  | c :: t =>
    if isSpace c then
      match cur with
      | [] => wordsFrom [] t
      | _ => rev cur :: wordsFrom [] t
      end
    else wordsFrom (c :: cur) t
  end.

Definition words (s : jsstring) : list jsstring := wordsFrom [] s.

Fixpoint commonWordsFrom (i : nat) (todo : list jsstring) (names : list jsstring)
    : list jsstring :=
  match todo with
  | [] => []
  | w :: todo' =>
    if forallb (fun name => bool_decide (words name !! i = Some w)) names
    then w :: commonWordsFrom (S i) todo' names
    else []
  end.

(** [ws.join(' ')] *)
Fixpoint joinWords (ws : list jsstring) : jsstring :=
  match ws with
  | [] => []
  | [w] => w
  | w :: t => w ++ [32] ++ joinWords t
  end.

Definition isDashUnderscoreSpace (c : N) : bool :=
  lit "-" c || lit "_" c || isSpace c.

(** [extractSeriesNameFromFilenames], on the file names of the videos. *)
Definition extractSeriesNameFromFilenames (filenames : list jsstring) : jsstring :=
  match filenames with
  | [] => []
  | _ :: _ =>
    let cleanedNames := List.map (fun f => cleanName (getBaseName f)) filenames in
    match cleanedNames with
    | [only] => only
    | _ =>
      let cleanedNames := sortByLength cleanedNames in
      let shortest := hd [] cleanedNames in
      let commonPrefix := commonPrefixFrom 0 shortest cleanedNames in
      (* /[-_\s]+$/ *)
      let result := trim (replaceFirst (Plus isDashUnderscoreSpace ⋅ Eos)%re [] commonPrefix) in
      let result :=
        if (length result <? 3)%nat
        then trim (joinWords (commonWordsFrom 0 (words shortest) cleanedNames))
        else result in
      let result := if (length result <? 2)%nat then shortest else result in
      (* /\s*-\s*$/ and /\s+\d+\s*$/ *)
      let result := replaceFirst (Star isSpace ⋅ word "-" ⋅ Star isSpace ⋅ Eos)%re [] result in
      let result := replaceFirst (Plus isSpace ⋅ Plus isDigit ⋅ Star isSpace ⋅ Eos)%re [] result in
      trim result
    end
  end.

(** [cleanMovieTitle] *)
Definition cleanMovieTitle (filename : jsstring) : jsstring :=
  let s := getBaseName filename in
  (* /\s*\(.*?\)\s*/g *)
  let s := replaceAll (Star isSpace ⋅ word "(" ⋅ RepLazy notLT ⋅ word ")" ⋅ Star isSpace)%re [] s in
  (* /\s*\[.*?\]\s*/g *)
  let s := replaceAll (Star isSpace ⋅ word "[" ⋅ RepLazy notLT ⋅ word "]" ⋅ Star isSpace)%re [] s in
  (* /\.\d{4}\./g *)
  let s := replaceAll (word "." ⋅ Rep isDigit 4 (Some 4%nat) ⋅ word ".")%re (str " ") s in
  let s := replaceAll (word ".") (str " ") s in
  let s := replaceAll (word "_") (str " ") s in
  let s := replaceAll (Plus isSpace) (str " ") s in
  trim s.

(** ** Lower-casing *)

(** [s.toLowerCase()]. On a string of ASCII code units it lowers the letters
    A-Z; on any other string it is the Unicode lower-casing of the run-time,
    which the development takes as the parameter [unicodeLower]. *)
Definition toLowerCaseWith (unicodeLower : jsstring -> jsstring) (s : jsstring) : jsstring :=
  if forallb isAscii s then List.map asciiLower s else unicodeLower s.

(** ** Scan results *)

Record VideoFile : Type := mkVideoFile {
  filename : jsstring;
  filePath : jsstring;
  vtitle : jsstring;
  episodeNumber : Q;
  seasonNumber : option N;
  subtitlePath : option jsstring;
  subtitlePaths : list jsstring;
  parentFolder : jsstring
}.

Inductive MediaType : Type := series | movie.

Record ScannedMedia : Type := mkScannedMedia {
  id : jsstring;
  name : jsstring;
  type : MediaType;
  folderPath : jsstring;
  files : list VideoFile;
  mSeasonNumber : option N;
  mPartNumber : option N
}.

(** [files.sort(...)]: by season (null as 0), then by episode; stable. *)
Definition videoLe (a b : VideoFile) : bool :=
  let seasonA := default 0 (seasonNumber a) in
  let seasonB := default 0 (seasonNumber b) in
  if negb (seasonA =? seasonB) then seasonA <? seasonB
  else match (episodeNumber a ?= episodeNumber b)%Q with Gt => false | _ => true end.

Fixpoint insertVideo (x : VideoFile) (l : list VideoFile) : list VideoFile :=
  match l with
  | [] => [x]
  | y :: t => if videoLe y x then y :: insertVideo x t else x :: l
  end.

Definition sortVideos (l : list VideoFile) : list VideoFile :=
  foldl (fun acc x => insertVideo x acc) [] l.

(** ** Effects: a mutable local state, exceptions and the console *)

(** The diagnostics written with [console.warn] and [console.error]; the
    progress lines of [console.log] are left out. *)
Inductive level : Type := LWarn | LError.

Inductive event (E : Type) : Type :=
| CouldNotStat (path : jsstring)                    (* warn  *)
| DuplicateVideo (path : jsstring)                  (* warn  *)
| ErrorScanningFolder (path : jsstring) (e : E)     (* error *)
| CouldNotProcess (path : jsstring) (e : E)         (* warn  *)
| ErrorScanningRoot (path : jsstring) (e : E)       (* error *)
| ErrorScanning (path : jsstring) (e : E).          (* error *)

Arguments CouldNotStat {E}.
Arguments DuplicateVideo {E}.
Arguments ErrorScanningFolder {E}.
Arguments CouldNotProcess {E}.
Arguments ErrorScanningRoot {E}.
Arguments ErrorScanning {E}.

Definition levelOf {E} (ev : event E) : level :=
  match ev with
  | CouldNotStat _ | DuplicateVideo _ | CouldNotProcess _ _ => LWarn
  | ErrorScanningFolder _ _ | ErrorScanningRoot _ _ | ErrorScanning _ _ => LError
  end.

Definition eventPath {E} (ev : event E) : jsstring :=
  match ev with
  | CouldNotStat p | DuplicateVideo p | CouldNotProcess p _
  | ErrorScanningFolder p _ | ErrorScanningRoot p _ | ErrorScanning p _ => p
  end.

(** A computation over a mutable state [S]: it ends normally or by a thrown
    value, leaves a state either way, and writes diagnostics. *)
Record Outcome (E S A : Type) : Type := mkOutcome {
  result : E + A;
  state : S;
  logged : list (event E)
}.
Arguments mkOutcome {E S A}.
Arguments result {E S A}.
Arguments state {E S A}.
Arguments logged {E S A}.

Definition M (E S A : Type) : Type := S -> Outcome E S A.

Definition ret {E S A} (a : A) : M E S A := fun s => mkOutcome (inr a) s [].
Definition throw {E S A} (e : E) : M E S A := fun s => mkOutcome (inl e) s [].

Definition bind {E S A B} (c : M E S A) (f : A -> M E S B) : M E S B :=
  fun s =>
    let o := c s in
    match result o with
    | inl e => mkOutcome (inl e) (state o) (logged o)
    | inr a =>
      let o' := f a (state o) in
      mkOutcome (result o') (state o') (logged o ++ logged o')
    end.

(** [try { c } catch (e) { h e }] *)
Definition tryCatch {E S A} (c : M E S A) (h : E -> M E S A) : M E S A :=
  fun s =>
    let o := c s in
    match result o with
    | inl e =>
      let o' := h e (state o) in
      mkOutcome (result o') (state o') (logged o ++ logged o')
    | inr a => o
    end.

Definition getState {E S} : M E S S := fun s => mkOutcome (inr s) s [].
Definition modify {E S} (f : S -> S) : M E S unit := fun s => mkOutcome (inr tt) (f s) [].
Definition console {E S} (ev : event E) : M E S unit := fun s => mkOutcome (inr tt) s [ev].

(** The result of an operation of the run-time that either throws or
    returns. *)
Definition lift {E S A} (r : E + A) : M E S A := fun s => mkOutcome r s [].

(** A call of a function that has local variables of its own. *)
Definition call {E S S' A} (init : S') (c : M E S' A) : M E S A :=
  fun s => let o := c init in mkOutcome (result o) s (logged o).

Declare Scope m_scope.
Delimit Scope m_scope with M.
Notation "x <- c ;; k" := (bind c (fun x => k))
  (at level 100, c at next level, right associativity) : m_scope.
Notation "c ;; k" := (bind c (fun _ => k))
  (at level 100, right associativity) : m_scope.

(** [for (const x of xs) { body x }] *)
Fixpoint forEach {E S X} (xs : list X) (body : X -> M E S unit) : M E S unit :=
  match xs with
  | [] => ret tt
  | x :: xs' => bind (body x) (fun _ => forEach xs' body)
  end.

(** ** The directory classifier *)

Record Stats : Type := mkStats { isFile : bool; isDirectory : bool }.

Fixpoint takeWhile (p : N -> bool) (s : jsstring) : jsstring :=
  match s with
  | c :: t => if p c then c :: takeWhile p t else []
  | [] => []
  end.

Fixpoint dropWhile (p : N -> bool) (s : jsstring) : jsstring :=
  match s with
  | c :: t => if p c then dropWhile p t else s
  | [] => []
  end.

(** The last component of a path ([path.basename] with one argument). *)
Definition pathBasename (p : jsstring) : jsstring :=
  rev (takeWhile (fun c => negb (c =? 47)) (dropWhile (fun c => c =? 47) (rev p))).

Definition VIDEO_EXTENSIONS : list jsstring :=
  List.map str [".mp4"; ".mkv"; ".avi"; ".mov"; ".wmv"; ".flv"; ".webm"; ".m4v"]%string.
Definition SUBTITLE_EXTENSIONS : list jsstring :=
  List.map str [".srt"; ".vtt"; ".ass"; ".ssa"]%string.

(** ** The state of a folder scan, provider candidates and store records *)

(** The local variables [videos] and [subtitles]. *)
Record FolderState : Type := mkFolderState {
  videos : list VideoFile;
  subtitles : gmap jsstring (list jsstring)
}.

Record EpisodeMetadata : Type := mkEpisode {
  ep_episodeNumber : Q;
  ep_seasonNumber : option N;
  ep_title : jsstring;
  ep_description : option jsstring;
  ep_airDate : option jsstring;
  ep_thumbnail : option jsstring;
  ep_thumbnailLocal : option jsstring
}.

(** A candidate of a search; the fields that are only copied into the
    result (duration, season, format, dates, score, studios) are left out. *)
Record AniListMedia : Type := mkMedia {
  media_id : N;
  title_romaji : jsstring;
  title_english : option jsstring;
  title_native : jsstring;
  media_description : option jsstring;
  media_genres : list jsstring;
  coverImage : option (jsstring * jsstring);   (* large, extraLarge *)
  bannerImage : option jsstring;
  media_episodes : option N;
  media_status : jsstring
}.

Record SeriesMetadata : Type := mkSeriesMetadata {
  sm_seriesId : jsstring;
  sm_title : jsstring;
  sm_description : jsstring;
  sm_genres : list jsstring;
  sm_poster : option jsstring;
  sm_banner : option jsstring;
  sm_episodes : list EpisodeMetadata;
  sm_totalEpisodes : option N;
  sm_status : jsstring;
  sm_providerId : N
}.

Record FileEpisode : Type := mkFileEpisode {
  fe_episodeNumber : Q;
  fe_seasonNumber : option N;
  fe_filePath : jsstring;
  fe_subtitlePath : option jsstring;
  fe_subtitlePaths : list jsstring;
  fe_filename : jsstring;
  fe_title : jsstring
}.

(** A record of the persisted store; a field that is absent or null is
    [None]. *)
Record SeriesRecord : Type := mkSeriesRecord {
  r_seriesId : option jsstring;
  r_title : option jsstring;
  r_description : option jsstring;
  r_genres : list jsstring;
  r_poster : option jsstring;
  r_posterLocal : option jsstring;
  r_banner : option jsstring;
  r_bannerLocal : option jsstring;
  r_episodes : list EpisodeMetadata;
  r_fileEpisodes : option (list FileEpisode);
  r_folderPath : option jsstring;
  r_type : option MediaType;
  r_source : option jsstring;
  r_totalEpisodes : option N;
  r_status : option jsstring;
  r_providerId : option N
}.

(** ** Sample inputs

    The inputs of the concrete runs at the end of the development. *)

(** The case maps of the run-time are never consulted on ASCII strings; the
    runs below take the identity for them. *)
Definition noUnicode : jsstring -> jsstring := fun s => s.

(** A library on disk: a category folder with one series and a folder that
    cannot be read, a movie, and an entry that cannot be stat-ed. The root
    [/gone] cannot be read. *)
Definition diskReaddir (p : jsstring) : unit + list jsstring :=
  if jsstring_eqb p (str "/lib") then
    inr [str "Series"; str "movie.2019.mp4"; str "bad"]
  else if jsstring_eqb p (str "/lib/Series") then
    inr [str "My Show"; str "locked"]
  else if jsstring_eqb p (str "/lib/Series/My Show") then
    inr [str "My Show - 02.mkv"; str "My Show - 01.mkv"; str "My Show - 01.srt"]
  else inl tt.

Definition diskStat (p : jsstring) : unit + Stats :=
  if jsstring_eqb p (str "/lib/Series") || jsstring_eqb p (str "/lib/Series/My Show")
     || jsstring_eqb p (str "/lib/Series/locked")
  then inr (mkStats false true)
  else if jsstring_eqb p (str "/lib/bad") then inl tt
  else inr (mkStats true false).

(** A library whose category folder [/lib/Shows] holds the folder [Gone],
    which is removed while the library is scanned: what [stat] answers before
    the removal and what it answers after it. *)
Definition raceReaddir (p : jsstring) : unit + list jsstring :=
  if jsstring_eqb p (str "/lib") then inr [str "Shows"]
  else if jsstring_eqb p (str "/lib/Shows") then inr [str "Gone"]
  else inl tt.

Definition statBeforeRemoval (p : jsstring) : unit + Stats :=
  if jsstring_eqb p (str "/lib/Shows") || jsstring_eqb p (str "/lib/Shows/Gone")
  then inr (mkStats false true)
  else inl tt.

Definition statAfterRemoval (p : jsstring) : unit + Stats :=
  if jsstring_eqb p (str "/lib/Shows/Gone") then inl tt else statBeforeRemoval p.

(** Whether a computation that may throw returned. *)
Definition returned {A B} (x : A + B) : bool :=
  match x with inr _ => true | inl _ => false end.

Definition emptyRecord : SeriesRecord :=
  mkSeriesRecord None None None [] None None None None [] None None None None None None None.

(** A stored record with a title and a cached poster. *)
Definition cachedRecord (title : string) : SeriesRecord :=
  mkSeriesRecord (Some (str "old_id")) (Some (str title)) (Some (str "A show."))
                 [str "Drama"] (Some (str "https://img/p.jpg")) (Some (str "/cache/p.jpg"))
                 None None [] (Some []) (Some (str "/old/path")) None (Some (str "mal"))
                 (Some 12) (Some (str "Finished Airing")) (Some 42).

Definition oneVideo (file : string) (ep : Q) (s : option N) : VideoFile :=
  mkVideoFile (str file) (str "/lib/" ++ str file) (getBaseName (str file)) ep s None []
              (str "lib").

Definition unitOf (ident nm : string) (s : option N) (vs : list VideoFile) : ScannedMedia :=
  mkScannedMedia (str ident) (str nm) series (str "/lib/show") vs s None.

(** The unit [My Show] of season 2, and the unit [86]. *)
Definition seasonTwoUnit : ScannedMedia :=
  unitOf "my_show_s02" "My Show" (Some 2) [oneVideo "My Show - 01.mkv" 1 (Some 2)].


(** A store that holds one record without files. *)
Definition staleStore : gmap jsstring SeriesRecord := {[ str "stale" := emptyRecord ]}.

(** A candidate that is not yet released, with a null episode count. *)
Definition upcoming : AniListMedia :=
  mkMedia 7 (str "Upcoming Show") None (str "Upcoming Show") None [] None None None
          (str "NOT_YET_RELEASED").

(** A store that holds the record of a series of another folder, with one
    file episode, and a record without files. *)
Definition otherShowRecord : SeriesRecord :=
  mkSeriesRecord (Some (str "other_show")) (Some (str "Other Show")) (Some (str "A show."))
                 [] None None None None []
                 (Some [mkFileEpisode 1 None (str "/elsewhere/Other Show - 01.mkv") None []
                                      (str "Other Show - 01.mkv") (str "Other Show - 01")])
                 (Some (str "/elsewhere")) (Some series) (Some (str "local")) None None None.

Definition otherStore : gmap jsstring SeriesRecord :=
  {[ str "other_show" := otherShowRecord; str "stale" := emptyRecord ]}.

Section Liam.

(** The Unicode lower-casing of the run-time on strings that are not all
    ASCII. *)
Variable unicodeLower : jsstring -> jsstring.

(** The file system: the values thrown by its operations, and what
    [readdir] and [stat] answer for a path during one scan. *)
Variable E : Type.
Variable readdir : jsstring -> E + list jsstring.
Variable stat : jsstring -> E + Stats.

Definition toLowerCase : jsstring -> jsstring := toLowerCaseWith unicodeLower.

Definition isVideoFile (filename : jsstring) : bool :=
  bool_decide (toLowerCase (extname filename) ∈ VIDEO_EXTENSIONS).

Definition isSubtitleFile (filename : jsstring) : bool :=
  bool_decide (toLowerCase (extname filename) ∈ SUBTITLE_EXTENSIONS).

(** *** The identifier generator *)

Definition generateSeriesId (seriesName folderName : jsstring)
    (seasonNumber partNumber : option N) : jsstring :=
  let baseId :=
    if (2 <=? length seriesName)%nat then
      (* .replace(/[^a-zA-Z0-9\s]/g, '').replace(/\s+/g, '_').toLowerCase().substring(0, 50) *)
      take 50 (toLowerCase
        (replaceAll (Plus isSpace) (str "_")
          (replaceAll (Chr (fun c => negb (isAlnum c || isSpace c))) [] seriesName)))
    else
      (* folderName.replace(/[^a-zA-Z0-9]/g, '_').toLowerCase() *)
      toLowerCase (replaceAll (Chr (fun c => negb (isAlnum c))) (str "_") folderName) in
  match partNumber with
  | Some part => baseId ++ str "_part" ++ padStart 2 48 (toStringN part)
  | None =>
    match seasonNumber with
    | Some season => baseId ++ str "_s" ++ padStart 2 48 (toStringN season)
    | None => baseId
    end
  end.

(** [movie_] and the cleaned title with every non-alphanumeric unit turned
    into an underscore, lower-cased. *)
Definition movieIdOf (movieTitle : jsstring) : jsstring :=
  str "movie_" ++ toLowerCase (replaceAll (Chr (fun c => negb (isAlnum c))) (str "_") movieTitle).

(** *** scanFolderForVideos *)

Local Open Scope m_scope.

Definition pushVideo (v : VideoFile) (st : FolderState) : FolderState :=
  mkFolderState (videos st ++ [v]) (subtitles st).

Definition pushSubtitle (baseName fullPath : jsstring) (st : FolderState) : FolderState :=
  let existing := default [] (subtitles st !! baseName) in
  mkFolderState (videos st) (<[baseName := existing ++ [fullPath]]> (subtitles st)).

(** The body of the loop over the entries of the folder. *)
Definition scanFolderEntry (folderPath folderName : jsstring) (seasonFromFolder : option N)
    (entry : jsstring) : M E FolderState unit :=
  let fullPath := join folderPath entry in
  tryCatch
    (stats <- lift (stat fullPath) ;;
     if isFile stats then
       if isVideoFile entry then
         let se := extractSeasonAndEpisode entry in
         let finalSeason := match season se with Some x => Some x | None => seasonFromFolder end in
         modify (pushVideo
           (mkVideoFile entry fullPath (getBaseName entry) (episode se) finalSeason
                        None [] folderName))
       else if isSubtitleFile entry then
         modify (pushSubtitle (getBaseName entry) fullPath)
       else ret tt
     else ret tt)
    (fun _ => console (CouldNotStat fullPath)).

(** The subtitles of the same base name, the first one the primary. *)
Definition matchSubtitles (subs : gmap jsstring (list jsstring)) (video : VideoFile) : VideoFile :=
  match default [] (subs !! getBaseName (filename video)) with
  | [] => video
  | first :: rest =>
    mkVideoFile (filename video) (filePath video) (vtitle video) (episodeNumber video)
                (seasonNumber video) (Some first) (first :: rest) (parentFolder video)
  end.

(** The filter on [seenPaths]: the first video of each path, a warning for
    every other. *)
Fixpoint dedupe (seen : gset jsstring) (vs : list VideoFile)
    : list VideoFile * list (event E) :=
  match vs with
  | [] => ([], [])
  | v :: vs' =>
    if bool_decide (filePath v ∈ seen) then
      let '(r, l) := dedupe seen vs' in (r, DuplicateVideo (filePath v) :: l)
    else
      let '(r, l) := dedupe ({[filePath v]} ∪ seen) vs' in (v :: r, l)
  end.

Definition scanFolderForVideosBody (folderPath : jsstring) (folderSeason : option N)
    : M E FolderState (list VideoFile) :=
  let folderName := pathBasename folderPath in
  let seasonFromFolder :=
    match folderSeason with Some x => Some x | None => extractSeasonNumber folderName end in
  tryCatch
    (entries <- lift (readdir folderPath) ;;
     forEach entries (scanFolderEntry folderPath folderName seasonFromFolder) ;;
     st <- getState ;;
     let matched := List.map (matchSubtitles (subtitles st)) (videos st) in
     let '(uniqueVideos, warnings) := dedupe ∅ matched in
     forEach warnings console ;;
     ret uniqueVideos)
    (fun error => console (ErrorScanningFolder folderPath error) ;; ret []).

Definition scanFolderForVideos {S} (folderPath : jsstring) (folderSeason : option N)
    : M E S (list VideoFile) :=
  call (mkFolderState [] ∅) (scanFolderForVideosBody folderPath folderSeason).

(** *** scanDirectory *)

(** The loop that collects the names of the sub-directories; the local
    variable is [subDirs]. *)
Definition collectSubDir (entryPath subEntry : jsstring) : M E (list jsstring) unit :=
  let subPath := join entryPath subEntry in
  tryCatch
    (subStats <- lift (stat subPath) ;;
     if isDirectory subStats then modify (fun subDirs => subDirs ++ [subEntry]) else ret tt)
    (fun _ => ret tt).

Definition collectSubDirs {S} (entryPath : jsstring) (subEntries : list jsstring)
    : M E S (list jsstring) :=
  call [] (forEach subEntries (collectSubDir entryPath) ;; getState).

Definition pushResult (r : ScannedMedia) : M E (list ScannedMedia) unit :=
  modify (fun results => results ++ [r]).

(** A series folder inside a category folder. *)
Definition scanCategorySeries (entryPath subDir : jsstring) : M E (list ScannedMedia) unit :=
  let seriesPath := join entryPath subDir in
  let seasonFromFolder := extractSeasonNumber subDir in
  let partFromFolder := extractPartNumber subDir in
  vids <- scanFolderForVideos seriesPath seasonFromFolder ;;
  if (0 <? length vids)%nat then
    let seriesName := extractSeriesNameFromFilenames (List.map filename vids) in
    let seriesId := generateSeriesId seriesName subDir seasonFromFolder partFromFolder in
    pushResult (mkScannedMedia seriesId seriesName series seriesPath (sortVideos vids)
                               seasonFromFolder partFromFolder)
  else ret tt.

Definition movieOfLooseVideo (entryPath : jsstring) (video : VideoFile) : ScannedMedia :=
  let movieTitle := cleanMovieTitle (filename video) in
  mkScannedMedia (movieIdOf movieTitle) movieTitle movie entryPath [video] None None.

(** The body of the loop over the entries of the root. *)
Definition scanRootEntry (rootPath entry : jsstring) : M E (list ScannedMedia) unit :=
  let entryPath := join rootPath entry in
  tryCatch
    (stats <- lift (stat entryPath) ;;
     if isDirectory stats then
       subVideos <- scanFolderForVideos entryPath None ;;
       subEntries <- lift (readdir entryPath) ;;
       subDirs <- collectSubDirs entryPath subEntries ;;
       if (0 <? length subDirs)%nat && (length subVideos =? 0)%nat then
         forEach subDirs (scanCategorySeries entryPath) ;;
         if (0 <? length subVideos)%nat then
           forEach subVideos (fun video => pushResult (movieOfLooseVideo entryPath video))
         else ret tt
       else if (0 <? length subVideos)%nat then
         let seriesName := extractSeriesNameFromFilenames (List.map filename subVideos) in
         let seasonFromFolder := extractSeasonNumber entry in
         let partFromFolder := extractPartNumber entry in
         let seriesId := generateSeriesId seriesName entry seasonFromFolder partFromFolder in
         pushResult (mkScannedMedia seriesId seriesName series entryPath (sortVideos subVideos)
                                    seasonFromFolder partFromFolder)
       else ret tt
     else if isFile stats && isVideoFile entry then
       let movieTitle := cleanMovieTitle entry in
       let movieEpisode := episode (extractSeasonAndEpisode entry) in
       pushResult (mkScannedMedia (movieIdOf movieTitle) movieTitle movie rootPath
         [mkVideoFile entry entryPath (getBaseName entry) movieEpisode None None []
                      (pathBasename rootPath)]
         None None)
     else ret tt)
    (fun err => console (CouldNotProcess entryPath err)).

Definition scanDirectoryBody (rootPath : jsstring) : M E (list ScannedMedia) (list ScannedMedia) :=
  tryCatch
    (entries <- lift (readdir rootPath) ;;
     forEach entries (scanRootEntry rootPath))
    (fun error => console (ErrorScanningRoot rootPath error) ;; throw error) ;;
  getState.

Definition scanDirectory {S} (rootPath : jsstring) : M E S (list ScannedMedia) :=
  call [] (scanDirectoryBody rootPath).

(** *** scanMultipleFolders *)

Definition scanOneOfMany (folderPath : jsstring) : M E (list ScannedMedia) unit :=
  tryCatch
    (results <- scanDirectory folderPath ;;
     modify (fun allResults => allResults ++ results))
    (fun error => console (ErrorScanning folderPath error)).

Definition scanMultipleFolders {S} (folderPaths : list jsstring) : M E S (list ScannedMedia) :=
  call [] (forEach folderPaths scanOneOfMany ;; getState).

(** *** The AniList provider (anilistHandler.ts) *)

(** The Unicode upper-casing of the run-time on strings that are not all
    ASCII. *)
Variable unicodeUpper : jsstring -> jsstring.

Definition toUpperCase (s : jsstring) : jsstring :=
  if forallb isAscii s then List.map asciiUpper s else unicodeUpper s.

Definition isReleased (media : AniListMedia) : bool :=
  let status := toUpperCase (media_status media) in
  if jsstring_eqb status (str "NOT_YET_RELEASED")
     || jsstring_eqb status (str "CANCELLED")
     || jsstring_eqb status (str "HIATUS")
  then false
  else true.

(** The network: what a search answers, what the episode request of a
    candidate answers at each attempt, and which thrown values are
    rate-limit errors. *)
Variable searchAnimeMultiple : jsstring -> nat -> E + list AniListMedia.
Variable getEpisodes : nat -> N -> option N -> option N -> E + list EpisodeMetadata.
Variable isRateLimitError : E -> bool.

(** The first loop: the first candidate that is released and, when the
    folder count is known, reports at least that many episodes. *)
Fixpoint firstValidResult (folderEpisodeCount : option nat) (results : list AniListMedia)
    : option AniListMedia :=
  match results with
  | [] => None
  | media :: rest =>
    if negb (isReleased media) then firstValidResult folderEpisodeCount rest
    else
      match folderEpisodeCount with
      | Some count =>
        match media_episodes media with
        | None => firstValidResult folderEpisodeCount rest
        | Some eps =>
          if eps <? N.of_nat count then firstValidResult folderEpisodeCount rest
          else Some media
        end
      | None => Some media
      end
  end.

(** The second loop: the first candidate whose episode count is null. *)
Fixpoint firstUnknownCount (results : list AniListMedia) : option AniListMedia :=
  match results with
  | [] => None
  | media :: rest =>
    match media_episodes media with
    | None => Some media
    | Some _ => firstUnknownCount rest
    end
  end.

(** The candidate the two loops accept. *)
Definition acceptCandidate (folderEpisodeCount : option nat) (results : list AniListMedia)
    : option AniListMedia :=
  match firstValidResult folderEpisodeCount results with
  | Some media => Some media
  | None =>
    match folderEpisodeCount with
    | Some _ => firstUnknownCount results
    | None => None
    end
  end.

(** The retry loop around [getEpisodes]: [left] retries remain. *)
Fixpoint getEpisodesWithRetry (left : nat) (media : AniListMedia) (seasonNumber : option N)
    : E + list EpisodeMetadata :=
  match getEpisodes (3 - left) (media_id media) (media_episodes media) seasonNumber with
  | inr episodes => inr episodes
  | inl error =>
    match left with
    | S left' =>
      if isRateLimitError error then getEpisodesWithRetry left' media seasonNumber
      else inl error
    | O => inl error
    end
  end.

Definition orElse (a : option jsstring) (b : jsstring) : jsstring :=
  match a with Some (c :: t) => c :: t | _ => b end.

Definition formatMetadata (media : AniListMedia) (episodes : list EpisodeMetadata)
    (seasonNumber : option N) : SeriesMetadata :=
  let title := orElse (title_english media) (orElse (Some (title_romaji media)) (title_native media)) in
  let seasonSet := match seasonNumber with Some 0 | None => None | Some n => Some n end in
  mkSeriesMetadata
    (str "anilist_" ++ toStringN (media_id media) ++
       match seasonSet with
       | Some n => str "_s" ++ padStart 2 48 (toStringN n)
       | None => []
       end)
    match seasonSet with
    | Some n => title ++ str " (Season " ++ toStringN n ++ str ")"
    | None => title
    end
    (orElse (media_description media) [])
    (media_genres media)
    match coverImage media with
    | Some (large, extraLarge) =>
      match extraLarge, large with
      | _ :: _, _ => Some extraLarge
      | [], _ :: _ => Some large
      | [], [] => None
      end
    | None => None
    end
    match bannerImage media with Some (c :: t) => Some (c :: t) | _ => None end
    episodes
    (media_episodes media)
    (media_status media)
    (media_id media).

(** The two loops over one list of candidates, with the episode request of
    the accepted one. *)
Definition tryResults (results : list AniListMedia) (seasonNumber : option N)
    (folderEpisodeCount : option nat) : E + option SeriesMetadata :=
  match acceptCandidate folderEpisodeCount results with
  | Some media =>
    match getEpisodesWithRetry 3 media seasonNumber with
    | inr episodes => inr (Some (formatMetadata media episodes seasonNumber))
    | inl error => inl error
    end
  | None => inr None
  end.

Definition above1 (n : option N) : bool :=
  match n with Some x => 1 <? x | None => false end.

Definition searchAndFetchMetadata (seriesName : jsstring) (seasonNumber partNumber : option N)
    (folderEpisodeCount : option nat) : option SeriesMetadata :=
  let searchQuery :=
    if above1 partNumber then
      seriesName ++ str " Part " ++ toStringN (default 0 partNumber)
    else if above1 seasonNumber then
      seriesName ++ str " Season " ++ toStringN (default 0 seasonNumber)
    else seriesName in
  let attempt : E + option SeriesMetadata :=
    match searchAnimeMultiple searchQuery 10 with
    | inl error => inl error
    | inr searchResults =>
      if (length searchResults =? 0)%nat && (above1 partNumber || above1 seasonNumber) then
        match searchAnimeMultiple seriesName 10 with
        | inl error => inl error
        | inr resultsWithoutSeason =>
          tryResults resultsWithoutSeason seasonNumber folderEpisodeCount
        end
      else tryResults searchResults seasonNumber folderEpisodeCount
    end in
  (* catch (error) { return null } *)
  match attempt with
  | inr r => r
  | inl _ => None
  end.

(** *** The metadata store and the scan-and-fetch-metadata handler (main.ts) *)

(** The other provider: [malHandler.searchAndFetchMetadata], which like the
    AniList one returns null instead of throwing. *)
Variable malSearchAndFetchMetadata :
  jsstring -> option N -> option N -> option nat -> option SeriesMetadata.

(** [imageCacheHandler.cacheImage] and [thumbnailHandler.generateThumbnail]:
    both return the local path or null, and never throw. *)
Variable cacheImage : jsstring -> option jsstring.
Variable generateThumbnail : jsstring -> option jsstring.

(** A string-or-null value that is truthy. *)
Definition truthy (o : option jsstring) : bool :=
  match o with Some (_ :: _) => true | _ => false end.

Definition orNull (o : option jsstring) : option jsstring :=
  if truthy o then o else None.

Definition fileEpisodeOf (f : VideoFile) : FileEpisode :=
  mkFileEpisode (episodeNumber f) (seasonNumber f) (filePath f) (subtitlePath f)
                (subtitlePaths f) (filename f) (vtitle f).

(* /\s*\(season\s*\d+\)/gi, /[^a-z0-9\s]/g, /\s+/g *)
Definition normalizeForComparison (title : jsstring) : jsstring :=
  trim
    (replaceAll (Plus isSpace) (str " ")
      (replaceAll (Chr (fun c => negb (isLower c || isDigit c || isSpace c))) []
        (replaceAll (Star isSpace ⋅ word "(" ⋅ wordi "season" ⋅ Star isSpace
                     ⋅ Plus isDigit ⋅ word ")")%re [] title))).

Definition titlesMatch (normalizedCached normalizedSeries : jsstring) : bool :=
  jsstring_eqb normalizedCached normalizedSeries
  || ((5 <=? length normalizedSeries)%nat
      && (includes normalizedCached normalizedSeries
          || includes normalizedSeries normalizedCached)).

(** The title with [ (Season n)] appended when the unit has a season and the
    pattern does not occur yet. *)
Definition withSeason (seasonPattern : regex) (title : jsstring) (seasonNumber : option N)
    : jsstring :=
  match seasonNumber with
  | Some n =>
    if test seasonPattern title then title
    else title ++ str " (Season " ++ toStringN n ++ str ")"
  | None => title
  end.

(* /\(Season\s*\d+\)/i *)
Definition reSeasonInParens : regex :=
  (word "(" ⋅ wordi "Season" ⋅ Star isSpace ⋅ Plus isDigit ⋅ word ")")%re.

(* /Season\s*\d+/i *)
Definition reSeasonBare : regex :=
  (wordi "Season" ⋅ Star isSpace ⋅ Plus isDigit)%re.

(** The record of a cache hit: [{...existing, seriesId, title, fileEpisodes,
    folderPath, type}]. *)
Definition cacheHitRecord (existing : SeriesRecord) (media : ScannedMedia) : SeriesRecord :=
  let finalTitle := withSeason reSeasonInParens (default [] (r_title existing)) (mSeasonNumber media) in
  mkSeriesRecord
    (Some (id media))
    (Some finalTitle)
    (r_description existing) (r_genres existing)
    (r_poster existing) (r_posterLocal existing)
    (r_banner existing) (r_bannerLocal existing)
    (r_episodes existing)
    (Some (List.map fileEpisodeOf (files media)))
    (Some (folderPath media))
    (Some (type media))
    (r_source existing) (r_totalEpisodes existing) (r_status existing) (r_providerId existing).

(** What the check of the cached record decides. *)
Inductive CacheCheck : Type :=
| UseCached (r : SeriesRecord)   (* the branch that ends in [continue] *)
| Invalidate                     (* [delete newMetadata[mediaId]], then fetch *)
| Fetch.                         (* fall through to the fetch *)

Definition checkCache (existing : option SeriesRecord) (media : ScannedMedia) : CacheCheck :=
  match existing with
  | Some ex =>
    if truthy (r_title ex) && truthy (r_posterLocal ex) then
      let cachedTitle := trim (toLowerCase (default [] (r_title ex))) in
      let seriesNameLower := trim (toLowerCase (name media)) in
      let normalizedCached := normalizeForComparison cachedTitle in
      let normalizedSeries := normalizeForComparison seriesNameLower in
      let tm := titlesMatch normalizedCached normalizedSeries in
      if negb tm && (3 <=? length normalizedSeries)%nat then Invalidate
      else if tm then UseCached (cacheHitRecord ex media)
      else Fetch
    else Fetch
  | None => Fetch
  end.

(** [canonicalEpisodeCount]: the files whose episode number is an integer. *)
Definition canonicalEpisodeCount (media : ScannedMedia) : nat :=
  length (List.filter (fun f => isInteger (episodeNumber f)) (files media)).

(** The providers in order: MAL, then AniList. *)
Definition fetchMetadata (media : ScannedMedia) : option (SeriesMetadata * jsstring) :=
  let count := Some (canonicalEpisodeCount media) in
  match malSearchAndFetchMetadata (name media) (mSeasonNumber media) (mPartNumber media) count with
  | Some md => Some (md, str "mal")
  | None =>
    match searchAndFetchMetadata (name media) (mSeasonNumber media) (mPartNumber media) count with
    | Some md => Some (md, str "anilist")
    | None => None
    end
  end.

(** [fileEpisodeMap]: keys are a season (or null) and an episode number, in
    the order of their first insertion. *)
Definition EpisodeKey : Type := (option N * Q)%type.

Definition keyEqb (a b : EpisodeKey) : bool :=
  bool_decide (fst a = fst b) && Qeq_bool (snd a) (snd b).

Fixpoint mapSet (k : EpisodeKey) (v : jsstring) (l : list (EpisodeKey * jsstring))
    : list (EpisodeKey * jsstring) :=
  match l with
  | [] => [(k, v)]
  | (k', v') :: t => if keyEqb k' k then (k', v) :: t else (k', v') :: mapSet k v t
  end.

Definition mapGet (k : EpisodeKey) (l : list (EpisodeKey * jsstring)) : option jsstring :=
  match List.find (fun kv => keyEqb (fst kv) k) l with
  | Some kv => Some (snd kv)
  | None => None
  end.

Definition fileEpisodeMapOf (fs : list VideoFile) : list (EpisodeKey * jsstring) :=
  foldl (fun acc f => mapSet (seasonNumber f, episodeNumber f) (filePath f) acc) [] fs.

(** The video whose frame stands in for the thumbnail of a provider
    episode. *)
Definition videoPathFor (fileEpisodeMap : list (EpisodeKey * jsstring)) (ep : EpisodeMetadata)
    : option jsstring :=
  let epSeason := ep_seasonNumber ep in
  let videoPath := orNull (mapGet (epSeason, ep_episodeNumber ep) fileEpisodeMap) in
  let videoPath :=
    match videoPath, epSeason with
    | None, Some _ => orNull (mapGet (None, ep_episodeNumber ep) fileEpisodeMap)
    | _, _ => videoPath
    end in
  match videoPath with
  | Some v => Some v
  | None =>
    match List.find (fun kv => Qeq_bool (snd (fst kv)) (ep_episodeNumber ep)) fileEpisodeMap with
    | Some kv => orNull (Some (snd kv))
    | None => None
    end
  end.

Definition withThumbnail (ep : EpisodeMetadata) (thumbnailLocal : option jsstring)
    : EpisodeMetadata :=
  mkEpisode (ep_episodeNumber ep) (ep_seasonNumber ep) (ep_title ep) (ep_description ep)
            (ep_airDate ep) (ep_thumbnail ep) thumbnailLocal.

Definition episodeWithLocalThumb (fileEpisodeMap : list (EpisodeKey * jsstring))
    (ep : EpisodeMetadata) : EpisodeMetadata :=
  let cached :=
    if truthy (ep_thumbnail ep) then orNull (cacheImage (default [] (ep_thumbnail ep)))
    else None in
  withThumbnail ep
    match cached with
    | Some t => Some t
    | None =>
      match videoPathFor fileEpisodeMap ep with
      | Some videoPath => generateThumbnail videoPath
      | None => None
      end
    end.

(** [n.toFixed(1)] and [String(n)] for the episode numbers of files, which
    are whole numbers or tenths. *)
Definition floorQ (q : Q) : N := Z.to_N (Qfloor q).
Definition toFixed1 (q : Q) : jsstring :=
  toStringN (floorQ q) ++ str "." ++ toStringN (floorQ (q * 10) mod 10).
Definition numToString (q : Q) : jsstring :=
  if isInteger q then toStringN (floorQ q) else toFixed1 q.

(** The entries added for the fractional episodes of the files that the
    provider does not list. *)
Definition decimalEpisodes (processed : list EpisodeMetadata) (fs : list VideoFile)
    : list EpisodeMetadata :=
  List.map
    (fun fileEp =>
       mkEpisode (episodeNumber fileEp) (seasonNumber fileEp)
                 (str "Episode " ++ toFixed1 (episodeNumber fileEp))
                 None None None (generateThumbnail (filePath fileEp)))
    (List.filter
       (fun fileEp =>
          negb (isInteger (episodeNumber fileEp))
          && negb (existsb (fun ep => Qeq_bool (ep_episodeNumber ep) (episodeNumber fileEp))
                           processed))
       fs).

(** The record built from the metadata of a provider. *)
Definition fetchedRecord (media : ScannedMedia) (fetched : SeriesMetadata) (source : jsstring)
    : SeriesRecord :=
  let posterLocal :=
    if truthy (sm_poster fetched) then orNull (cacheImage (default [] (sm_poster fetched)))
    else None in
  let bannerLocal :=
    if truthy (sm_banner fetched) then orNull (cacheImage (default [] (sm_banner fetched)))
    else None in
  let fileEpisodeMap := fileEpisodeMapOf (files media) in
  let withThumbs := List.map (episodeWithLocalThumb fileEpisodeMap) (sm_episodes fetched) in
  let episodesWithLocalThumbs := withThumbs ++ decimalEpisodes withThumbs (files media) in
  mkSeriesRecord
    (Some (id media))
    (Some (withSeason reSeasonInParens (sm_title fetched) (mSeasonNumber media)))
    (Some (sm_description fetched)) (sm_genres fetched)
    (sm_poster fetched) posterLocal
    (sm_banner fetched) bannerLocal
    episodesWithLocalThumbs
    (Some (List.map fileEpisodeOf (files media)))
    (Some (folderPath media))
    (Some (type media))
    (Some source) (sm_totalEpisodes fetched) (Some (sm_status fetched))
    (Some (sm_providerId fetched)).

(** The record built from the files alone. *)
Definition localRecord (media : ScannedMedia) : SeriesRecord :=
  let localEpisodes :=
    List.map
      (fun f =>
         mkEpisode (episodeNumber f) (seasonNumber f)
                   (orElse (Some (vtitle f)) (str "Episode " ++ numToString (episodeNumber f)))
                   None None None (generateThumbnail (filePath f)))
      (files media) in
  mkSeriesRecord
    (Some (id media))
    (Some (withSeason reSeasonBare (name media) (mSeasonNumber media)))
    (Some []) []
    None None None None
    localEpisodes
    (Some (List.map fileEpisodeOf (files media)))
    (Some (folderPath media))
    (Some (type media))
    (Some (str "local")) None None None.

(** The record of a unit whose metadata is fetched anew. *)
Definition refetchedRecord (media : ScannedMedia) : SeriesRecord :=
  match fetchMetadata media with
  | Some (fetched, source) => fetchedRecord media fetched source
  | None => localRecord media
  end.

(** One turn of the loop over the scanned units, on [newMetadata]; the
    identifier of the unit is taken not to be a property name of
    [Object.prototype]. *)
Definition processMedia (existingMetadata : gmap jsstring SeriesRecord)
    (newMetadata : gmap jsstring SeriesRecord) (media : ScannedMedia)
    : gmap jsstring SeriesRecord :=
  if (length (files media) =? 0)%nat then newMetadata
  else
    let mediaId := id media in
    let newMetadata :=
      match existingMetadata !! mediaId with
      | Some ex => <[mediaId := ex]> newMetadata
      | None => newMetadata
      end in
    match checkCache (existingMetadata !! mediaId) media with
    | UseCached r => <[mediaId := r]> newMetadata
    | Invalidate => <[mediaId := refetchedRecord media]> (delete mediaId newMetadata)
    | Fetch => <[mediaId := refetchedRecord media]> newMetadata
    end.

(** [Object.entries] of the new records written over the existing ones. *)
Definition mergeMetadata (existingMetadata newMetadata : gmap jsstring SeriesRecord)
    : gmap jsstring SeriesRecord :=
  newMetadata ∪ existingMetadata.

Definition hasFileEpisodes (r : SeriesRecord) : bool :=
  (0 <? length (default [] (r_fileEpisodes r)))%nat.

(** The clean-up loop, which the handler runs before saving and
    [saveMetadata] runs again before writing. *)
Definition cleanMetadata (metadata : gmap jsstring SeriesRecord) : gmap jsstring SeriesRecord :=
  filter (fun kv => hasFileEpisodes (snd kv) = true) metadata.

(** [metadataHandler.saveMetadata]: the content written to the store. *)
Definition saveMetadata (metadata : gmap jsstring SeriesRecord) : gmap jsstring SeriesRecord :=
  cleanMetadata metadata.

(** [folderHandler.scanFolder] *)
Variable folderPathRequired : E.

Definition scanFolder {S} (folderPath : jsstring) : M E S (list ScannedMedia) :=
  match folderPath with
  | [] => throw folderPathRequired
  | _ :: _ => scanDirectory folderPath
  end.

(** The metadata after the loop, merged with the existing one. *)
Definition reconcile (scannedMedia : list ScannedMedia)
    (existingMetadata : gmap jsstring SeriesRecord) : gmap jsstring SeriesRecord :=
  mergeMetadata existingMetadata (foldl (processMedia existingMetadata) ∅ scannedMedia).

(** The handler: the thrown value when the scan fails, else the content of
    the store it saves. *)
Definition scanAndFetchMetadata (folderPath : jsstring)
    (existingMetadata : gmap jsstring SeriesRecord) : E + gmap jsstring SeriesRecord :=
  match result (scanFolder folderPath tt) with
  | inl error => inl error
  | inr scannedMedia =>
    inr (saveMetadata (cleanMetadata (reconcile scannedMedia existingMetadata)))
  end.

(** *** getEpisodes (anilistHandler.ts) *)

(** An entry of [streamingEpisodes]; its fields [url] and [site] are not
    read. *)
Record StreamingEpisode : Type := mkStreamingEpisode {
  se_title : option jsstring;
  se_thumbnail : option jsstring
}.

(** The pattern of [ep.title?.match]: an optional, non-capturing [Episode]
    followed by any white space, then the captured digits [(\d+)]; flag [i]. *)
Definition reStreamingNumber : regex :=
  (Opt (wordi "Episode" ⋅ Star isSpace) ⋅ Grp (Plus isDigit))%re.

(** [parseInt(match[1], 10)] for the match of the title, if there is one. *)
Definition streamingNumber (ep : StreamingEpisode) : option N :=
  match se_title ep with
  | Some title =>
    match exec reStreamingNumber title with
    | Some res => Some (parseInt (group 1 res))
    | None => None
    end
  | None => None
  end.

(** [streamingMap], a [Map<number, StreamingEpisode>]: its entries in the
    order of their insertion. *)
Definition streamingHas (epNum : N) (streamingMap : list (N * StreamingEpisode)) : bool :=
  existsb (fun kv => fst kv =? epNum) streamingMap.

Definition streamingGet (epNum : N) (streamingMap : list (N * StreamingEpisode))
    : option StreamingEpisode :=
  match List.find (fun kv => fst kv =? epNum) streamingMap with
  | Some kv => Some (snd kv)
  | None => None
  end.

(** The body of the loop over [streamingEpisodes]. *)
Definition addByTitle (streamingMap : list (N * StreamingEpisode)) (ep : StreamingEpisode)
    : list (N * StreamingEpisode) :=
  match streamingNumber ep with
  | Some epNum =>
    if streamingHas epNum streamingMap then streamingMap else streamingMap ++ [(epNum, ep)]
  | None => streamingMap
  end.

(** The map after the loop, and after the assignment by index when the loop
    has left it empty. *)
Definition streamingMapOf (streamingEpisodes : list StreamingEpisode)
    : list (N * StreamingEpisode) :=
  let byTitle := foldl addByTitle [] streamingEpisodes in
  if (length byTitle =? 0)%nat then
    imap (fun index ep => (N.of_nat index + 1, ep)) streamingEpisodes
  else byTitle.

(** The entry pushed for the number [i]. *)
Definition numberedEpisode (seasonNumber : option N) (i : N)
    (streamingEp : option StreamingEpisode) : EpisodeMetadata :=
  mkEpisode (numOfN i) seasonNumber
            (orElse match streamingEp with Some ep => se_title ep | None => None end
                    (str "Episode " ++ toStringN i))
            None None
            (orNull match streamingEp with Some ep => se_thumbnail ep | None => None end)
            None.

(** The numbers [1 .. episodeCount]. *)
Definition episodesUpTo (episodeCount : N) : list N :=
  List.map N.of_nat (seq 1 (N.to_nat episodeCount)).

(** [anilistHandler.getEpisodes], from what the request of the streaming
    episodes answers: it throws, or it returns the list of the streaming
    episodes or null. *)
Definition anilistGetEpisodes (response : E + option (list StreamingEpisode))
    (totalEpisodes seasonNumber : option N) : E + list EpisodeMetadata :=
  match response with
  | inr streamingEpisodes =>
    let streamingMap :=
      match streamingEpisodes with
      | Some eps => streamingMapOf eps
      | None => []
      end in
    let episodeCount :=
      match totalEpisodes with
      | Some (Npos n) => Npos n
      | _ => N.of_nat (length streamingMap)
      end in
    inr (List.map (fun i => numberedEpisode seasonNumber i (streamingGet i streamingMap))
                  (episodesUpTo episodeCount))
  | inl error =>
    if isRateLimitError error then inl error
    else
      match totalEpisodes with
      | Some (Npos n) =>
        inr (List.map (fun i => numberedEpisode seasonNumber i None) (episodesUpTo (Npos n)))
      | _ => inr []
      end
  end.

(** * Notions used in the statements *)

(** The digit runs of a string, read off directly: the maximal blocks of
    consecutive digits, left to right. *)
Fixpoint digitRunsAcc (cur : jsstring) (s : jsstring) : list jsstring :=
  match s with
  | [] => match cur with [] => [] | _ :: _ => [rev cur] end
  | c :: t =>
    if isDigit c then digitRunsAcc (c :: cur) t
    else match cur with [] => [] | _ :: _ => [rev cur] end ++ digitRunsAcc [] t
  end.

Definition digitRuns (s : jsstring) : list jsstring := digitRunsAcc [] s.

(** The code unit before the position reached after reading [ds]. *)
Definition lastOr (prev : option N) (ds : jsstring) : option N :=
  match last ds with Some c => Some c | None => prev end.

Definition headIs (p : N -> bool) (s : jsstring) : bool :=
  match s with c :: _ => p c | [] => false end.

(** The marker [S<digits>E<digits>] between word boundaries, at the head of
    [s], with the code unit [prev] before it. *)
Definition seasonEpisodeMarker (prev : option N) (s d1 d2 : jsstring) : Prop :=
  exists c e rest,
    s = c :: d1 ++ e :: d2 ++ rest
    /\ liti "S" c = true /\ liti "E" e = true
    /\ d1 <> [] /\ forallb isDigit d1 = true
    /\ d2 <> [] /\ forallb isDigit d2 = true
    /\ isWordOpt prev = false /\ isWordOpt (head rest) = false.

(** A string that spells a literal word of a pattern. *)
Fixpoint matchesLit (ci : bool) (l : list ascii) (w : jsstring) : bool :=
  match l, w with
  | [], [] => true
  | a :: l', c :: w' => (if ci then liti a c else lit a c) && matchesLit ci l' w'
  | _, _ => false
  end.

(** The marker [Episode<spaces><digits>.<digits>] at the head of [s]; the
    second block of digits is the whole run. *)
Definition decimalEpisodeMarker (s d1 d2 : jsstring) (len : nat) : Prop :=
  exists w ws rest,
    s = w ++ ws ++ d1 ++ 46 :: d2 ++ rest
    /\ matchesLit true (list_ascii_of_string "Episode") w = true
    /\ forallb isSpace ws = true
    /\ d1 <> [] /\ forallb isDigit d1 = true
    /\ d2 <> [] /\ forallb isDigit d2 = true
    /\ headIs isDigit rest = false
    /\ len = (7 + length ws + length d1 + 1 + length d2)%nat.

(** The pattern of the specification, [S(\d+)E(\d+)] with the [i] flag and
    no word boundary, run on the file name as it is. *)
Definition reSeasonEpisodeSpec : regex :=
  (wordi "S" ⋅ Grp (Plus isDigit) ⋅ wordi "E" ⋅ Grp (Plus isDigit))%re.

(** A number that reads as a year. *)
Definition inYearRange (n : N) : bool := (1900 <=? n) && (n <=? 2099).

Definition noDot (s : jsstring) : bool := forallb (fun c => negb (c =? 46)) s.

(** The extension of a file name does not start with a digit: so it is for
    every video file, whose extension spells one of [VIDEO_EXTENSIONS]. *)
Definition extensionNotNumeric (f : jsstring) : Prop :=
  headIs isDigit (tail (extname f)) = false.

Definition appending {X A} (c : M E (list X) A) : Prop :=
  forall st,
    result (c st) = result (c []) /\ state (c st) = st ++ state (c [])
    /\ logged (c st) = logged (c []).

(** What one entry of the root adds to the results, and what it logs. *)
Definition entryMedia (rootPath entry : jsstring) : list ScannedMedia :=
  state (scanRootEntry rootPath entry []).

Definition entryLog (rootPath entry : jsstring) : list (event E) :=
  logged (scanRootEntry rootPath entry []).

(** The media of a root that scans, none for a root whose scan throws. *)
Definition mediaOfRoot (folderPath : jsstring) : list ScannedMedia :=
  match result (scanDirectory folderPath tt) with
  | inr results => results
  | inl _ => []
  end.

(** A candidate passes the first loop when it is released and, the folder
    count being known, reports at least that many episodes. *)
Definition validResult (folderEpisodeCount : option nat) (media : AniListMedia) : bool :=
  isReleased media
  && match folderEpisodeCount with
     | Some count =>
       match media_episodes media with
       | Some eps => N.of_nat count <=? eps
       | None => false
       end
     | None => true
     end.


(** ** Notions for the further properties *)

(** The states in which a match of [r] that starts in [st] can end. *)
Fixpoint matches (r : regex) (st st' : mstate) : Prop :=
  match r with
  | Eps => st' = st
  | Chr p =>
    exists c t,
      st_rest st = c :: t /\ p c = true
      /\ st' = MState (S (st_pos st)) (Some c) t (st_caps st)
  | Rep p lo hi =>
    exists ds rest,
      st_rest st = ds ++ rest /\ forallb p ds = true /\ (lo <= length ds)%nat
      /\ (forall h, hi = Some h -> (length ds <= h)%nat)
      /\ st' = MState (st_pos st + length ds) (lastOr (st_prev st) ds) rest (st_caps st)
  | RepLazy p =>
    exists ds rest,
      st_rest st = ds ++ rest /\ forallb p ds = true
      /\ st' = MState (st_pos st + length ds) (lastOr (st_prev st) ds) rest (st_caps st)
  | WordB => atBoundary st = true /\ st' = st
  | Eos => st_rest st = [] /\ st' = st
  | Seq a b => exists mid, matches a st mid /\ matches b mid st'
  | Alt a b => matches a st st' \/ matches b st st'
  | Grp a =>
    exists st1,
      matches a st st1
      /\ st' = MState (st_pos st1) (st_prev st1) (st_rest st1)
                      (st_caps st1 ++ [take (st_pos st1 - st_pos st)%nat (st_rest st)])
  | NotAhead a => m a st Some = None /\ st' = st
  end.

(** A match reads a block of the input: the state after it is the state
    before it moved over that block. *)
Definition advanced (st st' : mstate) (read : jsstring) : Prop :=
  st_rest st = read ++ st_rest st'
  /\ st_pos st' = (st_pos st + length read)%nat
  /\ st_prev st' = lastOr (st_prev st) read.

(** A pattern that cannot match without reading a code unit of the class
    [P]. *)
Fixpoint requires (P : N -> Prop) (r : regex) : Prop :=
  match r with
  | Chr p => forall c, p c = true -> P c
  | Rep p (S _) _ => forall c, p c = true -> P c
  | Seq a b => requires P a \/ requires P b
  | Alt a b => requires P a /\ requires P b
  | Grp a => requires P a
  | _ => False
  end.

(** Every code unit of the class replaced by [by_]. *)
Definition substClass (p : N -> bool) (by_ : jsstring) (s : jsstring) : jsstring :=
  flat_map (fun c => if p c then by_ else [c]) s.

(** Every maximal block of the class replaced by [by_]; [inRun] tells that
    the code unit before [s] belongs to a block. *)
Fixpoint collapseFrom (p : N -> bool) (by_ : jsstring) (inRun : bool) (s : jsstring)
    : jsstring :=
  match s with
  | [] => []
  | c :: t =>
    if p c then (if inRun then [] else by_) ++ collapseFrom p by_ true t
    else c :: collapseFrom p by_ false t
  end.

Definition collapse (p : N -> bool) (by_ : jsstring) (s : jsstring) : jsstring :=
  collapseFrom p by_ false s.

(** Words *)
Definition notSpace (c : N) : bool := negb (isSpace c).

(** A word: a block of code units that are not spaces. *)
Definition wordLike (w : jsstring) : Prop := w <> [] /\ forallb notSpace w = true.

(** Strings without a space at either end. *)
Definition trimmed (s : jsstring) : Prop :=
  headIs isSpace s = false /\ headIs isSpace (rev s) = false.

(** A string in normal form: its words, separated by single spaces. *)
Definition singleSpaced (s : jsstring) : Prop := joinWords (words s) = s.

Definition spaced (s : jsstring) : Prop := collapse isSpace [32] s = s.

(** A name in the form the cleaning functions leave it in: words separated
    by single spaces, without a dot or an underscore. *)
Definition tidyName (t : jsstring) : Prop :=
  singleSpaced t /\ (46 ∉ t) /\ (95 ∉ t).

Definition prefixOf (a b : jsstring) : Prop := exists rest, b = a ++ rest.

(** A code unit of an identifier: a lower-case letter, a digit or an
    underscore. *)
Definition isIdChar (c : N) : bool := isLower c || isDigit c || (c =? 95).

(** An entry of a folder that [scanFolderForVideos] takes for a video: it
    can be stat-ed, is a file, and has a video extension. *)
Definition isVideoEntry (folderPath entry : jsstring) : bool :=
  match stat (join folderPath entry) with
  | inr stats => isFile stats && isVideoFile entry
  | inl _ => false
  end.

(** An entry that it takes for a subtitle. *)
Definition isSubtitleEntry (folderPath entry : jsstring) : bool :=
  match stat (join folderPath entry) with
  | inr stats => isFile stats && negb (isVideoFile entry) && isSubtitleFile entry
  | inl _ => false
  end.

(** The season of a file: the one of its name, else the one given for the
    folder, else the one of the folder name. *)
Definition seasonOfFile (folderPath : jsstring) (folderSeason : option N) (entry : jsstring)
    : option N :=
  match season (extractSeasonAndEpisode entry) with
  | Some x => Some x
  | None =>
    match folderSeason with
    | Some x => Some x
    | None => extractSeasonNumber (pathBasename folderPath)
    end
  end.

(** The paths of the subtitle entries of a folder that have the base name
    of [entry], in the order of the entries. *)
Definition subtitlesFor (folderPath : jsstring) (entries : list jsstring) (entry : jsstring)
    : list jsstring :=
  List.map (join folderPath)
    (List.filter (fun e => isSubtitleEntry folderPath e
                           && bool_decide (getBaseName e = getBaseName entry)) entries).

(** The record that the scan of a folder builds for a video entry, before
    the subtitles are matched. *)
Definition videoOfEntry (folderPath : jsstring) (folderSeason : option N) (entry : jsstring)
    : VideoFile :=
  mkVideoFile entry (join folderPath entry) (getBaseName entry)
              (episode (extractSeasonAndEpisode entry))
              (seasonOfFile folderPath folderSeason entry)
              None [] (pathBasename folderPath).

(** The record that the scan returns for a video entry: the subtitles of the
    same base name are attached, the first one as the primary subtitle. *)
Definition scannedVideo (folderPath : jsstring) (folderSeason : option N)
    (entries : list jsstring) (entry : jsstring) : VideoFile :=
  mkVideoFile entry (join folderPath entry) (getBaseName entry)
              (episode (extractSeasonAndEpisode entry))
              (seasonOfFile folderPath folderSeason entry)
              (head (subtitlesFor folderPath entries entry))
              (subtitlesFor folderPath entries entry)
              (pathBasename folderPath).

(** The order of the files of a series: by season, a null season counting
    as 0, then by episode. *)
Definition fileOrder (a b : VideoFile) : Prop :=
  default 0 (seasonNumber a) < default 0 (seasonNumber b)
  \/ (default 0 (seasonNumber a) = default 0 (seasonNumber b)
      /\ (episodeNumber a <= episodeNumber b)%Q).

(** The unit that [scanDirectory] makes of a folder of videos: the name from
    the file names, the season and the part from the name of the folder, the
    files in order. *)
Definition seriesOfFolder (seriesPath folderName : jsstring) (vids : list VideoFile)
    : ScannedMedia :=
  let seriesName := extractSeriesNameFromFilenames (List.map filename vids) in
  let seasonFromFolder := extractSeasonNumber folderName in
  let partFromFolder := extractPartNumber folderName in
  mkScannedMedia (generateSeriesId seriesName folderName seasonFromFolder partFromFolder)
                 seriesName series seriesPath (sortVideos vids) seasonFromFolder partFromFolder.

(** The unit that [scanDirectory] makes of a video file of the root. *)
Definition movieOfRootFile (rootPath entry : jsstring) : ScannedMedia :=
  mkScannedMedia (movieIdOf (cleanMovieTitle entry)) (cleanMovieTitle entry) movie rootPath
    [mkVideoFile entry (join rootPath entry) (getBaseName entry)
                 (episode (extractSeasonAndEpisode entry)) None None [] (pathBasename rootPath)]
    None None.

(** The integers that the run-time reads and prints exactly, those up to
    [Number.MAX_SAFE_INTEGER]: on them [parseInt] and [toStringN] are what
    the run-time computes. Past them a number is rounded to a double, and
    from 10^21 on it is printed with an exponent, as in [1e+21]. *)
Definition isSafeInteger (n : N) : bool := n <=? 9007199254740991.

(** A season or part number that is null or a safe integer. *)
Definition safeOrNull (x : option N) : bool :=
  match x with
  | Some n => isSafeInteger n
  | None => true
  end.

(** The property names of [Object.prototype]. On a plain object that is used
    as a map, an assignment to the key [__proto__] sets the prototype and
    adds no entry, and a read of one of these keys answers although the
    object has no such entry; on every other key the object is the finite
    map of its entries. *)
Definition objectPrototypeKeys : list jsstring :=
  [str "__proto__"; str "constructor"; str "hasOwnProperty"; str "isPrototypeOf";
   str "propertyIsEnumerable"; str "toLocaleString"; str "toString"; str "valueOf";
   str "__defineGetter__"; str "__defineSetter__"; str "__lookupGetter__";
   str "__lookupSetter__"].

(** An entry of a folder that [scanDirectory] takes for a sub-directory. *)
Definition isDirEntry (folder entry : jsstring) : bool :=
  match stat (join folder entry) with
  | inr stats => isDirectory stats
  | inl _ => false
  end.

(** The videos that [scanFolderForVideos], which never throws, returns for a
    folder. *)
Definition folderVideos (folder : jsstring) (folderSeason : option N) : list VideoFile :=
  match result (scanFolderForVideos folder folderSeason tt) with
  | inr vids => vids
  | inl _ => []
  end.

(** The unit of a sub-directory of a category folder: none when it holds no
    video. *)
Definition subDirMedia (entryPath subDir : jsstring) : list ScannedMedia :=
  match folderVideos (join entryPath subDir) (extractSeasonNumber subDir) with
  | [] => []
  | vids => [seriesOfFolder (join entryPath subDir) subDir vids]
  end.

(** The units of an entry of the root, by the kind of the entry. *)
Definition unitsOfEntry (rootPath entry : jsstring) : list ScannedMedia :=
  let entryPath := join rootPath entry in
  match stat entryPath with
  | inl _ => []
  | inr stats =>
    if isDirectory stats then
      match readdir entryPath with
      | inl _ => []
      | inr subEntries =>
        match folderVideos entryPath None with
        | [] => concat (List.map (subDirMedia entryPath)
                          (List.filter (isDirEntry entryPath) subEntries))
        | subVideos => [seriesOfFolder entryPath entry subVideos]
        end
      end
    else if isFile stats && isVideoFile entry then [movieOfRootFile rootPath entry]
    else []
  end.

(** The record that one turn of the loop of the handler leaves for a unit
    that has files: the cached one with the files of the scan, or one built
    anew. *)
Definition recordOfUnit (existingMetadata : gmap jsstring SeriesRecord) (media : ScannedMedia)
    : SeriesRecord :=
  match checkCache (existingMetadata !! id media) media with
  | UseCached r => r
  | Invalidate | Fetch => refetchedRecord media
  end.

(** * Properties *)

(** ** The matcher on digit runs *)

Lemma rep_star_Some (p : N -> bool) (s : jsstring) (pos : nat) (prev : option N)
    (caps : list jsstring) :
  exists prev',
    rep p 0 None pos prev s caps Some
    = Some (MState (pos + length (takeWhile p s)) prev' (dropWhile p s) caps).
Proof.
  revert pos prev. induction s as [|c t IH]; intros pos prev; simpl.
  - exists prev. by rewrite Nat.add_0_r.
  - destruct (p c) eqn:Hc; simpl.
    + destruct (IH (S pos) (Some c)) as [prev' ->].
      exists prev'. do 2 f_equal. lia.
    + exists prev. by rewrite Nat.add_0_r.
Qed.

Lemma matchAt_reDigits (pos : nat) (prev : option N) (s : jsstring) :
  matchAt reDigits pos prev s =
  match s with
  | c :: _ => if isDigit c then Some (Match pos (length (takeWhile isDigit s)) []) else None
  | [] => None
  end.
Proof.
  unfold matchAt, reDigits, Plus. destruct s as [|c t]; simpl; [done|].
  destruct (isDigit c) eqn:Hc; simpl; [|done].
  destruct (rep_star_Some isDigit t (S pos) (Some c) []) as [prev' ->]. simpl.
  do 2 f_equal. lia.
Qed.

Lemma matchAllFrom_skip (r : regex) (n : nat) (s : jsstring) (pos : nat) (prev : option N) :
  (n <= length s)%nat ->
  exists pos' prev', matchAllFrom r n pos prev s = matchAllFrom r 0 pos' prev' (drop n s).
Proof.
  revert s pos prev. induction n as [|n IH]; intros s pos prev Hn.
  - exists pos, prev. by rewrite drop_0.
  - destruct s as [|c t]; simpl in Hn; [lia|].
    destruct (IH t (S pos) (Some c)) as (pos' & prev' & Heq); [lia|].
    exists pos', prev'. simpl. exact Heq.
Qed.

Lemma takeWhile_length_le (p : N -> bool) (s : jsstring) :
  (length (takeWhile p s) <= length s)%nat.
Proof. induction s as [|c t IH]; simpl; [lia|]. destruct (p c); simpl; lia. Qed.

Lemma drop_takeWhile (p : N -> bool) (s : jsstring) :
  drop (length (takeWhile p s)) s = dropWhile p s.
Proof. induction s as [|c t IH]; simpl; [done|]. destruct (p c); simpl; done. Qed.

Lemma take_takeWhile (p : N -> bool) (s : jsstring) :
  take (length (takeWhile p s)) s = takeWhile p s.
Proof. induction s as [|c t IH]; simpl; [done|]. destruct (p c); simpl; [by f_equal|done]. Qed.

Lemma dropWhile_length_le (p : N -> bool) (s : jsstring) :
  (length (dropWhile p s) <= length s)%nat.
Proof. induction s as [|c t IH]; simpl; [lia|]. destruct (p c); simpl; lia. Qed.

Lemma digitRunsAcc_cons (c : N) (cur s : jsstring) :
  digitRunsAcc (c :: cur) s
  = (rev (c :: cur) ++ takeWhile isDigit s) :: digitRuns (dropWhile isDigit s).
Proof.
  revert c cur. induction s as [|d t IH]; intros c cur; simpl.
  - by rewrite app_nil_r.
  - destruct (isDigit d) eqn:Hd.
    + rewrite IH. simpl. f_equal. rewrite <- !app_assoc. done.
    + rewrite app_nil_r. unfold digitRuns. cbn [digitRunsAcc]. rewrite Hd.
      destruct (rev cur ++ [c]) eqn:Hr; [|done].
      by apply app_eq_nil in Hr as [_ ?].
Qed.

Lemma matchAllFrom_reDigits (s : jsstring) (pos : nat) (prev : option N) :
  matchAllFrom reDigits 0 pos prev s = digitRuns s.
Proof.
  remember (length s) as n eqn:Hn. revert s Hn pos prev.
  induction n as [n IH] using lt_wf_ind. intros s Hn pos prev.
  destruct s as [|c t]; [done|].
  cbn [matchAllFrom]. rewrite matchAt_reDigits.
  unfold digitRuns. cbn [digitRunsAcc].
  destruct (isDigit c) eqn:Hc.
  - rewrite digitRunsAcc_cons. cbn [m_length].
    simpl takeWhile. rewrite Hc. cbn [length take Nat.pred rev app].
    rewrite take_takeWhile. f_equal.
    destruct (matchAllFrom_skip reDigits (length (takeWhile isDigit t)) t (S pos) (Some c))
      as (pos' & prev' & ->); [apply takeWhile_length_le|].
    rewrite drop_takeWhile.
    eapply (IH (length (dropWhile isDigit t))); [|done].
    subst n. simpl. pose proof (dropWhile_length_le isDigit t). lia.
  - simpl. eapply (IH (length t)); [subst n; simpl; lia|done].
Qed.

(** The global match of [/\d+/g] collects exactly the digit runs. *)
Lemma matchAll_reDigits (s : jsstring) : matchAll reDigits s = digitRuns s.
Proof. apply matchAllFrom_reDigits. Qed.

(** ** What a match of the matcher is *)

Lemma lastOr_cons (prev : option N) (c : N) (ds : jsstring) :
  lastOr (Some c) ds = lastOr prev (c :: ds).
Proof.
  unfold lastOr. destruct ds as [|d t]; [done|]. rewrite last_cons_cons.
  destruct (last (d :: t)) eqn:Hl; [done|]. by apply last_None in Hl.
Qed.

(** A successful repetition has read a block of the class, within its
    bounds, and the continuation succeeded after it. *)
Lemma rep_inv (p : N -> bool) (s : jsstring) :
  forall lo hi pos prev caps k r,
    rep p lo hi pos prev s caps k = Some r ->
    exists ds rest,
      s = ds ++ rest /\ forallb p ds = true /\ (lo <= length ds)%nat
      /\ (forall h, hi = Some h -> (length ds <= h)%nat)
      /\ k (MState (pos + length ds) (lastOr prev ds) rest caps) = Some r.
Proof.
  induction s as [|c t IH]; intros lo hi pos prev caps k r H.
  - exists [], []. simpl in H.
    assert (Hstop : match lo with O => k (MState pos prev [] caps) | S _ => None end = Some r)
      by (destruct hi as [[|h]|]; exact H).
    destruct lo; [|done]. rewrite Nat.add_0_r. repeat split; try done; simpl; intros; lia.
  - assert (Hcases :
      (exists r', p c = true /\ hi <> Some O /\
         rep p (pred lo) (option_map pred hi) (S pos) (Some c) t caps k = Some r' /\ r' = r)
      \/ (lo = O /\ k (MState pos prev (c :: t) caps) = Some r)).
    { simpl in H. destruct hi as [[|h]|].
      - right. destruct lo; [done|discriminate].
      - destruct (p c) eqn:Hc.
        + destruct (rep p (pred lo) (option_map pred (Some (S h))) (S pos) (Some c) t caps k)
            as [r'|] eqn:Hr.
          * left. exists r'. repeat split; try done. congruence.
          * right. destruct lo; [done|discriminate].
        + right. destruct lo; [done|discriminate].
      - destruct (p c) eqn:Hc.
        + destruct (rep p (pred lo) (option_map pred None) (S pos) (Some c) t caps k)
            as [r'|] eqn:Hr.
          * left. exists r'. repeat split; try done. congruence.
          * right. destruct lo; [done|discriminate].
        + right. destruct lo; [done|discriminate]. }
    destruct Hcases as [(r' & Hc & Hhi & Hr & ->)|[-> Hk]].
    + apply IH in Hr as (ds & rest & -> & Hds & Hlo & Hh & Hk).
      exists (c :: ds), rest. repeat split.
      * simpl. by rewrite Hc, Hds.
      * simpl. lia.
      * intros h ->. destruct h as [|h]; [done|]. simpl in Hh.
        specialize (Hh h eq_refl). simpl. lia.
      * rewrite <- lastOr_cons. simpl length.
        replace (pos + S (length ds))%nat with (S pos + length ds)%nat by lia. exact Hk.
    + exists [], (c :: t). rewrite Nat.add_0_r. repeat split; try done; simpl; intros; lia.
Qed.

(** An unbounded greedy repetition takes the whole block of the class when
    the continuation succeeds after it. *)
Lemma rep_greedy (p : N -> bool) (ds : jsstring) :
  forall lo pos prev rest caps k r,
    forallb p ds = true -> headIs p rest = false -> (lo <= length ds)%nat ->
    k (MState (pos + length ds) (lastOr prev ds) rest caps) = Some r ->
    rep p lo None pos prev (ds ++ rest) caps k = Some r.
Proof.
  induction ds as [|c t IH]; intros lo pos prev rest caps k r Hds Hrest Hlo Hk.
  - simpl in *. assert (lo = O) as -> by lia. rewrite Nat.add_0_r in Hk.
    destruct rest as [|d rest']; simpl; [done|].
    simpl in Hrest. by rewrite Hrest.
  - simpl in Hds. apply andb_true_iff in Hds as [Hc Ht].
    simpl. rewrite Hc.
    rewrite (IH (pred lo) (S pos) (Some c) rest caps k r); try done.
    + simpl in Hlo. lia.
    + rewrite lastOr_cons with (prev := prev). simpl in Hk.
      replace (S pos + length t)%nat with (pos + S (length t))%nat by lia. exact Hk.
Qed.

(** The leftmost match: [exec] returns the match at the first position that
    has one. *)
Lemma execFrom_inv (r : regex) (s : jsstring) :
  forall pos prev res,
    execFrom r pos prev s = Some res ->
    exists pre post,
      s = pre ++ post
      /\ matchAt r (pos + length pre) (lastOr prev pre) post = Some res
      /\ forall pre' post', s = pre' ++ post' -> (length pre' < length pre)%nat ->
           matchAt r (pos + length pre') (lastOr prev pre') post' = None.
Proof.
  induction s as [|c t IH]; intros pos prev res H.
  - simpl in H. destruct (matchAt r pos prev []) eqn:Hm; [|done].
    injection H as ->. exists [], []. split; [done|]. split.
    + simpl. rewrite Nat.add_0_r. exact Hm.
    + intros ? ? ? Hlt. simpl in Hlt. lia.
  - simpl in H. destruct (matchAt r pos prev (c :: t)) eqn:Hm.
    + injection H as ->. exists [], (c :: t). split; [done|]. split.
      * simpl. rewrite Nat.add_0_r. exact Hm.
      * intros ? ? ? Hlt. simpl in Hlt. lia.
    + apply IH in H as (pre & post & -> & Hat & Hnone).
      exists (c :: pre), post. repeat split.
      * rewrite <- lastOr_cons. simpl length.
        replace (pos + S (length pre))%nat with (S pos + length pre)%nat by lia. exact Hat.
      * intros pre' post' Heq Hlt. destruct pre' as [|c' pre'].
        -- simpl in Heq. subst post'. rewrite Nat.add_0_r. exact Hm.
        -- simpl in Heq. injection Heq as -> Heq.
           rewrite <- lastOr_cons. simpl length.
           replace (pos + S (length pre'))%nat with (S pos + length pre')%nat by lia.
           apply Hnone; [done|]. simpl in Hlt. lia.
Qed.

Lemma execFrom_complete (r : regex) (pre : jsstring) :
  forall post pos prev res,
    matchAt r (pos + length pre) (lastOr prev pre) post = Some res ->
    (forall pre' post', pre ++ post = pre' ++ post' -> (length pre' < length pre)%nat ->
       matchAt r (pos + length pre') (lastOr prev pre') post' = None) ->
    execFrom r pos prev (pre ++ post) = Some res.
Proof.
  induction pre as [|c t IH]; intros post pos prev res Hat Hnone.
  - change (lastOr prev []) with prev in Hat. simpl in Hat. rewrite Nat.add_0_r in Hat.
    destruct post as [|d post']; simpl; by rewrite Hat.
  - pose proof (Hnone [] (c :: t ++ post) eq_refl) as H0.
    change (lastOr prev []) with prev in H0. simpl in H0. rewrite Nat.add_0_r in H0.
    simpl. rewrite H0 by lia.
    apply IH.
    + rewrite lastOr_cons with (prev := prev). simpl in Hat.
      replace (S pos + length t)%nat with (pos + S (length t))%nat by lia. exact Hat.
    + intros pre' post' Heq Hlt.
      specialize (Hnone (c :: pre') post'). simpl in Hnone.
      rewrite lastOr_cons with (prev := prev).
      replace (S pos + length pre')%nat with (pos + S (length pre'))%nat by lia.
      apply Hnone; [by f_equal|lia].
Qed.

(** Boolean comparisons on code units as propositions. *)
Ltac bool_to_prop :=
  repeat match goal with
  | H : _ && _ = true |- _ => apply andb_true_iff in H as [? ?]
  | H : _ || _ = true |- _ => apply orb_true_iff in H
  | H : _ || _ = false |- _ => apply orb_false_iff in H as [? ?]
  | H : negb _ = true |- _ => apply negb_true_iff in H
  | H : negb _ = false |- _ => apply negb_false_iff in H
  | H : (_ <=? _) = true |- _ => apply N.leb_le in H
  | H : (_ <=? _) = false |- _ => apply N.leb_gt in H
  | H : (_ <? _) = true |- _ => apply N.ltb_lt in H
  | H : (_ <? _) = false |- _ => apply N.ltb_ge in H
  | H : (_ =? _) = true |- _ => apply N.eqb_eq in H
  | H : (_ =? _) = false |- _ => apply N.eqb_neq in H
  end.

(** Case analysis on every comparison of code units in sight. *)
Ltac N_cases :=
  repeat (match goal with
          | |- context [(?a <=? ?b)] => destruct (N.leb_spec a b)
          | |- context [(?a <? ?b)] => destruct (N.ltb_spec a b)
          | |- context [(?a =? ?b)] => destruct (N.eqb_spec a b)
          | H : context [(?a <=? ?b)] |- _ => destruct (N.leb_spec a b)
          | H : context [(?a <? ?b)] |- _ => destruct (N.ltb_spec a b)
          | H : context [(?a =? ?b)] |- _ => destruct (N.eqb_spec a b)
          end; simpl in *);
  try done; try lia.

Lemma liti_letter (a : ascii) (c : N) :
  isUpper (N_of_ascii a) = true ->
  liti a c = true <-> c = N_of_ascii a \/ c = N_of_ascii a + 32.
Proof.
  unfold liti, isAscii, asciiUpper, isLower, isUpper.
  generalize (N_of_ascii a) as x. intros x Ha. split.
  - intros Hm. N_cases.
  - intros [-> | ->]; N_cases.
Qed.

Lemma liti_letter_word (a : ascii) (c : N) :
  isUpper (N_of_ascii a) = true -> liti a c = true -> isWordChar c = true.
Proof.
  intros Ha Hm. apply liti_letter in Hm; [|done]. revert Ha Hm.
  unfold isWordChar, isAlnum, isDigit, isUpper, isLower.
  generalize (N_of_ascii a) as x. intros x Ha [-> | ->]; N_cases.
Qed.

Lemma liti_letter_not_digit (a : ascii) (c : N) :
  isUpper (N_of_ascii a) = true -> liti a c = true -> isDigit c = false.
Proof.
  intros Ha Hm. apply liti_letter in Hm; [|done]. revert Ha Hm.
  unfold isDigit, isUpper.
  generalize (N_of_ascii a) as x. intros x Ha [-> | ->]; N_cases.
Qed.

Lemma isDigit_word (c : N) : isDigit c = true -> isWordChar c = true.
Proof. intros H. unfold isWordChar, isAlnum. by rewrite H. Qed.

Lemma lastOr_digits_word (prev : option N) (ds : jsstring) :
  ds <> [] -> forallb isDigit ds = true -> isWordOpt (lastOr prev ds) = true.
Proof.
  intros Hne Hds. unfold lastOr.
  destruct (last ds) as [c|] eqn:Hl; [|by apply last_None in Hl].
  simpl. apply isDigit_word.
  apply last_Some in Hl as [l' ->].
  rewrite forallb_app in Hds. apply andb_true_iff in Hds as [_ Hc].
  simpl in Hc. by apply andb_true_iff in Hc as [? _].
Qed.

Lemma take_app_length' (a b : jsstring) (n : nat) :
  n = length a -> take n (a ++ b) = a.
Proof. intros ->. apply take_app_length. Qed.

Lemma matchAt_reSeasonEpisode_sound (pos : nat) (prev : option N) (s : jsstring)
    (res : MatchResult) :
  matchAt reSeasonEpisode pos prev s = Some res ->
  exists d1 d2,
    seasonEpisodeMarker prev s d1 d2
    /\ res = Match pos (2 + length d1 + length d2) [d1; d2].
Proof.
  unfold matchAt, reSeasonEpisode, wordi, Plus.
  cbn [m word_ list_ascii_of_string st_pos st_prev st_rest st_caps].
  unfold atBoundary. cbn [st_prev st_rest].
  destruct (xorb (isWordOpt prev) (isWordOpt (head s))) eqn:Hb; [|done].
  destruct s as [|c t]; [done|].
  destruct (liti "S" c) eqn:HS; [|done].
  destruct (rep isDigit 1 None (S pos) (Some c) t [] _) as [st|] eqn:Hrep; [|done].
  intros [= <-].
  apply rep_inv in Hrep as (d1 & rest1 & -> & Hd1 & Hlen1 & _ & Hk).
  cbn [st_pos st_prev st_rest st_caps] in Hk.
  destruct rest1 as [|e t0]; [done|].
  destruct (liti "E" e) eqn:HE; [|done].
  apply rep_inv in Hk as (d2 & rest2 & -> & Hd2 & Hlen2 & _ & Hk).
  cbn [st_pos st_prev st_rest st_caps] in Hk.
  destruct (xorb (isWordOpt (lastOr (Some e) d2)) (isWordOpt (head rest2))) eqn:Hb2; [|done].
  injection Hk as <-. cbn [st_pos st_caps].
  assert (Hne1 : d1 <> []) by (intros ->; simpl in Hlen1; lia).
  assert (Hne2 : d2 <> []) by (intros ->; simpl in Hlen2; lia).
  exists d1, d2. split.
  - exists c, e, rest2. repeat split; try done.
    + simpl in Hb. rewrite (liti_letter_word "S" c) in Hb by done.
      by destruct (isWordOpt prev).
    + rewrite lastOr_digits_word in Hb2 by done.
      by destruct (isWordOpt (head rest2)).
  - f_equal; [lia|]. simpl. f_equal; [|f_equal].
    + apply take_app_length'. lia.
    + apply take_app_length'. lia.
Qed.

Lemma matchAt_reSeasonEpisode_complete (pos : nat) (prev : option N) (s d1 d2 : jsstring) :
  seasonEpisodeMarker prev s d1 d2 ->
  matchAt reSeasonEpisode pos prev s = Some (Match pos (2 + length d1 + length d2) [d1; d2]).
Proof.
  intros (c & e & rest & -> & HS & HE & Hne1 & Hd1 & Hne2 & Hd2 & Hprev & Hrest).
  unfold matchAt, reSeasonEpisode, wordi, Plus.
  cbn [m word_ list_ascii_of_string st_pos st_prev st_rest st_caps].
  unfold atBoundary. cbn [st_prev st_rest head].
  rewrite Hprev. cbn [isWordOpt]. rewrite (liti_letter_word "S" c) by done.
  cbn [xorb]. rewrite HS.
  set (fin := MState (S (S pos + length d1) + length d2) (lastOr (Some e) d2) rest [d1; d2]).
  rewrite (rep_greedy isDigit d1 1 (S pos) (Some c) (e :: d2 ++ rest) [] _ fin).
  - subst fin. cbn [st_pos st_caps]. do 2 f_equal. lia.
  - exact Hd1.
  - simpl. by apply (liti_letter_not_digit "E").
  - destruct d1; [done|simpl; lia].
  - cbn [st_pos st_prev st_rest st_caps]. rewrite HE.
    apply rep_greedy.
    + exact Hd2.
    + destruct rest as [|x rest']; [done|]. simpl in *.
      unfold isWordChar, isAlnum in Hrest.
      by destruct (isDigit x).
    + destruct d2; [done|simpl; lia].
    + cbn [st_pos st_prev st_rest st_caps].
      rewrite lastOr_digits_word by done. rewrite Hrest. cbn [xorb].
      subst fin. do 2 f_equal. simpl. f_equal; [|f_equal]; apply take_app_length'; lia.
Qed.

Lemma matchesLit_length (ci : bool) (l : list ascii) (w : jsstring) :
  matchesLit ci l w = true -> length w = length l.
Proof.
  revert w. induction l as [|a l IH]; intros [|c w] H; simpl in *; try done.
  apply andb_true_iff in H as [_ H]. f_equal. by apply IH.
Qed.

(** A literal word is matched deterministically. *)
Lemma m_word (ci : bool) (l : list ascii) :
  forall pos prev s caps k,
    m (word_ ci l) (MState pos prev s caps) k =
    if matchesLit ci l (take (length l) s)
    then k (MState (pos + length l) (lastOr prev (take (length l) s)) (drop (length l) s) caps)
    else None.
Proof.
  induction l as [|a l IH]; intros pos prev s caps k.
  - simpl. rewrite Nat.add_0_r. by rewrite drop_0.
  - assert (Hstep : m (word_ ci (a :: l)) (MState pos prev s caps) k =
                    match s with
                    | c :: t =>
                      if (if ci then liti a c else lit a c)
                      then m (word_ ci l) (MState (S pos) (Some c) t caps) k
                      else None
                    | [] => None
                    end).
    { destruct ci, l as [|b l]; simpl; destruct s as [|c t]; try done. }
    rewrite Hstep. destruct s as [|c t]; [done|].
    simpl take. simpl matchesLit. simpl drop. simpl length.
    destruct (if ci then liti a c else lit a c); [|done].
    rewrite IH. simpl andb.
    destruct (matchesLit ci l (take (length l) t)); [|done].
    rewrite <- lastOr_cons. f_equal. f_equal. lia.
Qed.

(** An unbounded greedy repetition before a continuation that cannot fail
    reads the whole block of the class. *)
Lemma rep_total (p : N -> bool) (k : mstate -> option mstate) (s : jsstring) :
  (forall st, k st <> None) ->
  forall lo pos prev caps,
    rep p lo None pos prev s caps k =
    if (lo <=? length (takeWhile p s))%nat
    then k (MState (pos + length (takeWhile p s)) (lastOr prev (takeWhile p s))
                   (dropWhile p s) caps)
    else None.
Proof.
  intros Hk. induction s as [|c t IH]; intros lo pos prev caps.
  - simpl. rewrite Nat.add_0_r. by destruct lo.
  - simpl. destruct (p c) eqn:Hc.
    + rewrite IH. simpl length.
      destruct (pred lo <=? length (takeWhile p t))%nat eqn:Hlo.
      * apply Nat.leb_le in Hlo.
        replace (lo <=? S (length (takeWhile p t)))%nat with true
          by (symmetry; apply Nat.leb_le; lia).
        rewrite <- lastOr_cons.
        replace (pos + S (length (takeWhile p t)))%nat
          with (S pos + length (takeWhile p t))%nat by lia.
        destruct (k _) eqn:Hks; [done|]. by apply Hk in Hks.
      * apply Nat.leb_gt in Hlo.
        replace (lo <=? S (length (takeWhile p t)))%nat with false
          by (symmetry; apply Nat.leb_gt; lia).
        destruct lo; [lia|done].
    + simpl. rewrite Nat.add_0_r. by destruct lo.
Qed.

Lemma takeWhile_forallb (p : N -> bool) (s : jsstring) : forallb p (takeWhile p s) = true.
Proof. induction s as [|c t IH]; simpl; [done|]. destruct (p c) eqn:Hc; simpl; [by rewrite Hc|done]. Qed.

Lemma takeWhile_dropWhile (p : N -> bool) (s : jsstring) :
  s = takeWhile p s ++ dropWhile p s.
Proof. induction s as [|c t IH]; simpl; [done|]. destruct (p c); simpl; [by f_equal|done]. Qed.

Lemma dropWhile_head (p : N -> bool) (s : jsstring) : headIs p (dropWhile p s) = false.
Proof. induction s as [|c t IH]; simpl; [done|]. destruct (p c) eqn:Hc; simpl; [done|by rewrite Hc]. Qed.

Lemma takeWhile_app (p : N -> bool) (ds rest : jsstring) :
  forallb p ds = true -> headIs p rest = false ->
  takeWhile p (ds ++ rest) = ds /\ dropWhile p (ds ++ rest) = rest.
Proof.
  intros Hds Hrest. induction ds as [|c t IH]; simpl in *.
  - destruct rest as [|d r]; [done|]. simpl in Hrest. simpl. by rewrite Hrest.
  - apply andb_true_iff in Hds as [Hc Ht]. rewrite Hc.
    destruct (IH Ht) as [-> ->]. done.
Qed.

Lemma matchAt_reDecimalEpisode_sound (pos : nat) (prev : option N) (s : jsstring)
    (res : MatchResult) :
  matchAt reDecimalEpisode pos prev s = Some res ->
  exists d1 d2 len,
    decimalEpisodeMarker s d1 d2 len /\ res = Match pos len [d1; d2].
Proof.
  unfold matchAt, reDecimalEpisode, Star, Plus. cbn [m].
  unfold wordi at 1. rewrite m_word.
  set (l := list_ascii_of_string "Episode").
  destruct (matchesLit true l (take (length l) s)) eqn:Hw; [|done].
  cbn [st_pos st_prev st_rest st_caps].
  destruct (rep isSpace 0 None _ _ _ _ _) as [st|] eqn:Hrep; [|done].
  intros [= <-].
  apply rep_inv in Hrep as (ws & rest1 & Hs1 & Hws & _ & _ & Hk).
  cbn [st_pos st_prev st_rest st_caps] in Hk.
  apply rep_inv in Hk as (d1 & rest2 & -> & Hd1 & Hlen1 & _ & Hk).
  cbn [st_pos st_prev st_rest st_caps word word_ list_ascii_of_string m] in Hk.
  destruct rest2 as [|dot t0]; [done|].
  destruct (lit "." dot) eqn:Hdot; [|done].
  rewrite rep_total in Hk by done.
  destruct (1 <=? length (takeWhile isDigit t0))%nat eqn:Hlen2; [|done].
  injection Hk as <-. cbn [st_pos st_caps].
  apply Nat.leb_le in Hlen2.
  pose proof (matchesLit_length _ _ _ Hw) as Hwl.
  assert (Hl : length l = 7%nat) by done.
  exists d1, (takeWhile isDigit t0), (7 + length ws + length d1 + 1 + length (takeWhile isDigit t0))%nat.
  split.
  - exists (take (length l) s), ws, (dropWhile isDigit t0).
    repeat split; try done.
    + rewrite <- (take_drop (length l) s) at 1. f_equal. rewrite Hs1. f_equal. f_equal.
      unfold lit in Hdot. apply N.eqb_eq in Hdot. subst dot.
      f_equal. apply takeWhile_dropWhile.
    + intros ->. simpl in Hlen1. lia.
    + intros Hnil. rewrite Hnil in Hlen2. simpl in Hlen2. lia.
    + apply takeWhile_forallb.
    + apply dropWhile_head.
  - f_equal; [lia|]. simpl. f_equal; [|f_equal].
    + apply take_app_length'. lia.
    + etransitivity; [|apply take_takeWhile]. f_equal. lia.
Qed.

Lemma matchAt_reDecimalEpisode_complete (pos : nat) (prev : option N) (s d1 d2 : jsstring)
    (len : nat) :
  decimalEpisodeMarker s d1 d2 len ->
  matchAt reDecimalEpisode pos prev s = Some (Match pos len [d1; d2]).
Proof.
  intros (w & ws & rest & -> & Hw & Hws & Hne1 & Hd1 & Hne2 & Hd2 & Hrest & ->).
  unfold matchAt, reDecimalEpisode, Star, Plus. cbn [m].
  unfold wordi at 1. rewrite m_word.
  pose proof (matchesLit_length _ _ _ Hw) as Hwl.
  set (l := list_ascii_of_string "Episode") in *.
  assert (Hl : length l = 7%nat) by done.
  rewrite <- Hwl, take_app_length, drop_app_length, Hw.
  cbn [st_pos st_prev st_rest st_caps].
  set (fin := MState (S (pos + length w + length ws + length d1) + length d2)
                     (lastOr (Some 46) d2) rest [d1; d2]).
  assert (Hd1h : headIs isSpace (d1 ++ 46 :: d2 ++ rest) = false).
  { destruct d1 as [|x d1']; [done|]. simpl in *.
    apply andb_true_iff in Hd1 as [Hx _]. revert Hx. unfold isDigit, isSpace. N_cases. }
  rewrite (rep_greedy isSpace ws 0 _ _ (d1 ++ 46 :: d2 ++ rest) [] _ fin).
  - subst fin. cbn [st_pos st_caps]. do 2 f_equal. lia.
  - exact Hws.
  - exact Hd1h.
  - lia.
  - cbn [st_pos st_prev st_rest st_caps].
    apply rep_greedy; try done.
    + destruct d1; [done|simpl; lia].
    + cbn [st_pos st_prev st_rest st_caps word word_ list_ascii_of_string m].
      replace (lit "." 46) with true by done.
      rewrite rep_total by done.
      destruct (takeWhile_app isDigit d2 rest Hd2 Hrest) as [-> ->].
      assert (Hlen2 : (1 <= length d2)%nat).
      { clear -Hne2. destruct d2 as [|x d2']; [done|]. simpl. lia. }
      apply Nat.leb_le in Hlen2. rewrite Hlen2.
      subst fin. cbn [st_pos st_prev st_rest st_caps]. do 2 f_equal.
      simpl. f_equal; [|f_equal]; apply take_app_length'; lia.
Qed.

(** ** The base name and the extension of a file name *)

Lemma lastIndexOfFrom_None (c : N) (s : jsstring) (i : nat) :
  lastIndexOfFrom c i s = None -> forallb (fun x => negb (x =? c)) s = true.
Proof.
  revert i. induction s as [|d t IH]; intros i H; [done|]. simpl in *.
  destruct (lastIndexOfFrom c (S i) t) eqn:Ht; [done|].
  destruct (d =? c); [done|]. simpl. by apply (IH (S i)).
Qed.

Lemma lastIndexOfFrom_Some (c : N) (s : jsstring) (i j : nat) :
  lastIndexOfFrom c i s = Some j ->
  exists a b, s = a ++ c :: b /\ j = (i + length a)%nat
              /\ forallb (fun x => negb (x =? c)) b = true.
Proof.
  revert i. induction s as [|d t IH]; intros i H; [done|]. simpl in H.
  destruct (lastIndexOfFrom c (S i) t) as [j'|] eqn:Ht.
  - injection H as <-. apply IH in Ht as (a & b & -> & -> & Hb).
    exists (d :: a), b. repeat split; try done. simpl. lia.
  - destruct (d =? c) eqn:Hd; [|done]. injection H as <-.
    apply N.eqb_eq in Hd as ->. exists [], t. repeat split; [simpl; lia|].
    by apply (lastIndexOfFrom_None _ _ (S i)).
Qed.

(** A name with an extension is its base name followed by the extension,
    which starts at the last dot of the name. *)
Lemma extname_split (f : jsstring) :
  extname f <> [] ->
  exists e', f = getBaseName f ++ 46 :: e' /\ extname f = 46 :: e' /\ noDot e' = true.
Proof.
  unfold getBaseName, extname.
  destruct (lastIndexOfFrom 46 0 f) as [i|] eqn:Hi; [|done].
  apply lastIndexOfFrom_Some in Hi as (a & b & -> & -> & Hb). simpl.
  destruct ((length a =? 0)%nat || jsstring_eqb (a ++ 46 :: b) [46; 46]) eqn:Hc; [done|].
  intros _. apply orb_false_iff in Hc as [Ha _]. apply Nat.eqb_neq in Ha.
  rewrite drop_app_length. exists b. split; [|done].
  unfold basename, jsstring_eqb.
  rewrite bool_decide_eq_false_2.
  2:{ intros Heq. apply (f_equal length) in Heq. rewrite length_app in Heq. lia. }
  unfold endsWith, jsstring_eqb.
  rewrite length_app. set (ext := 46 :: b).
  replace (length a + length ext - length ext)%nat with (length a) by lia.
  rewrite drop_app_length, take_app_length.
  rewrite bool_decide_eq_true_2 by done.
  replace (length ext <=? length a + length ext)%nat with true
    by (symmetry; apply Nat.leb_le; lia).
  done.
Qed.

Lemma getBaseName_no_ext (f : jsstring) : extname f = [] -> getBaseName f = f.
Proof. unfold getBaseName. by intros ->. Qed.

Lemma lastIndexOfFrom_last_dot (c : N) (a b : jsstring) (i : nat) :
  forallb (fun x => negb (x =? c)) b = true ->
  lastIndexOfFrom c i (a ++ c :: b) = Some (i + length a)%nat.
Proof.
  intros Hb. revert i. induction a as [|d a IH]; intros i.
  - simpl. destruct (lastIndexOfFrom c (S i) b) as [j|] eqn:Hj.
    + apply lastIndexOfFrom_Some in Hj as (x & y & -> & _ & _).
      rewrite forallb_app in Hb. simpl in Hb. rewrite N.eqb_refl in Hb. simpl in Hb.
      by rewrite andb_false_r in Hb.
    + rewrite N.eqb_refl. f_equal. lia.
  - simpl. rewrite IH. f_equal. lia.
Qed.

(** The extension of a name is what follows its last dot, and the base name
    what precedes it. *)
Lemma extname_getBaseName_of (base e : jsstring) :
  base <> [] -> noDot e = true -> base ++ 46 :: e <> [46; 46] ->
  extname (base ++ 46 :: e) = 46 :: e /\ getBaseName (base ++ 46 :: e) = base.
Proof.
  intros Hne He Hdd.
  assert (Hx : extname (base ++ 46 :: e) = 46 :: e).
  { unfold extname. rewrite lastIndexOfFrom_last_dot by exact He. simpl.
    destruct base as [|b0 base']; [done|]. cbn [length Nat.eqb orb].
    unfold jsstring_eqb. rewrite bool_decide_eq_false_2 by done.
    change (S (length base')) with (length (b0 :: base')). by rewrite drop_app_length. }
  split; [done|].
  destruct (extname_split (base ++ 46 :: e)) as (e' & Hsplit & Hx' & He'); [by rewrite Hx|].
  rewrite Hx in Hx'. injection Hx' as <-.
  by apply app_inv_tail in Hsplit.
Qed.

(** A name is its base name followed by its extension. *)
Lemma getBaseName_extname (f : jsstring) : getBaseName f ++ extname f = f.
Proof.
  destruct (extname f) as [|c e] eqn:Hx.
  - rewrite getBaseName_no_ext by done. apply app_nil_r.
  - destruct (extname_split f) as (e' & Hsplit & Hx' & _); [by rewrite Hx|].
    rewrite Hx in Hx'. rewrite Hx'. by rewrite <- Hsplit.
Qed.

(** ** The tokenizer *)

Lemma lastOr_None (l : jsstring) : lastOr None l = last l.
Proof. unfold lastOr. by destruct (last l). Qed.

Lemma seasonEpisode_match_some (filename : jsstring) (res : MatchResult) :
  exec reSeasonEpisode (getBaseName filename) = Some res ->
  exists s e, extractSeasonAndEpisode filename = SE (Some s) e.
Proof. intros H. unfold extractSeasonAndEpisode. rewrite H. eauto. Qed.

(** C5, as amended. When the base name of a file (the name without its
    extension) has a match of [\bS(\d+)E(\d+)\b] under the [i] flag, the
    tokenizer returns the season and the episode that the leftmost match
    captures, whatever else the name holds: the match is an [S] or [s], a
    block of digits [d1], an [E] or [e] and a block of digits [d2], with no
    word character right before or right after; the season is the value of
    [d1] and the episode the value of [d2]. No other pattern is tried. *)
Theorem C5_season_episode_marker_wins (filename : jsstring) (res : MatchResult) :
  exec reSeasonEpisode (getBaseName filename) = Some res ->
  exists pre post d1 d2,
    getBaseName filename = pre ++ post
    /\ seasonEpisodeMarker (last pre) post d1 d2
    /\ (forall pre' post' e1 e2,
          getBaseName filename = pre' ++ post' -> (length pre' < length pre)%nat ->
          ~ seasonEpisodeMarker (last pre') post' e1 e2)
    /\ extractSeasonAndEpisode filename
       = SE (Some (parseInt d1)) (numOfN (parseInt d2)).
Proof.
  intros Hexec. unfold extractSeasonAndEpisode. rewrite Hexec.
  unfold exec in Hexec. apply execFrom_inv in Hexec as (pre & post & Hsplit & Hat & Hnone).
  rewrite lastOr_None in Hat.
  apply matchAt_reSeasonEpisode_sound in Hat as (d1 & d2 & Hmark & ->).
  exists pre, post, d1, d2. split; [done|]. split; [done|]. split; [|done].
  intros pre' post' e1 e2 Hsplit' Hlt Hmark'.
  specialize (Hnone pre' post' Hsplit' Hlt). rewrite lastOr_None in Hnone.
  by rewrite (matchAt_reSeasonEpisode_complete _ _ _ e1 e2 Hmark') in Hnone.
Qed.

(** A base name that holds the marker between word boundaries has a match,
    so the tokenizer reads its season from an [S<digits>E<digits>] marker. *)
Lemma seasonEpisodeMarker_found (filename pre post d1 d2 : jsstring) :
  getBaseName filename = pre ++ post ->
  seasonEpisodeMarker (last pre) post d1 d2 ->
  exists s e, extractSeasonAndEpisode filename = SE (Some s) e.
Proof.
  intros Hsplit Hmark.
  destruct (exec reSeasonEpisode (getBaseName filename)) as [res|] eqn:Hexec.
  - destruct (seasonEpisode_match_some filename res Hexec) as (s & e & ->).
    by exists s, e.
  - exfalso. unfold exec in Hexec. rewrite Hsplit in Hexec.
    clear Hsplit. revert Hexec Hmark. generalize 0%nat as pos.
    assert (Hgen : forall prev pos, execFrom reSeasonEpisode pos prev (pre ++ post) = None ->
                     seasonEpisodeMarker (lastOr prev pre) post d1 d2 -> False).
    { induction pre as [|c t IH]; intros prev pos Hexec Hmark.
      - change (lastOr prev []) with prev in Hmark. cbn [app] in Hexec.
        pose proof (matchAt_reSeasonEpisode_complete pos prev post d1 d2 Hmark) as Hc.
        destruct post; cbn [execFrom] in Hexec; by rewrite Hc in Hexec.
      - cbn [app execFrom] in Hexec.
        destruct (matchAt reSeasonEpisode pos prev (c :: t ++ post)); [done|].
        apply (IH (Some c) (S pos) Hexec). by rewrite lastOr_cons with (prev := prev). }
    intros pos Hexec Hmark. apply (Hgen None pos Hexec).
    by rewrite lastOr_None.
Qed.

Lemma filter_nonYear (l : list jsstring) :
  List.filter (fun n => let num := parseInt n in (num <? 1900) || (2099 <? num)) l
  = List.filter (fun r => negb (inYearRange (parseInt r))) l.
Proof.
  apply List.filter_ext. intros r. cbv zeta. unfold inYearRange.
  generalize (parseInt r) as num. intros num. N_cases.
Qed.

Lemma numOfN_inj (a b : N) : numOfN a = numOfN b -> a = b.
Proof. unfold numOfN, inject_Z. intros [= H]. lia. Qed.

(** C6. The tokenizer works on the base name, which is the file name
    without its extension: the base name followed by the extension is the
    file name, and for a name [base.ext] whose [ext] holds no dot the base
    name is [base]. When no earlier pattern matches the base name, the
    tokenizer takes the digit runs of the base name, drops those whose value
    lies in 1900..2099 and returns the last run that is left as the episode,
    with a null season; when none is left the episode is 1. So for a name
    [base.ext] the episode is computed from the runs of [base] alone, and no
    digit of the extension is read. The episode so chosen is never in
    1900..2099, and it is a run of the base name as soon as a run outside
    1900..2099 exists. *)
Theorem C6_digit_run_fallback (filename : jsstring) :
  exec reSeasonEpisode (getBaseName filename) = None ->
  exec reDecimalEpisode (getBaseName filename) = None ->
  firstPattern episodePatterns (getBaseName filename) = None ->
  let nonYear :=
    List.filter (fun r => negb (inYearRange (parseInt r))) (digitRuns (getBaseName filename)) in
  extractSeasonAndEpisode filename
  = SE None (numOfN match last nonYear with Some r => parseInt r | None => 1 end)
  /\ (forall n, episode (extractSeasonAndEpisode filename) = numOfN n -> inYearRange n = false)
  /\ (forall r, r ∈ digitRuns (getBaseName filename) -> inYearRange (parseInt r) = false ->
        exists r', last nonYear = Some r' /\ r' ∈ digitRuns (getBaseName filename)
                   /\ episode (extractSeasonAndEpisode filename) = numOfN (parseInt r'))
  /\ getBaseName filename ++ extname filename = filename
  /\ (forall base ext,
        filename = base ++ 46 :: ext -> base <> [] -> noDot ext = true ->
        filename <> [46; 46] ->
        getBaseName filename = base
        /\ extname filename = 46 :: ext
        /\ extractSeasonAndEpisode filename
           = SE None (numOfN
               match last (List.filter (fun r => negb (inYearRange (parseInt r)))
                             (digitRuns base)) with
               | Some r => parseInt r
               | None => 1
               end)).
Proof.
  intros H1 H2 H3 nonYear.
  assert (Heq : extractSeasonAndEpisode filename
                = SE None (numOfN match last nonYear with Some r => parseInt r | None => 1 end)).
  { unfold extractSeasonAndEpisode. rewrite H1, H2, H3. unfold fallbackEpisode.
    by rewrite matchAll_reDigits, filter_nonYear. }
  split; [exact Heq|]. split; [|split; [|split]].
  - rewrite Heq. cbn [episode].
    intros n Hn. apply numOfN_inj in Hn. subst n.
    destruct (last nonYear) as [r|] eqn:Hl; [|done].
    apply last_Some in Hl as [l' Hl].
    assert (Hin : In r nonYear) by (rewrite Hl; apply in_or_app; right; by left).
    apply filter_In in Hin as [_ Hr]. by apply negb_true_iff in Hr.
  - rewrite Heq. cbn [episode].
    intros r Hr Hny.
    assert (Hin : In r nonYear).
    { apply filter_In. split; [by apply list_elem_of_In|by rewrite Hny]. }
    destruct (last nonYear) as [r'|] eqn:Hl.
    + exists r'. split; [done|]. split; [|done].
      apply last_Some in Hl as [l' Hl].
      assert (Hin' : In r' nonYear) by (rewrite Hl; apply in_or_app; right; by left).
      apply filter_In in Hin' as [Hin' _]. by apply list_elem_of_In.
    + apply last_None in Hl. rewrite Hl in Hin. done.
  - apply getBaseName_extname.
  - intros base ext Hname Hne Hext Hdd.
    assert (Hdd' : base ++ 46 :: ext <> [46; 46]) by (by rewrite <- Hname).
    destruct (extname_getBaseName_of base ext Hne Hext Hdd') as [Hx Hb].
    rewrite <- Hname in Hx, Hb.
    split; [exact Hb|]. split; [exact Hx|].
    rewrite Heq. unfold nonYear. by rewrite Hb.
Qed.

(** The decimal marker on the base name: the leftmost match of
    [Episode\s*(\d+)\.(\d+)] gives the episode when no season-episode
    marker matches. *)
Lemma decimalEpisode_of_base_match (filename : jsstring) (dm : MatchResult) :
  exec reSeasonEpisode (getBaseName filename) = None ->
  exec reDecimalEpisode (getBaseName filename) = Some dm ->
  exists pre post d1 d2 len,
    getBaseName filename = pre ++ post
    /\ decimalEpisodeMarker post d1 d2 len
    /\ (forall pre' post' e1 e2 len',
          getBaseName filename = pre' ++ post' -> (length pre' < length pre)%nat ->
          ~ decimalEpisodeMarker post' e1 e2 len')
    /\ season (extractSeasonAndEpisode filename) = None
    /\ (episode (extractSeasonAndEpisode filename)
        == numOfN (parseInt d1) + numOfN (parseInt d2) / 10)%Q.
Proof.
  intros Hse Hexec. unfold extractSeasonAndEpisode. rewrite Hse, Hexec.
  unfold exec in Hexec. apply execFrom_inv in Hexec as (pre & post & Hsplit & Hat & Hnone).
  apply matchAt_reDecimalEpisode_sound in Hat as (d1 & d2 & len & Hmark & ->).
  exists pre, post, d1, d2, len. split; [done|]. split; [done|]. split; [|split].
  - intros pre' post' e1 e2 len' Hsplit' Hlt Hmark'.
    specialize (Hnone pre' post' Hsplit' Hlt).
    by rewrite (matchAt_reDecimalEpisode_complete _ _ _ e1 e2 len' Hmark') in Hnone.
  - done.
  - cbn [episode group m_groups nth pred]. apply Qred_correct.
Qed.

(** ** Names with an extension *)

Lemma split_at_last_dot (A T base e' : jsstring) :
  A ++ 46 :: T = base ++ 46 :: e' -> noDot e' = true ->
  (A = base /\ T = e') \/ (exists T', T = T' ++ 46 :: e' /\ base = A ++ 46 :: T').
Proof.
  revert base. induction A as [|a A IH]; intros base Heq He.
  - destruct base as [|x base]; simpl in Heq.
    + left. by injection Heq.
    + right. injection Heq as <- ->. by exists base.
  - destruct base as [|x base]; simpl in Heq.
    + injection Heq as -> Heq. exfalso. rewrite <- Heq in He.
      unfold noDot in He. rewrite forallb_app in He. simpl in He.
      by rewrite andb_false_r in He.
    + injection Heq as <- Heq. destruct (IH base Heq He) as [[-> ->]|(T' & -> & ->)].
      * by left.
      * right. by exists T'.
Qed.

Lemma digits_before_dot (d2 rest T' e' : jsstring) :
  d2 ++ rest = T' ++ 46 :: e' -> forallb isDigit d2 = true ->
  exists rest', T' = d2 ++ rest' /\ rest = rest' ++ 46 :: e'.
Proof.
  revert T'. induction d2 as [|d d2 IH]; intros T' Heq Hd.
  - by exists T'.
  - simpl in Hd. apply andb_true_iff in Hd as [Hd Hd2].
    destruct T' as [|t T']; simpl in Heq.
    + injection Heq as -> _. done.
    + injection Heq as <- Heq. destruct (IH T' Heq Hd2) as (rest' & -> & ->).
      by exists rest'.
Qed.

(** A decimal marker of the file name lies in the base name. *)
Lemma decimalEpisodeMarker_in_base (f pre post d1 d2 : jsstring) (len : nat) :
  extensionNotNumeric f ->
  f = pre ++ post -> decimalEpisodeMarker post d1 d2 len ->
  exists post', getBaseName f = pre ++ post' /\ decimalEpisodeMarker post' d1 d2 len.
Proof.
  intros Hext Hf Hmark.
  destruct (extname f) as [|dot e0] eqn:Hx.
  { exists post. by rewrite getBaseName_no_ext. }
  destruct (extname_split f) as (e' & Hsplit & Hx' & He'); [by rewrite Hx|].
  unfold extensionNotNumeric in Hext. rewrite Hx' in Hext. simpl in Hext.
  destruct Hmark as (w & ws & rest & -> & Hw & Hws & Hne1 & Hd1 & Hne2 & Hd2 & Hrest & ->).
  set (base := getBaseName f) in *.
  assert (Heq : (pre ++ w ++ ws ++ d1) ++ 46 :: (d2 ++ rest) = base ++ 46 :: e').
  { rewrite <- Hsplit, Hf. by rewrite <- !app_assoc. }
  destruct (split_at_last_dot _ _ _ _ Heq He') as [[_ Ht]|(T' & Ht & Hb)].
  - exfalso. destruct d2 as [|d d2]; [done|]. simpl in Ht. subst e'.
    simpl in Hext, Hd2. by rewrite Hext in Hd2.
  - destruct (digits_before_dot _ _ _ _ Ht Hd2) as (rest' & -> & ->).
    exists (w ++ ws ++ d1 ++ 46 :: d2 ++ rest'). split.
    + rewrite Hb. repeat (rewrite <- app_assoc || rewrite <- app_comm_cons). done.
    + exists w, ws, rest'. repeat split; try done.
      destruct rest' as [|r rest']; [done|]. done.
Qed.

(** A marker of the base name is a marker of the file name. *)
Lemma decimalEpisodeMarker_of_base (f pre post d1 d2 : jsstring) (len : nat) :
  getBaseName f = pre ++ post -> decimalEpisodeMarker post d1 d2 len ->
  exists post', f = pre ++ post' /\ decimalEpisodeMarker post' d1 d2 len.
Proof.
  intros Hb Hmark.
  destruct (extname f) as [|dot e0] eqn:Hx.
  { exists post. split; [|done]. rewrite <- Hb. symmetry. by apply getBaseName_no_ext. }
  destruct (extname_split f) as (e' & Hsplit & _ & _); [by rewrite Hx|].
  destruct Hmark as (w & ws & rest & -> & Hw & Hws & Hne1 & Hd1 & Hne2 & Hd2 & Hrest & ->).
  exists (w ++ ws ++ d1 ++ 46 :: d2 ++ rest ++ 46 :: e'). split.
  - rewrite Hsplit, Hb. repeat (rewrite <- app_assoc || rewrite <- app_comm_cons). done.
  - exists w, ws, (rest ++ 46 :: e'). repeat split; try done.
    by destruct rest.
Qed.

Lemma seasonEpisodeMarker_of_base (f pre post d1 d2 : jsstring) :
  getBaseName f = pre ++ post -> seasonEpisodeMarker (last pre) post d1 d2 ->
  exists post', f = pre ++ post' /\ seasonEpisodeMarker (last pre) post' d1 d2.
Proof.
  intros Hb Hmark.
  destruct (extname f) as [|dot e0] eqn:Hx.
  { exists post. split; [|done]. rewrite <- Hb. symmetry. by apply getBaseName_no_ext. }
  destruct (extname_split f) as (e' & Hsplit & _ & _); [by rewrite Hx|].
  destruct Hmark as (c & e & rest & -> & HS & HE & Hne1 & Hd1 & Hne2 & Hd2 & Hprev & Hrest).
  exists (c :: d1 ++ e :: d2 ++ rest ++ 46 :: e'). split.
  - rewrite Hsplit, Hb. repeat (rewrite <- app_assoc || rewrite <- app_comm_cons). done.
  - exists c, e, (rest ++ 46 :: e'). repeat split; try done.
    by destruct rest.
Qed.

(** A match somewhere in the string makes [exec] succeed. *)
Lemma execFrom_exists (r : regex) (pre : jsstring) :
  forall post pos prev res,
    matchAt r (pos + length pre) (lastOr prev pre) post = Some res ->
    execFrom r pos prev (pre ++ post) <> None.
Proof.
  induction pre as [|c t IH]; intros post pos prev res Hat.
  - change (lastOr prev []) with prev in Hat. simpl in Hat. rewrite Nat.add_0_r in Hat.
    destruct post; simpl; by rewrite Hat.
  - cbn [app execFrom]. destruct (matchAt r pos prev (c :: t ++ post)); [done|].
    apply (IH post (S pos) (Some c) res).
    rewrite lastOr_cons with (prev := prev). simpl in Hat.
    replace (S pos + length t)%nat with (pos + S (length t))%nat by lia. exact Hat.
Qed.


Lemma video_extension_not_numeric (ext : jsstring) :
  List.map asciiLower ext ∈ VIDEO_EXTENSIONS -> headIs isDigit (tail ext) = false.
Proof.
  intros H. destruct ext as [|c0 [|c1 r]]; [done|done|].
  cbn [tail headIs].
  assert (Hc : asciiLower c1 = 109 \/ asciiLower c1 = 97 \/ asciiLower c1 = 119
               \/ asciiLower c1 = 102).
  { unfold VIDEO_EXTENSIONS in H. cbn in H.
    repeat (apply elem_of_cons in H as [H|H]; [injection H; intros; tauto|]).
    by apply elem_of_nil in H. }
  revert Hc. unfold asciiLower, isUpper, isDigit. N_cases.
Qed.

(** The name of a video file with an ASCII extension has an extension that
    does not start with a digit. *)
Lemma isVideoFile_extensionNotNumeric (filename : jsstring) :
  isVideoFile filename = true -> forallb isAscii (extname filename) = true ->
  extensionNotNumeric filename.
Proof.
  unfold isVideoFile, toLowerCase, toLowerCaseWith. intros Hv Hascii.
  rewrite Hascii in Hv. apply bool_decide_eq_true in Hv.
  by apply video_extension_not_numeric.
Qed.

(** C7. For a file name whose extension does not start with a digit (as
    for the name of a video file, [isVideoFile_extensionNotNumeric]), that
    has no match of [\bS(\d+)E(\d+)\b] and has a
    match of [Episode\s*(\d+)\.(\d+)], both under the [i] flag: the leftmost
    match is the word Episode, spaces, a block of digits [d1], a dot and
    the whole run of digits [d2] after it, and the tokenizer returns a null
    season and the rational episode N + D/10, N the value of [d1] and D the
    value of [d2]. *)
Theorem C7_decimal_episode (filename : jsstring) (dm : MatchResult) :
  extensionNotNumeric filename ->
  exec reSeasonEpisode filename = None ->
  exec reDecimalEpisode filename = Some dm ->
  exists pre post d1 d2 len,
    filename = pre ++ post
    /\ decimalEpisodeMarker post d1 d2 len
    /\ m_groups dm = [d1; d2]
    /\ season (extractSeasonAndEpisode filename) = None
    /\ (episode (extractSeasonAndEpisode filename)
        == numOfN (parseInt d1) + numOfN (parseInt d2) / 10)%Q.
Proof.
  intros Hext Hse Hdec.
  unfold exec in Hdec. apply execFrom_inv in Hdec as (pre & post & Hsplit & Hat & Hnone).
  apply matchAt_reDecimalEpisode_sound in Hat as (d1 & d2 & len & Hmark & ->).
  exists pre, post, d1, d2, len. split; [done|]. split; [done|]. split; [done|].
  (* no season-episode marker in the base name *)
  assert (Hse' : exec reSeasonEpisode (getBaseName filename) = None).
  { destruct (exec reSeasonEpisode (getBaseName filename)) as [res|] eqn:Hb; [|done].
    exfalso. unfold exec in Hb.
    apply execFrom_inv in Hb as (pre0 & post0 & Hsplit0 & Hat0 & _).
    rewrite lastOr_None in Hat0.
    apply matchAt_reSeasonEpisode_sound in Hat0 as (e1 & e2 & Hmark0 & _).
    destruct (seasonEpisodeMarker_of_base _ _ _ _ _ Hsplit0 Hmark0) as (post0' & Hf & Hmark0').
    apply (execFrom_exists reSeasonEpisode pre0 post0' 0 None
             (Match (0 + length pre0) (2 + length e1 + length e2) [e1; e2])).
    - rewrite lastOr_None. by apply matchAt_reSeasonEpisode_complete.
    - rewrite <- Hf. exact Hse. }
  (* the same leftmost decimal marker in the base name *)
  destruct (decimalEpisodeMarker_in_base _ _ _ _ _ _ Hext Hsplit Hmark) as (post' & Hb & Hmark').
  assert (Hdec' : exec reDecimalEpisode (getBaseName filename)
                  = Some (Match (0 + length pre) len [d1; d2])).
  { unfold exec. rewrite Hb. apply execFrom_complete.
    - by apply matchAt_reDecimalEpisode_complete.
    - intros pre' post'' Heq Hlt.
      destruct (matchAt reDecimalEpisode (0 + length pre') (lastOr None pre') post'')
        as [res|] eqn:Hm; [|done].
      exfalso. apply matchAt_reDecimalEpisode_sound in Hm as (e1 & e2 & len' & Hmark'' & ->).
      rewrite <- Hb in Heq.
      destruct (decimalEpisodeMarker_of_base _ _ _ _ _ _ Heq Hmark'') as (post3 & Hf & Hmark3).
      specialize (Hnone pre' post3 Hf Hlt).
      by rewrite (matchAt_reDecimalEpisode_complete _ _ _ e1 e2 len' Hmark3) in Hnone. }
  unfold extractSeasonAndEpisode. rewrite Hse', Hdec'. split; [done|].
  cbn [episode group m_groups nth pred]. apply Qred_correct.
Qed.

(** ** The identifier generator *)

(** C8. For a series name of at least two code units the identifier does
    not depend on the folder name; and when a part number is present the
    identifier is the base identifier followed by [_part] and the part
    padded to two digits, whether or not a season number is present too. *)
Theorem C8_identifier_ignores_folder (seriesName folder1 folder2 : jsstring)
    (seasonNumber partNumber : option N) :
  (2 <= length seriesName)%nat ->
  generateSeriesId seriesName folder1 seasonNumber partNumber
  = generateSeriesId seriesName folder2 seasonNumber partNumber
  /\ (forall season part,
        generateSeriesId seriesName folder1 (Some season) (Some part)
        = generateSeriesId seriesName folder1 None None
          ++ str "_part" ++ padStart 2 48 (toStringN part)
        /\ generateSeriesId seriesName folder1 (Some season) (Some part)
           = generateSeriesId seriesName folder1 None (Some part)).
Proof.
  intros Hlen. apply Nat.leb_le in Hlen. unfold generateSeriesId. rewrite Hlen. done.
Qed.

(** The part number has priority over the season number for every series
    name, also one that falls back on the folder name. *)
Lemma generateSeriesId_part_priority (seriesName folderName : jsstring) (season part : N) :
  generateSeriesId seriesName folderName (Some season) (Some part)
  = generateSeriesId seriesName folderName None (Some part).
Proof. done. Qed.

(** ** Computations that only append to their state *)

Lemma appending_ret {X A} (a : A) : appending (X := X) (ret a).
Proof. intros st. by rewrite app_nil_r. Qed.

Lemma appending_throw {X A} (e : E) : appending (X := X) (A := A) (throw e).
Proof. intros st. by rewrite app_nil_r. Qed.

Lemma appending_lift {X A} (r : E + A) : appending (X := X) (lift r).
Proof. intros st. by rewrite app_nil_r. Qed.

Lemma appending_console {X} (ev : event E) : appending (X := X) (console ev).
Proof. intros st. by rewrite app_nil_r. Qed.

Lemma appending_call {X S' A} (init : S') (c : M E S' A) : appending (X := X) (call init c).
Proof. intros st. unfold call. simpl. by rewrite app_nil_r. Qed.

Lemma appending_push {X} (xs : list X) : appending (modify (fun st => st ++ xs)).
Proof. intros st. done. Qed.

Lemma appending_bind {X A B} (c : M E (list X) A) (f : A -> M E (list X) B) :
  appending c -> (forall a, appending (f a)) -> appending (bind c f).
Proof.
  intros Hc Hf st. unfold bind.
  destruct (Hc st) as (Hr & Hs & Hl). rewrite Hr, Hl.
  destruct (result (c [])) as [e|a]; simpl; [done|].
  rewrite Hs.
  destruct (Hf a (st ++ state (c []))) as (Hr1 & Hs1 & Hl1).
  destruct (Hf a (state (c []))) as (Hr2 & Hs2 & Hl2).
  rewrite Hr1, Hs1, Hl1, Hr2, Hs2, Hl2. by rewrite app_assoc.
Qed.

Lemma appending_tryCatch {X A} (c : M E (list X) A) (h : E -> M E (list X) A) :
  appending c -> (forall e, appending (h e)) -> appending (tryCatch c h).
Proof.
  intros Hc Hh st. unfold tryCatch.
  destruct (Hc st) as (Hr & Hs & Hl). rewrite Hr.
  destruct (result (c [])) as [e|a] eqn:Hres; simpl; [|by rewrite Hres].
  rewrite Hs, Hl.
  destruct (Hh e (st ++ state (c []))) as (Hr1 & Hs1 & Hl1).
  destruct (Hh e (state (c []))) as (Hr2 & Hs2 & Hl2).
  rewrite Hr1, Hs1, Hl1, Hr2, Hs2, Hl2. by rewrite app_assoc.
Qed.

Lemma appending_forEach {X Y} (xs : list Y) (body : Y -> M E (list X) unit) :
  (forall x, appending (body x)) -> appending (forEach xs body).
Proof.
  intros Hb. induction xs as [|x xs IH]; simpl.
  - apply appending_ret.
  - apply appending_bind; [apply Hb|]. intros _. exact IH.
Qed.

(** A loop whose body never throws and only appends adds up what each turn
    appends and writes, in order. *)
Lemma forEach_appending {X Y} (xs : list Y) (body : Y -> M E (list X) unit) :
  (forall x, appending (body x)) ->
  (forall x, result (body x []) = inr tt) ->
  forall st,
    forEach xs body st
    = mkOutcome (inr tt) (st ++ concat (List.map (fun x => state (body x [])) xs))
                (concat (List.map (fun x => logged (body x [])) xs)).
Proof.
  intros Hb Hr. induction xs as [|x xs IH]; intros st; simpl.
  - unfold ret. by rewrite app_nil_r.
  - unfold bind. destruct (Hb x st) as (Hr1 & Hs1 & Hl1).
    rewrite Hr1, Hr. simpl. rewrite IH. simpl. rewrite Hs1, Hl1. by rewrite app_assoc.
Qed.

(** The outcome of a sequence and of a [try], from the outcome of its first
    part. *)
Lemma bind_outcome {S A B} (c : M E S A) (f : A -> M E S B) (st st' : S) (a : A)
    (l : list (event E)) :
  c st = mkOutcome (inr a) st' l ->
  bind c f st = mkOutcome (result (f a st')) (state (f a st')) (l ++ logged (f a st')).
Proof. intros H. unfold bind. by rewrite H. Qed.

Lemma bind_outcome_throw {S A B} (c : M E S A) (f : A -> M E S B) (st st' : S) (e : E)
    (l : list (event E)) :
  c st = mkOutcome (inl e) st' l -> bind c f st = mkOutcome (inl e) st' l.
Proof. intros H. unfold bind. by rewrite H. Qed.

Lemma tryCatch_outcome {S A} (c : M E S A) (h : E -> M E S A) (st st' : S) (a : A)
    (l : list (event E)) :
  c st = mkOutcome (inr a) st' l -> tryCatch c h st = mkOutcome (inr a) st' l.
Proof. intros H. unfold tryCatch. by rewrite H. Qed.

Lemma tryCatch_outcome_throw {S A} (c : M E S A) (h : E -> M E S A) (st st' : S) (e : E)
    (l : list (event E)) :
  c st = mkOutcome (inl e) st' l ->
  tryCatch c h st = mkOutcome (result (h e st')) (state (h e st')) (l ++ logged (h e st')).
Proof. intros H. unfold tryCatch. by rewrite H. Qed.

(** A [try] whose handler never throws never throws. *)
Lemma tryCatch_total {S A} (c : M E S A) (h : E -> M E S A) (st : S) :
  (forall e st', exists a, result (h e st') = inr a) ->
  exists a, result (tryCatch c h st) = inr a.
Proof.
  intros Hh. unfold tryCatch. destruct (result (c st)) as [e|a] eqn:Hres; simpl.
  - apply Hh.
  - rewrite Hres. by exists a.
Qed.

(** A [try] whose handler only writes to the console never throws. *)
Lemma tryCatch_console_total {S} (c : M E S unit) (h : E -> event E) (st : S) :
  result (tryCatch c (fun e => console (h e)) st) = inr tt.
Proof.
  unfold tryCatch. destruct (result (c st)) as [e|[]] eqn:Hres; simpl; done.
Qed.

(** ** The directory classifier *)

Ltac appending_tac :=
  repeat first
    [ progress intros
    | apply appending_tryCatch
    | apply appending_bind
    | apply appending_lift
    | apply appending_call
    | apply appending_forEach
    | apply appending_push
    | apply appending_ret
    | apply appending_throw
    | apply appending_console
    | match goal with
      | |- appending (if ?b then _ else _) => destruct b
      end ].

Lemma forEach_total {S X} (xs : list X) (body : X -> M E S unit) :
  (forall x st, result (body x st) = inr tt) ->
  forall st, result (forEach xs body st) = inr tt.
Proof.
  intros Hb. induction xs as [|x xs IH]; intros st; simpl; [done|].
  unfold bind. rewrite Hb. simpl. apply IH.
Qed.

Lemma scanFolderEntry_total (folderPath folderName : jsstring) (seasonFromFolder : option N)
    (entry : jsstring) (st : FolderState) :
  result (scanFolderEntry folderPath folderName seasonFromFolder entry st) = inr tt.
Proof. apply (tryCatch_console_total _ (fun _ => CouldNotStat (join folderPath entry))). Qed.

(** A file of a folder that cannot be stat-ed is skipped with a warning. *)
Lemma scanFolderEntry_unreadable (folderPath folderName : jsstring)
    (seasonFromFolder : option N) (entry : jsstring) (e : E) (st : FolderState) :
  stat (join folderPath entry) = inl e ->
  scanFolderEntry folderPath folderName seasonFromFolder entry st
  = mkOutcome (inr tt) st [CouldNotStat (join folderPath entry)].
Proof.
  intros Hstat. unfold scanFolderEntry, tryCatch, bind, lift, console. simpl.
  rewrite Hstat. done.
Qed.

(** [scanFolderForVideos] never throws. *)
Lemma scanFolderForVideos_total {S} (folderPath : jsstring) (folderSeason : option N) (s : S) :
  exists vids, result (scanFolderForVideos folderPath folderSeason s) = inr vids.
Proof.
  unfold scanFolderForVideos, call, scanFolderForVideosBody. cbn [result].
  apply tryCatch_total. intros e st'. eexists. reflexivity.
Qed.

(** A folder that cannot be read yields no video, with the error logged. *)
Lemma scanFolderForVideos_unreadable {S} (folderPath : jsstring) (folderSeason : option N)
    (e : E) (s : S) :
  readdir folderPath = inl e ->
  scanFolderForVideos folderPath folderSeason s
  = mkOutcome (inr []) s [ErrorScanningFolder folderPath e].
Proof.
  intros Hread. unfold scanFolderForVideos, call, scanFolderForVideosBody.
  unfold tryCatch, bind, lift, console, ret. simpl. rewrite Hread. done.
Qed.

Lemma appending_scanCategorySeries (entryPath subDir : jsstring) :
  appending (scanCategorySeries entryPath subDir).
Proof. unfold scanCategorySeries, scanFolderForVideos, pushResult. appending_tac. Qed.

Lemma appending_scanRootEntry (rootPath entry : jsstring) :
  appending (scanRootEntry rootPath entry).
Proof.
  unfold scanRootEntry, scanFolderForVideos, collectSubDirs, pushResult.
  appending_tac; apply appending_scanCategorySeries.
Qed.

(** The body of the loop over the root never throws. *)
Lemma scanRootEntry_total (rootPath entry : jsstring) (st : list ScannedMedia) :
  result (scanRootEntry rootPath entry st) = inr tt.
Proof. apply (tryCatch_console_total _ (fun err => CouldNotProcess (join rootPath entry) err)). Qed.

Lemma scanDirectory_unreadable_root {S} (rootPath : jsstring) (e : E) (s : S) :
  readdir rootPath = inl e ->
  scanDirectory rootPath s = mkOutcome (inl e) s [ErrorScanningRoot rootPath e].
Proof.
  intros Hread. unfold scanDirectory, call, scanDirectoryBody.
  unfold tryCatch, bind, lift, console, throw. simpl. rewrite Hread. done.
Qed.

Lemma scanDirectory_readable_root {S} (rootPath : jsstring) (entries : list jsstring) (s : S) :
  readdir rootPath = inr entries ->
  scanDirectory rootPath s
  = mkOutcome (inr (concat (List.map (entryMedia rootPath) entries))) s
              (concat (List.map (entryLog rootPath) entries)).
Proof.
  intros Hread. unfold scanDirectory, call, scanDirectoryBody.
  erewrite bind_outcome; cycle 1.
  { apply tryCatch_outcome.
    erewrite bind_outcome; [|unfold lift; by rewrite Hread].
    rewrite (forEach_appending entries (scanRootEntry rootPath));
      [|apply appending_scanRootEntry|intros; apply scanRootEntry_total].
    reflexivity. }
  unfold getState. cbn [result state logged app]. by rewrite app_nil_r.
Qed.

(** The probe for sub-directories: a sub-entry that is a directory joins
    [subDirs]; any other, and one that cannot be stat-ed, is passed over.
    The probe writes nothing to the console. *)
Lemma collectSubDir_outcome (entryPath subEntry : jsstring) (subDirs : list jsstring) :
  collectSubDir entryPath subEntry subDirs
  = mkOutcome (inr tt)
              (if isDirEntry entryPath subEntry then subDirs ++ [subEntry] else subDirs) [].
Proof.
  unfold collectSubDir, isDirEntry, tryCatch, bind, lift, modify, ret. simpl.
  destruct (stat (join entryPath subEntry)) as [e|stats]; simpl; [done|].
  by destruct (isDirectory stats).
Qed.

Lemma forEach_collectSubDir (entryPath : jsstring) (subEntries subDirs : list jsstring) :
  forEach subEntries (collectSubDir entryPath) subDirs
  = mkOutcome (inr tt) (subDirs ++ List.filter (isDirEntry entryPath) subEntries) [].
Proof.
  revert subDirs. induction subEntries as [|x xs IH]; intros subDirs; cbn [forEach List.filter].
  - unfold ret. by rewrite app_nil_r.
  - unfold bind. rewrite collectSubDir_outcome. cbn [result state logged].
    rewrite IH. cbn [result state logged app].
    destruct (isDirEntry entryPath x); [|done].
    by rewrite <- app_assoc.
Qed.

Lemma collectSubDirs_outcome {S} (entryPath : jsstring) (subEntries : list jsstring) (s : S) :
  collectSubDirs entryPath subEntries s
  = mkOutcome (inr (List.filter (isDirEntry entryPath) subEntries)) s [].
Proof.
  unfold collectSubDirs, call, bind. rewrite forEach_collectSubDir. done.
Qed.

(** What a part of a computation logs, the computation logs. *)
Lemma logged_bind_l {S A B} (c : M E S A) (f : A -> M E S B) (st : S) (ev : event E) :
  ev ∈ logged (c st) -> ev ∈ logged (bind c f st).
Proof.
  intros H. unfold bind. destruct (result (c st)); cbn [logged]; [done|].
  apply elem_of_app. by left.
Qed.

Lemma logged_bind_r {S A B} (c : M E S A) (f : A -> M E S B) (st : S) (a : A)
    (ev : event E) :
  result (c st) = inr a -> ev ∈ logged (f a (state (c st))) -> ev ∈ logged (bind c f st).
Proof.
  intros Hr H. unfold bind. rewrite Hr. cbn [logged]. apply elem_of_app. by right.
Qed.

Lemma logged_tryCatch {S A} (c : M E S A) (h : E -> M E S A) (st : S) (ev : event E) :
  ev ∈ logged (c st) -> ev ∈ logged (tryCatch c h st).
Proof.
  intros H. unfold tryCatch. destruct (result (c st)); cbn [logged]; [|done].
  apply elem_of_app. by left.
Qed.

Lemma logged_forEach {S X} (xs : list X) (body : X -> M E S unit) (x : X) (ev : event E) :
  (forall y st, result (body y st) = inr tt) ->
  x ∈ xs -> (forall st, ev ∈ logged (body x st)) ->
  forall st, ev ∈ logged (forEach xs body st).
Proof.
  intros Htot Hin Hev. induction xs as [|y xs IH]; intros st.
  - by apply elem_of_nil in Hin.
  - cbn [forEach]. apply elem_of_cons in Hin as [<-|Hin].
    + by apply logged_bind_l.
    + apply (logged_bind_r _ _ _ tt); [apply Htot|]. by apply IH.
Qed.

(** The warning of [scanFolderForVideos] for an entry of a readable folder
    that cannot be stat-ed. *)
Lemma scanFolderForVideos_warns {S} (folderPath : jsstring) (folderSeason : option N)
    (entries : list jsstring) (entry : jsstring) (e : E) (s : S) :
  readdir folderPath = inr entries -> entry ∈ entries ->
  stat (join folderPath entry) = inl e ->
  CouldNotStat (join folderPath entry) ∈ logged (scanFolderForVideos folderPath folderSeason s).
Proof.
  intros Hread Hin Hstat. unfold scanFolderForVideos, call. cbn [logged].
  unfold scanFolderForVideosBody. apply logged_tryCatch.
  apply (logged_bind_r _ _ _ entries); [unfold lift; by rewrite Hread|].
  apply logged_bind_l. apply (logged_forEach _ _ entry).
  - intros y st. apply scanFolderEntry_total.
  - done.
  - intros st. rewrite (scanFolderEntry_unreadable _ _ _ _ e) by done.
    cbn [logged]. by left.
Qed.

(** C9, as amended. A scan throws exactly when the root cannot be
    enumerated, and then with the value [readdir] threw. Otherwise it returns
    what the entries of the root yield, one after the other: an entry that
    cannot be stat-ed, or a directory entry that cannot be read, yields
    nothing and leaves a warning for its path, and the entries after it are
    scanned all the same. Inside a folder, [scanFolderForVideos] never
    throws: a file that cannot be stat-ed is skipped with a warning, and a
    folder that cannot be read yields no video, with the error written to
    the console; so a series folder of a category that cannot be read adds
    no unit. The probe that looks for the sub-directories of an entry never
    throws either, but it is silent: a sub-entry that it cannot stat is
    passed over, nothing is logged, and the sub-entries after it are probed
    all the same; it returns the sub-entries that are directories. The only
    warning for such a sub-entry is the one [scanFolderForVideos] wrote
    before the probe, if [stat] failed for the path then too. *)
Theorem C9_scan_failure_policy (rootPath : jsstring) :
  (forall e, result (scanDirectory rootPath tt) = inl e <-> readdir rootPath = inl e)
  /\ (forall entries, readdir rootPath = inr entries ->
        result (scanDirectory rootPath tt) = inr (concat (List.map (entryMedia rootPath) entries))
        /\ logged (scanDirectory rootPath tt) = concat (List.map (entryLog rootPath) entries))
  /\ (forall entry st, result (scanRootEntry rootPath entry st) = inr tt)
  /\ (forall entry e, stat (join rootPath entry) = inl e ->
        entryMedia rootPath entry = []
        /\ entryLog rootPath entry = [CouldNotProcess (join rootPath entry) e])
  /\ (forall entry stats e,
        stat (join rootPath entry) = inr stats -> isDirectory stats = true ->
        readdir (join rootPath entry) = inl e ->
        entryMedia rootPath entry = []
        /\ entryLog rootPath entry
           = [ErrorScanningFolder (join rootPath entry) e; CouldNotProcess (join rootPath entry) e])
  /\ (forall folderPath folderSeason,
        exists vids, result (scanFolderForVideos folderPath folderSeason tt) = inr vids)
  /\ (forall folderPath folderSeason e, readdir folderPath = inl e ->
        scanFolderForVideos folderPath folderSeason tt
        = mkOutcome (inr []) tt [ErrorScanningFolder folderPath e])
  /\ (forall folderPath folderName seasonFromFolder entry e st,
        stat (join folderPath entry) = inl e ->
        scanFolderEntry folderPath folderName seasonFromFolder entry st
        = mkOutcome (inr tt) st [CouldNotStat (join folderPath entry)])
  /\ (forall entryPath subDir e st,
        readdir (join entryPath subDir) = inl e ->
        scanCategorySeries entryPath subDir st
        = mkOutcome (inr tt) st [ErrorScanningFolder (join entryPath subDir) e])
  /\ (forall entryPath subEntry e subDirs,
        stat (join entryPath subEntry) = inl e ->
        collectSubDir entryPath subEntry subDirs = mkOutcome (inr tt) subDirs [])
  /\ (forall entryPath subEntries (results : list ScannedMedia),
        collectSubDirs entryPath subEntries results
        = mkOutcome (inr (List.filter (isDirEntry entryPath) subEntries)) results [])
  /\ (forall entry stats subEntries subEntry e,
        stat (join rootPath entry) = inr stats -> isDirectory stats = true ->
        readdir (join rootPath entry) = inr subEntries -> subEntry ∈ subEntries ->
        stat (join (join rootPath entry) subEntry) = inl e ->
        CouldNotStat (join (join rootPath entry) subEntry) ∈ entryLog rootPath entry).
Proof.
  split; [|split; [|split; [|split; [|split; [|split; [|split; [|split;
    [|split; [|split; [|split]]]]]]]]]].
  - intros e. destruct (readdir rootPath) as [e'|entries] eqn:Hread.
    + rewrite (scanDirectory_unreadable_root _ e') by done. simpl. split; congruence.
    + rewrite (scanDirectory_readable_root _ entries) by done. simpl. split; congruence.
  - intros entries Hread. by rewrite (scanDirectory_readable_root _ entries).
  - apply scanRootEntry_total.
  - intros entry e Hstat. unfold entryMedia, entryLog, scanRootEntry.
    unfold tryCatch, bind, lift, console. simpl. rewrite Hstat. done.
  - intros entry stats e Hstat Hdir Hread. unfold entryMedia, entryLog, scanRootEntry.
    erewrite tryCatch_outcome_throw; cycle 1.
    { erewrite bind_outcome; [|unfold lift; by rewrite Hstat]. rewrite Hdir.
      erewrite bind_outcome; [|by apply (scanFolderForVideos_unreadable _ _ e)].
      erewrite bind_outcome_throw; cycle 1.
      { unfold lift. by rewrite Hread. }
      reflexivity. }
    split; reflexivity.
  - intros. apply scanFolderForVideos_total.
  - intros folderPath folderSeason e Hread.
    exact (scanFolderForVideos_unreadable folderPath folderSeason e tt Hread).
  - intros folderPath folderName seasonFromFolder entry e st Hstat.
    exact (scanFolderEntry_unreadable folderPath folderName seasonFromFolder entry e st Hstat).
  - intros entryPath subDir e st Hread. unfold scanCategorySeries.
    erewrite bind_outcome; [|by apply (scanFolderForVideos_unreadable _ _ e)].
    reflexivity.
  - intros entryPath subEntry e subDirs Hstat. rewrite collectSubDir_outcome.
    unfold isDirEntry. by rewrite Hstat.
  - intros entryPath subEntries results. apply collectSubDirs_outcome.
  - intros entry stats subEntries subEntry e Hstat Hdir Hread Hin Hsub.
    unfold entryLog, scanRootEntry. apply logged_tryCatch.
    apply (logged_bind_r _ _ _ stats); [unfold lift; by rewrite Hstat|].
    rewrite Hdir. apply logged_bind_l.
    by apply (scanFolderForVideos_warns _ _ subEntries _ e).
Qed.

(** ** scanMultipleFolders *)

Lemma appending_scanOneOfMany (folderPath : jsstring) : appending (scanOneOfMany folderPath).
Proof. unfold scanOneOfMany, scanDirectory. appending_tac. Qed.

Lemma scanOneOfMany_total (folderPath : jsstring) (st : list ScannedMedia) :
  result (scanOneOfMany folderPath st) = inr tt.
Proof. apply (tryCatch_console_total _ (fun error => ErrorScanning folderPath error)). Qed.

Lemma scanOneOfMany_state (folderPath : jsstring) :
  state (scanOneOfMany folderPath []) = mediaOfRoot folderPath.
Proof.
  unfold scanOneOfMany, mediaOfRoot, tryCatch, bind, scanDirectory, call. cbn [result state].
  destruct (result (scanDirectoryBody folderPath [])) as [e|r]; cbn; done.
Qed.

Lemma scanOneOfMany_logged (folderPath : jsstring) (e : E) :
  result (scanDirectory folderPath tt) = inl e ->
  ErrorScanning folderPath e ∈ logged (scanOneOfMany folderPath []).
Proof.
  unfold scanOneOfMany, tryCatch, bind, scanDirectory, call. cbn [result state logged].
  intros ->. cbn. apply elem_of_app. right. by left.
Qed.

(** C10. [scanMultipleFolders] never throws: it returns, in the order of
    the roots, the media of every root whose scan succeeds; a root whose
    scan throws adds nothing, and its error is written to the console. *)
Theorem C10_scanMultipleFolders_never_throws (folderPaths : list jsstring) :
  result (scanMultipleFolders folderPaths tt)
  = inr (concat (List.map mediaOfRoot folderPaths))
  /\ (forall folderPath e,
        folderPath ∈ folderPaths -> result (scanDirectory folderPath tt) = inl e ->
        mediaOfRoot folderPath = []
        /\ ErrorScanning folderPath e ∈ logged (scanMultipleFolders folderPaths tt))
  /\ (forall folderPath results,
        result (scanDirectory folderPath tt) = inr results -> mediaOfRoot folderPath = results).
Proof.
  unfold scanMultipleFolders, call. cbn [result logged].
  unfold bind. rewrite (forEach_appending folderPaths scanOneOfMany);
    [|apply appending_scanOneOfMany|intros; apply scanOneOfMany_total].
  cbn [result state logged app]. unfold getState. cbn [result logged].
  split; [|split].
  - f_equal. f_equal. apply map_ext. intros p. apply scanOneOfMany_state.
  - intros folderPath e Hin He. split; [unfold mediaOfRoot; by rewrite He|].
    rewrite app_nil_r. apply list_elem_of_In, in_concat.
    exists (logged (scanOneOfMany folderPath [])). split.
    + apply in_map_iff. exists folderPath. split; [done|]. by apply list_elem_of_In.
    + apply list_elem_of_In. by apply scanOneOfMany_logged.
  - intros folderPath results Hr. unfold mediaOfRoot. by rewrite Hr.
Qed.

(** ** The provider search *)

Lemma firstValidResult_find (folderEpisodeCount : option nat) (results : list AniListMedia) :
  firstValidResult folderEpisodeCount results
  = List.find (validResult folderEpisodeCount) results.
Proof.
  induction results as [|media rest IH]; [done|]. simpl. unfold validResult at 1.
  destruct (isReleased media); simpl; [|done].
  destruct folderEpisodeCount as [count|]; [|done].
  destruct (media_episodes media) as [eps|]; [|done].
  rewrite N.leb_antisym. by destruct (eps <? N.of_nat count).
Qed.

Lemma firstUnknownCount_find (results : list AniListMedia) :
  firstUnknownCount results
  = List.find (fun media => bool_decide (media_episodes media = None)) results.
Proof.
  induction results as [|media rest IH]; [done|]. simpl.
  by destruct (media_episodes media).
Qed.

(** The candidate the search accepts: the first one that passes the first
    loop; failing that, with a known folder count, the first one whose
    episode count is null, whatever its release status. *)
Lemma acceptCandidate_spec (count : nat) (results : list AniListMedia) :
  acceptCandidate (Some count) results
  = match List.find (validResult (Some count)) results with
    | Some media => Some media
    | None => List.find (fun media => bool_decide (media_episodes media = None)) results
    end.
Proof. unfold acceptCandidate. by rewrite firstValidResult_find, firstUnknownCount_find. Qed.

(** ** The cache check *)



(** The record the loop leaves for a unit that has files. *)
Lemma processMedia_lookup (existingMetadata newMetadata : gmap jsstring SeriesRecord)
    (media : ScannedMedia) :
  files media <> [] ->
  processMedia existingMetadata newMetadata media !! id media
  = Some match checkCache (existingMetadata !! id media) media with
         | UseCached r => r
         | Invalidate | Fetch => refetchedRecord media
         end.
Proof.
  intros Hfiles. unfold processMedia.
  destruct (files media) as [|f fs] eqn:Hf; [done|]. cbn [length Nat.eqb].
  destruct (checkCache (existingMetadata !! id media) media); by rewrite lookup_insert_eq.
Qed.



(** C4, as amended. On a cache hit the record keeps the description, the
    genres, the poster and the banner with their local copies, the
    per-episode provider metadata, the source and the other provider fields
    of the existing record; the title is the existing one, with
    [ (Season n)] appended when the unit has a season number [n] and the
    title holds no [(Season <digits>)] yet; the file episodes, the folder
    path, the identifier and the type are those of the current scan. *)
Theorem C4_cache_hit_frame (existing : SeriesRecord) (media : ScannedMedia) (r : SeriesRecord) :
  checkCache (Some existing) media = UseCached r ->
  (r_description r = r_description existing
   /\ r_genres r = r_genres existing
   /\ r_poster r = r_poster existing /\ r_posterLocal r = r_posterLocal existing
   /\ r_banner r = r_banner existing /\ r_bannerLocal r = r_bannerLocal existing
   /\ r_episodes r = r_episodes existing
   /\ r_source r = r_source existing
   /\ r_totalEpisodes r = r_totalEpisodes existing
   /\ r_status r = r_status existing
   /\ r_providerId r = r_providerId existing)
  /\ (exists title,
        r_title existing = Some title
        /\ r_title r = Some (withSeason reSeasonInParens title (mSeasonNumber media))
        /\ (mSeasonNumber media = None -> r_title r = r_title existing)
        /\ (test reSeasonInParens title = true -> r_title r = r_title existing)
        /\ (forall n, mSeasonNumber media = Some n -> test reSeasonInParens title = false ->
              r_title r = Some (title ++ str " (Season " ++ toStringN n ++ str ")")))
  /\ r_fileEpisodes r = Some (List.map fileEpisodeOf (files media))
  /\ r_folderPath r = Some (folderPath media)
  /\ r_seriesId r = Some (id media)
  /\ r_type r = Some (type media).
Proof.
  unfold checkCache.
  destruct (truthy (r_title existing)) eqn:Ht; [|done].
  destruct (truthy (r_posterLocal existing)) eqn:Hp; [|done]. cbn [andb].
  match goal with |- context [titlesMatch ?a ?b] => destruct (titlesMatch a b) end;
    cbn [negb andb]; [|by destruct (3 <=? _)%nat].
  intros [= <-]. split; [done|]. split; [|done].
  destruct (r_title existing) as [title|] eqn:Htitle; [|done].
  exists title. unfold cacheHitRecord. rewrite Htitle. cbn [r_title default]. cbv [Datatypes.id].
  split; [done|]. split; [done|]. unfold withSeason. split; [|split].
  - by intros ->.
  - intros Htest. destruct (mSeasonNumber media); [by rewrite Htest|done].
  - intros n -> Htest. by rewrite Htest.
Qed.

(** ** The saved store *)

Lemma cleanMetadata_lookup (metadata : gmap jsstring SeriesRecord) (seriesId : jsstring)
    (record : SeriesRecord) :
  cleanMetadata metadata !! seriesId = Some record
  <-> metadata !! seriesId = Some record /\ hasFileEpisodes record = true.
Proof. unfold cleanMetadata. by rewrite map_lookup_filter_Some. Qed.

Lemma hasFileEpisodes_spec (record : SeriesRecord) :
  hasFileEpisodes record = true
  <-> exists fileEpisodes,
        r_fileEpisodes record = Some fileEpisodes /\ (1 <= length fileEpisodes)%nat.
Proof.
  unfold hasFileEpisodes. rewrite Nat.ltb_lt.
  destruct (r_fileEpisodes record) as [l|]; simpl.
  - split; [intros H; by exists l|intros (l' & [= <-] & H); lia].
  - split; [lia|intros (l' & [=] & _)].
Qed.

(** C1. When the handler completes, every record of the store it saves
    has at least one file episode; a record of the merged metadata, new or
    pre-existing, is saved exactly when its list of file episodes is not
    empty. *)
Theorem C1_saved_records_have_files (folderPath : jsstring)
    (existingMetadata saved : gmap jsstring SeriesRecord) :
  scanAndFetchMetadata folderPath existingMetadata = inr saved ->
  (forall seriesId record, saved !! seriesId = Some record ->
     exists fileEpisodes,
       r_fileEpisodes record = Some fileEpisodes /\ (1 <= length fileEpisodes)%nat)
  /\ (exists scannedMedia,
        result (scanFolder folderPath tt) = inr scannedMedia
        /\ forall seriesId record,
             reconcile scannedMedia existingMetadata !! seriesId = Some record ->
             (length (default [] (r_fileEpisodes record)) = 0%nat -> saved !! seriesId = None)
             /\ ((1 <= length (default [] (r_fileEpisodes record)))%nat ->
                   saved !! seriesId = Some record)).
Proof.
  unfold scanAndFetchMetadata.
  destruct (result (scanFolder folderPath tt)) as [e|scannedMedia] eqn:Hscan; [done|].
  intros [= <-]. unfold saveMetadata. split.
  - intros seriesId record Hl. apply cleanMetadata_lookup in Hl as [_ Hl].
    by apply hasFileEpisodes_spec.
  - exists scannedMedia. split; [done|]. intros seriesId record Hrec. split.
    + intros Hlen.
      destruct (cleanMetadata (cleanMetadata (reconcile scannedMedia existingMetadata)) !! seriesId)
        as [record'|] eqn:Hl; [|done].
      apply cleanMetadata_lookup in Hl as [Hl Hhas].
      apply cleanMetadata_lookup in Hl as [Hl _].
      rewrite Hrec in Hl. injection Hl as <-.
      unfold hasFileEpisodes in Hhas. apply Nat.ltb_lt in Hhas. lia.
    + intros Hlen.
      assert (Hhas : hasFileEpisodes record = true) by (by apply Nat.ltb_lt).
      apply cleanMetadata_lookup. split; [|done]. by apply cleanMetadata_lookup.
Qed.

(** * Further properties of the code *)

Lemma repLazy_inv (p : N -> bool) (s : jsstring) :
  forall pos prev caps k r,
    repLazy p pos prev s caps k = Some r ->
    exists ds rest,
      s = ds ++ rest /\ forallb p ds = true
      /\ k (MState (pos + length ds) (lastOr prev ds) rest caps) = Some r.
Proof.
  induction s as [|c t IH]; intros pos prev caps k r H; simpl in H.
  - destruct (k (MState pos prev [] caps)) eqn:Hk; [|done].
    exists [], []. rewrite Nat.add_0_r. by injection H as <-.
  - destruct (k (MState pos prev (c :: t) caps)) eqn:Hk.
    + exists [], (c :: t). rewrite Nat.add_0_r. by injection H as <-.
    + destruct (p c) eqn:Hc; [|done].
      apply IH in H as (ds & rest & -> & Hds & Hk').
      exists (c :: ds), rest. repeat split.
      * simpl. by rewrite Hc, Hds.
      * rewrite <- lastOr_cons. simpl length.
        replace (pos + S (length ds))%nat with (S pos + length ds)%nat by lia. exact Hk'.
Qed.

(** Soundness of the matcher: a successful run has matched the pattern, and
    the continuation succeeded in the state after the match. *)
Lemma m_sound (r : regex) :
  forall st k res, m r st k = Some res -> exists st', matches r st st' /\ k st' = Some res.
Proof.
  induction r as [|p|p lo hi|p| | |a IHa b IHb|a IHa b IHb|a IHa|a IHa];
    intros st k res H; simpl in H.
  - by exists st.
  - destruct (st_rest st) as [|c t] eqn:Hr; [done|].
    destruct (p c) eqn:Hc; [|done].
    eexists. split; [|exact H]. simpl. by exists c, t.
  - apply rep_inv in H as (ds & rest & Hs & Hds & Hlo & Hhi & Hk).
    eexists. split; [|exact Hk]. simpl. by exists ds, rest.
  - apply repLazy_inv in H as (ds & rest & Hs & Hds & Hk).
    eexists. split; [|exact Hk]. simpl. by exists ds, rest.
  - destruct (atBoundary st) eqn:Hb; [|done]. by exists st.
  - destruct (st_rest st) eqn:Hr; [|done]. by exists st.
  - apply IHa in H as (mid & Ha & H). apply IHb in H as (st' & Hb & H).
    exists st'. split; [|done]. simpl. by exists mid.
  - destruct (m a st k) as [r'|] eqn:Hm.
    + injection H as ->. apply IHa in Hm as (st' & Ha & Hk). exists st'. split; [by left|done].
    + apply IHb in H as (st' & Hb & Hk). exists st'. split; [by right|done].
  - apply IHa in H as (st1 & Ha & Hk). eexists. split; [|exact Hk]. simpl. by exists st1.
  - destruct (m a st Some) eqn:Hm; [done|]. by exists st.
Qed.

Lemma lastOr_app (prev : option N) (a b : jsstring) :
  lastOr prev (a ++ b) = lastOr (lastOr prev a) b.
Proof.
  revert prev. induction a as [|c a IH]; intros prev; [done|].
  simpl. rewrite <- !(lastOr_cons prev). apply IH.
Qed.

Lemma matches_advanced (r : regex) :
  forall st st', matches r st st' -> exists read, advanced st st' read.
Proof.
  induction r as [|p|p lo hi|p| | |a IHa b IHb|a IHa b IHb|a IHa|a IHa];
    intros st st' H; simpl in H.
  - subst. exists []. split; [done|]. split; [simpl; lia|done].
  - destruct H as (c & t & Hr & Hc & ->). exists [c]. split; [done|]. split; [simpl; lia|done].
  - destruct H as (ds & rest & Hr & _ & _ & _ & ->). by exists ds.
  - destruct H as (ds & rest & Hr & _ & ->). by exists ds.
  - destruct H as [_ ->]. exists []. split; [done|]. split; [simpl; lia|done].
  - destruct H as [_ ->]. exists []. split; [done|]. split; [simpl; lia|done].
  - destruct H as (mid & Ha & Hb).
    apply IHa in Ha as (r1 & H1 & H2 & H3). apply IHb in Hb as (r2 & H4 & H5 & H6).
    exists (r1 ++ r2). split; [|split].
    + rewrite H1, H4. by rewrite app_assoc.
    + rewrite H5, H2, length_app. lia.
    + rewrite H6, H3. by rewrite lastOr_app.
  - destruct H as [H|H]; [by apply IHa|by apply IHb].
  - destruct H as (st1 & Ha & ->). apply IHa in Ha as (r1 & H1 & H2 & H3). by exists r1.
  - destruct H as [_ ->]. exists []. split; [done|]. split; [simpl; lia|done].
Qed.

Lemma requires_matches (P : N -> Prop) (r : regex) :
  requires P r ->
  forall st st', matches r st st' -> exists c, c ∈ st_rest st /\ P c.
Proof.
  induction r as [|p|p lo hi|p| | |a IHa b IHb|a IHa b IHb|a IHa|a IHa];
    intros Hreq st st' H; simpl in Hreq, H; try done.
  - destruct H as (c & t & Hr & Hc & _). exists c. rewrite Hr. split; [by left|auto].
  - destruct lo as [|lo]; [done|].
    destruct H as (ds & rest & Hr & Hds & Hlo & _).
    destruct ds as [|c ds]; [simpl in Hlo; lia|].
    simpl in Hds. apply andb_true_iff in Hds as [Hc _].
    exists c. rewrite Hr. split; [by left|auto].
  - destruct H as (mid & Ha & Hb). destruct Hreq as [Hreq|Hreq].
    + by apply (IHa Hreq st mid).
    + destruct (IHb Hreq mid st' Hb) as (c & Hin & Hc).
      apply matches_advanced in Ha as (read & Hr & _).
      exists c. split; [|done]. rewrite Hr. apply elem_of_app. by right.
  - destruct Hreq as [Ha Hb]. destruct H as [H|H]; [by apply (IHa Ha st st')|by apply (IHb Hb st st')].
  - destruct H as (st1 & Ha & _). by apply (IHa Hreq st st1).
Qed.

Lemma exec_requires (P : N -> Prop) (r : regex) (s : jsstring) (res : MatchResult) :
  requires P r -> exec r s = Some res -> exists c, c ∈ s /\ P c.
Proof.
  intros Hreq H. unfold exec in H.
  apply execFrom_inv in H as (pre & post & -> & Hat & _).
  unfold matchAt in Hat.
  destruct (m r _ Some) as [st|] eqn:Hm; [|done].
  apply m_sound in Hm as (st' & Hm & _).
  destruct (requires_matches P r Hreq _ _ Hm) as (c & Hin & Hc).
  exists c. split; [|done]. apply elem_of_app. by right.
Qed.

Lemma matchAt_Chr (p : N -> bool) (pos : nat) (prev : option N) (s : jsstring) :
  matchAt (Chr p) pos prev s =
  match s with
  | c :: _ => if p c then Some (Match pos 1 []) else None
  | [] => None
  end.
Proof.
  unfold matchAt. destruct s as [|c t]; simpl; [done|].
  destruct (p c); [|done]. simpl. do 2 f_equal. lia.
Qed.

Lemma replaceFrom_Chr (p : N -> bool) (by_ : jsstring) (s : jsstring) :
  forall pos prev, replaceFrom true (Chr p) by_ true 0 pos prev s = substClass p by_ s.
Proof.
  induction s as [|c t IH]; intros pos prev; [done|].
  cbn [replaceFrom]. rewrite matchAt_Chr. unfold substClass. cbn [flat_map].
  destruct (p c); cbn [m_length]; by rewrite IH.
Qed.

(** [s.replace(/[class]/g, by)] replaces every code unit of the class. *)
Lemma replaceAll_Chr (p : N -> bool) (by_ : jsstring) (s : jsstring) :
  replaceAll (Chr p) by_ s = substClass p by_ s.
Proof. apply replaceFrom_Chr. Qed.

Lemma replaceFrom_skip (g : bool) (r : regex) (by_ : jsstring) (act : bool) (n : nat)
    (s : jsstring) (pos : nat) (prev : option N) :
  (n <= length s)%nat ->
  exists pos' prev',
    replaceFrom g r by_ act n pos prev s = replaceFrom g r by_ act 0 pos' prev' (drop n s).
Proof.
  revert s pos prev. induction n as [|n IH]; intros s pos prev Hn.
  - exists pos, prev. by rewrite drop_0.
  - destruct s as [|c t]; simpl in Hn; [lia|].
    destruct (IH t (S pos) (Some c)) as (pos' & prev' & Heq); [lia|].
    exists pos', prev'. simpl. exact Heq.
Qed.

Lemma matchAt_Plus (p : N -> bool) (pos : nat) (prev : option N) (s : jsstring) :
  matchAt (Plus p) pos prev s =
  match s with
  | c :: _ => if p c then Some (Match pos (length (takeWhile p s)) []) else None
  | [] => None
  end.
Proof.
  unfold matchAt, Plus. destruct s as [|c t]; simpl; [done|].
  destruct (p c) eqn:Hc; simpl; [|done].
  destruct (rep_star_Some p t (S pos) (Some c) []) as [prev' ->]. simpl.
  do 2 f_equal. lia.
Qed.

Lemma collapseFrom_dropWhile (p : N -> bool) (by_ : jsstring) (s : jsstring) :
  collapseFrom p by_ true s = collapseFrom p by_ false (dropWhile p s).
Proof.
  induction s as [|c t IH]; [done|]. simpl. destruct (p c) eqn:Hc; simpl; [done|by rewrite Hc].
Qed.

Lemma replaceFrom_Plus (p : N -> bool) (by_ : jsstring) (s : jsstring) :
  forall pos prev, replaceFrom true (Plus p) by_ true 0 pos prev s = collapse p by_ s.
Proof.
  remember (length s) as n eqn:Hn. revert s Hn.
  induction n as [n IH] using lt_wf_ind. intros s Hn pos prev.
  destruct s as [|c t]; [done|].
  cbn [replaceFrom]. rewrite matchAt_Plus. unfold collapse. cbn [collapseFrom].
  destruct (p c) eqn:Hc.
  - cbn [m_length]. simpl takeWhile. rewrite Hc. cbn [length]. f_equal.
    destruct (replaceFrom_skip true (Plus p) by_ true (length (takeWhile p t)) t (S pos) (Some c))
      as (pos' & prev' & ->); [apply takeWhile_length_le|].
    rewrite drop_takeWhile, collapseFrom_dropWhile.
    eapply (IH (length (dropWhile p t))); [|done].
    subst n. simpl. pose proof (dropWhile_length_le p t). lia.
  - f_equal. eapply (IH (length t)); [subst n; simpl; lia|done].
Qed.

(** [s.replace(/[class]+/g, by)] replaces every maximal block of the
    class. *)
Lemma replaceAll_Plus (p : N -> bool) (by_ : jsstring) (s : jsstring) :
  replaceAll (Plus p) by_ s = collapse p by_ s.
Proof. apply replaceFrom_Plus. Qed.

Lemma wordsFrom_word (w : jsstring) :
  forall cur rest,
    forallb notSpace w = true -> headIs notSpace rest = false ->
    wordsFrom cur (w ++ rest) =
    match rev cur ++ w with
    | [] => words (dropWhile isSpace rest)
    | x => x :: words (dropWhile isSpace rest)
    end.
Proof.
  induction w as [|c w IH]; intros cur rest Hw Hrest.
  - rewrite app_nil_r. simpl. destruct rest as [|d rest'].
    + simpl. destruct cur as [|x cur']; [done|].
      simpl. destruct (rev cur' ++ [x]) eqn:Hr; [by apply app_eq_nil in Hr as [_ ?]|done].
    + simpl in Hrest. unfold notSpace in Hrest. apply negb_false_iff in Hrest.
      simpl. rewrite Hrest.
      assert (Hskip : forall r, wordsFrom [] r = words (dropWhile isSpace r)).
      { clear. induction r as [|a r IHr]; [done|]. simpl. destruct (isSpace a) eqn:Ha.
        - exact IHr.
        - unfold words. simpl. by rewrite Ha. }
      destruct cur as [|x cur'].
      * simpl. apply Hskip.
      * simpl. destruct (rev cur' ++ [x]) eqn:Hr; [by apply app_eq_nil in Hr as [_ ?]|].
        f_equal. apply Hskip.
  - simpl in Hw. apply andb_true_iff in Hw as [Hc Hw]. unfold notSpace in Hc.
    apply negb_true_iff in Hc. simpl. rewrite Hc.
    rewrite IH by done. simpl. by rewrite <- app_assoc.
Qed.

Lemma words_skip (s : jsstring) : words (dropWhile isSpace s) = words s.
Proof.
  induction s as [|a r IH]; [done|]. simpl. destruct (isSpace a) eqn:Ha; [|done].
  rewrite IH. unfold words. simpl. by rewrite Ha.
Qed.

Lemma words_word (w rest : jsstring) :
  w <> [] -> forallb notSpace w = true -> headIs notSpace rest = false ->
  words (w ++ rest) = w :: words rest.
Proof.
  intros Hne Hw Hrest. unfold words at 1. rewrite wordsFrom_word by done.
  simpl. destruct w; [done|]. by rewrite words_skip.
Qed.

(** A string is a block of spaces before a shorter string, or a word before
    a shorter string that is empty or starts with a space. *)
Lemma words_ind (P : jsstring -> Prop) :
  P [] ->
  (forall c t, isSpace c = true -> P (dropWhile isSpace t) -> P (c :: t)) ->
  (forall w rest, w <> [] -> forallb notSpace w = true -> headIs notSpace rest = false ->
     P rest -> P (w ++ rest)) ->
  forall s, P s.
Proof.
  intros Hnil Hsp Hw s.
  remember (length s) as n eqn:Hn. revert s Hn.
  induction n as [n IH] using lt_wf_ind. intros s Hn.
  destruct s as [|c t]; [done|].
  destruct (isSpace c) eqn:Hc.
  - apply Hsp; [done|]. eapply IH; [|done]. subst n. simpl.
    pose proof (dropWhile_length_le isSpace t). lia.
  - rewrite (takeWhile_dropWhile notSpace (c :: t)).
    assert (Hne : takeWhile notSpace (c :: t) <> []).
    { simpl. unfold notSpace at 1. by rewrite Hc. }
    apply Hw; [done|apply takeWhile_forallb|apply dropWhile_head|].
    eapply IH; [|done]. subst n.
    pose proof (f_equal length (takeWhile_dropWhile notSpace (c :: t))) as Hl.
    rewrite length_app in Hl.
    destruct (takeWhile notSpace (c :: t)); [done|]. simpl in *. lia.
Qed.

Lemma words_wordLike (s : jsstring) : Forall wordLike (words s).
Proof.
  induction s as [|c t Hc IH|w rest Hne Hw Hrest IH] using words_ind.
  - constructor.
  - unfold words in *. simpl. rewrite Hc. fold (words t). by rewrite <- words_skip.
  - rewrite words_word by done. constructor; [|done]. done.
Qed.

Lemma collapseFrom_word (p : N -> bool) (by_ : jsstring) (w rest : jsstring) (b : bool) :
  forallb (fun c => negb (p c)) w = true -> w <> [] ->
  collapseFrom p by_ b (w ++ rest) = w ++ collapseFrom p by_ false rest.
Proof.
  revert b. induction w as [|c w IH]; intros b Hw Hne; [done|].
  simpl in Hw. apply andb_true_iff in Hw as [Hc Hw]. apply negb_true_iff in Hc.
  simpl. rewrite Hc. f_equal. destruct w as [|d w]; [done|]. by apply IH.
Qed.

Lemma joinWords_cons (w : jsstring) (ws : list jsstring) :
  ws <> [] -> joinWords (w :: ws) = w ++ [32] ++ joinWords ws.
Proof. destruct ws; done. Qed.

(** The blocks of spaces of [s] collapsed: the words of [s] joined by single
    spaces, with a space before when [s] starts with one, and a space after
    when [s] ends with one. *)
Lemma collapse_words (s : jsstring) :
  exists trail,
    collapse isSpace [32] s
    = (if headIs isSpace s then [32] else []) ++ joinWords (words s) ++ trail
    /\ (trail = [] \/ (trail = [32] /\ words s <> [])).
Proof.
  induction s as [|c t Hc IH|w rest Hne Hw Hrest IH] using words_ind.
  - exists []. split; [done|by left].
  - destruct IH as (trail & Heq & Htrail). exists trail.
    unfold collapse in *. cbn [collapseFrom headIs]. rewrite Hc.
    rewrite collapseFrom_dropWhile, Heq.
    rewrite (dropWhile_head isSpace t). rewrite words_skip.
    assert (Hw : words (c :: t) = words t) by (unfold words; simpl; by rewrite Hc).
    rewrite Hw. split; [done|]. by rewrite words_skip in Htrail.
  - destruct IH as (trail & Heq & Htrail).
    unfold collapse in *. rewrite collapseFrom_word by done. rewrite Heq.
    rewrite words_word by done.
    assert (Hh : headIs isSpace (w ++ rest) = false).
    { destruct w as [|x w]; [done|]. simpl in *. apply andb_true_iff in Hw as [Hx _].
      unfold notSpace in Hx. by apply negb_true_iff in Hx. }
    rewrite Hh. cbn [app].
    destruct rest as [|d rest'].
    + exists []. split; [|by left].
      assert (trail = []) as ->.
      { simpl in Heq. destruct Htrail as [->|[_ ?]]; done. }
      change (words []) with (@nil jsstring). simpl. by rewrite !app_nil_r.
    + simpl in Hrest. unfold notSpace in Hrest. apply negb_false_iff in Hrest.
      cbn [headIs]. rewrite Hrest.
      destruct (words (d :: rest')) as [|w2 ws] eqn:Hws.
      * destruct Htrail as [->|[_ ?]]; [|done]. exists [32]. split; [done|right; done].
      * exists trail. split.
        -- rewrite (joinWords_cons w) by done. by rewrite <- !app_assoc.
        -- destruct Htrail as [->|[-> _]]; [by left|right; done].
Qed.

Lemma trimStart_spaces (a b : jsstring) :
  forallb isSpace a = true -> trimStart (a ++ b) = trimStart b.
Proof.
  induction a as [|c a IH]; intros Ha; [done|]. simpl in Ha.
  apply andb_true_iff in Ha as [Hc Ha]. simpl. rewrite Hc. by apply IH.
Qed.

Lemma trimStart_id (s : jsstring) : headIs isSpace s = false -> trimStart s = s.
Proof. destruct s as [|c t]; [done|]. simpl. by intros ->. Qed.

Lemma forallb_rev' (p : N -> bool) (s : jsstring) : forallb p (rev s) = forallb p s.
Proof.
  induction s as [|c t IH]; [done|]. simpl. rewrite forallb_app, IH. simpl.
  rewrite andb_true_r. apply andb_comm.
Qed.

Lemma trim_between (lead x trail : jsstring) :
  forallb isSpace lead = true -> forallb isSpace trail = true -> trimmed x ->
  trim (lead ++ x ++ trail) = x.
Proof.
  intros Hl Ht [Hx1 Hx2]. unfold trim. rewrite trimStart_spaces by done.
  destruct x as [|c x'].
  - simpl. rewrite <- (app_nil_r trail), trimStart_spaces by done. done.
  - rewrite (trimStart_id ((c :: x') ++ trail)) by exact Hx1.
    rewrite rev_app_distr, trimStart_spaces by (by rewrite forallb_rev').
    rewrite trimStart_id by exact Hx2. apply rev_involutive.
Qed.

Lemma headIs_app (p : N -> bool) (a b : jsstring) :
  a <> [] -> headIs p (a ++ b) = headIs p a.
Proof. by destruct a. Qed.

Lemma wordLike_ends (w : jsstring) : wordLike w -> w <> [] /\ trimmed w.
Proof.
  intros [Hne Hw]. split; [done|]. split.
  - destruct w as [|c w]; [done|]. simpl in *. apply andb_true_iff in Hw as [Hc _].
    by apply negb_true_iff in Hc.
  - rewrite <- forallb_rev' in Hw. destruct (rev w) as [|c r]; [done|].
    simpl in *. apply andb_true_iff in Hw as [Hc _]. by apply negb_true_iff in Hc.
Qed.

Lemma trimmed_joinWords (ws : list jsstring) : Forall wordLike ws -> trimmed (joinWords ws).
Proof.
  induction 1 as [|w ws Hw Hws [IH1 IH2]]; [done|].
  apply wordLike_ends in Hw as (Hne & Hw1 & Hw2).
  destruct ws as [|w2 ws]; [done|].
  rewrite joinWords_cons by done. split.
  - by rewrite headIs_app.
  - rewrite !rev_app_distr. rewrite <- app_assoc.
    inversion Hws as [|? ? Hw2' _]; subst. apply wordLike_ends in Hw2' as (Hne2 & _).
    rewrite headIs_app; [done|].
    intros Hr. apply (f_equal (@length N)) in Hr. rewrite length_rev in Hr.
    destruct w2 as [|x w2]; [done|]. destruct ws; simpl in Hr; try rewrite length_app in Hr; simpl in Hr; lia.
Qed.

(** Collapsing the blocks of spaces and trimming gives the words joined by
    single spaces. *)
Lemma trim_collapse_words (s : jsstring) :
  trim (collapse isSpace [32] s) = joinWords (words s).
Proof.
  destruct (collapse_words s) as (trail & -> & Htrail).
  apply trim_between.
  - by destruct (headIs isSpace s).
  - by destruct Htrail as [->|[-> _]].
  - apply trimmed_joinWords, words_wordLike.
Qed.

Lemma words_joinWords (ws : list jsstring) : Forall wordLike ws -> words (joinWords ws) = ws.
Proof.
  induction 1 as [|w ws Hw Hws IH]; [done|].
  destruct Hw as [Hne Hw].
  destruct ws as [|w2 ws].
  - cbn [joinWords]. rewrite <- (app_nil_r w) at 1. by rewrite words_word.
  - rewrite joinWords_cons by done. rewrite words_word; [|done|done|done].
    f_equal. exact IH.
Qed.

Lemma singleSpaced_joinWords (s : jsstring) : singleSpaced (joinWords (words s)).
Proof. unfold singleSpaced. rewrite words_joinWords; [done|apply words_wordLike]. Qed.

(** ** Code units of the results *)

Lemma elem_of_substClass (p : N -> bool) (by_ s : jsstring) (c : N) :
  c ∈ substClass p by_ s -> c ∈ by_ \/ (c ∈ s /\ p c = false).
Proof.
  unfold substClass. induction s as [|d t IH]; simpl; [by intros ?%elem_of_nil|].
  intros [H|H]%elem_of_app.
  - destruct (p d) eqn:Hd; [by left|]. apply list_elem_of_singleton in H as ->.
    right. split; [by left|done].
  - destruct (IH H) as [?|[? ?]]; [by left|right]. split; [by right|done].
Qed.

Lemma substClass_id (p : N -> bool) (by_ s : jsstring) :
  (forall c, c ∈ s -> p c = false) -> substClass p by_ s = s.
Proof.
  unfold substClass. induction s as [|d t IH]; intros H; [done|]. simpl.
  rewrite (H d) by (by left). simpl. f_equal. apply IH. intros c Hc. apply H. by right.
Qed.

Lemma elem_of_words (s : jsstring) (w : jsstring) (c : N) :
  w ∈ words s -> c ∈ w -> c ∈ s.
Proof.
  induction s as [|d t Hd IH|w' rest Hne Hw Hrest IH] using words_ind.
  - by intros ?%elem_of_nil.
  - assert (Hws : words (d :: t) = words t) by (unfold words; simpl; by rewrite Hd).
    rewrite Hws, <- words_skip. intros Hin Hc. right.
    specialize (IH Hin Hc). clear -IH.
    induction t as [|a t IHt]; [done|]. simpl in IH.
    destruct (isSpace a); [right; by apply IHt|done].
  - rewrite words_word by done. intros [->|Hin]%elem_of_cons Hc; apply elem_of_app; [by left|right; auto].
Qed.

Lemma elem_of_joinWords (ws : list jsstring) (c : N) :
  c ∈ joinWords ws -> c = 32 \/ exists w, w ∈ ws /\ c ∈ w.
Proof.
  induction ws as [|w ws IH]; [by intros ?%elem_of_nil|].
  destruct ws as [|w2 ws].
  - simpl. intros H. right. exists w. split; [by left|done].
  - rewrite joinWords_cons by done. intros [H|[H|H]%elem_of_app]%elem_of_app.
    + right. exists w. split; [by left|done].
    + left. by apply list_elem_of_singleton in H.
    + destruct (IH H) as [?|(w' & Hin & Hc)]; [by left|right].
      exists w'. split; [by right|done].
Qed.

Lemma wordLike_notSpace (ws : list jsstring) (w : jsstring) (c : N) :
  Forall wordLike ws -> w ∈ ws -> c ∈ w -> isSpace c = false.
Proof.
  intros Hws Hin Hc. rewrite Forall_forall in Hws. destruct (Hws w Hin) as [_ Hw].
  rewrite forallb_forall in Hw. apply list_elem_of_In in Hc. apply Hw in Hc.
  unfold notSpace in Hc. by apply negb_true_iff in Hc.
Qed.

(** The code units of the words of [s] joined: a space, or a code unit of
    [s] that is not a space. *)
Lemma elem_of_joinWords_words (s : jsstring) (c : N) :
  c ∈ joinWords (words s) -> c = 32 \/ (c ∈ s /\ isSpace c = false).
Proof.
  intros [->|(w & Hin & Hc)]%elem_of_joinWords; [by left|right]. split.
  - by apply (elem_of_words s w).
  - by apply (wordLike_notSpace (words s) w); [apply words_wordLike| |].
Qed.

(** ** Strings whose blocks of spaces are single spaces *)

Lemma collapseFrom_length (p : N -> bool) (b : bool) (s : jsstring) :
  (length (collapseFrom p [32%N] b s) <= length s)%nat.
Proof.
  revert b. induction s as [|c t IH]; intros b; [done|]. simpl.
  destruct (p c).
  - destruct b; simpl; specialize (IH true); lia.
  - simpl. specialize (IH false). lia.
Qed.

Lemma collapseFrom_app (p : N -> bool) (by_ : jsstring) (a b : jsstring) (inRun : bool) :
  collapseFrom p by_ inRun (a ++ b)
  = collapseFrom p by_ inRun a
    ++ collapseFrom p by_ (match last a with Some c => p c | None => inRun end) b.
Proof.
  revert inRun. induction a as [|c a IH]; intros inRun; [done|].
  cbn [app collapseFrom]. destruct (p c) eqn:Hc.
  - rewrite IH, <- app_assoc. do 2 f_equal.
    destruct a as [|d a]; [by rewrite (last_singleton c), Hc|].
    rewrite last_cons_cons. destruct (last (d :: a)) eqn:Hl; [done|]. by apply last_None in Hl.
  - rewrite IH. cbn [app]. do 2 f_equal.
    destruct a as [|d a]; [by rewrite (last_singleton c), Hc|].
    rewrite last_cons_cons. destruct (last (d :: a)) eqn:Hl; [done|]. by apply last_None in Hl.
Qed.

Lemma spaced_prefix (a b : jsstring) : spaced (a ++ b) -> spaced a.
Proof.
  unfold spaced, collapse. rewrite collapseFrom_app. intros H.
  pose proof (collapseFrom_length isSpace false a) as Ha.
  pose proof (collapseFrom_length isSpace (match last a with Some c => isSpace c | None => false end) b) as Hb.
  pose proof (f_equal length H) as Hl. rewrite !length_app in Hl.
  apply app_inj_1 in H as [H _]; [done|lia].
Qed.

Lemma spaced_trim (s : jsstring) : spaced s -> trim s = joinWords (words s).
Proof. intros H. rewrite <- trim_collapse_words. by rewrite H. Qed.

Lemma singleSpaced_spaced (s : jsstring) : singleSpaced s -> spaced s.
Proof.
  unfold singleSpaced, spaced. intros H.
  destruct (collapse_words s) as (trail & Heq & Htrail).
  pose proof (collapseFrom_length isSpace false s) as Hlen. fold (collapse isSpace [32] s) in Hlen.
  rewrite Heq, H in Hlen |- *. rewrite !length_app in Hlen.
  destruct (headIs isSpace s); simpl in Hlen; [lia|].
  destruct Htrail as [->|[-> _]]; simpl in Hlen; [|lia]. by rewrite app_nil_r.
Qed.

(** The trimmed prefix of a single-spaced string is single-spaced, and a
    prefix of it. *)
Lemma singleSpaced_trim_prefix (a b : jsstring) :
  singleSpaced (a ++ b) -> singleSpaced (trim a) /\ exists rest, a = trim a ++ rest.
Proof.
  intros H. pose proof (singleSpaced_spaced _ H) as Hs. apply spaced_prefix in Hs.
  split.
  - rewrite spaced_trim by done. apply singleSpaced_joinWords.
  - rewrite spaced_trim by done.
    destruct (collapse_words a) as (trail & Heq & Htrail). rewrite Hs in Heq.
    assert (Hh : headIs isSpace a = false).
    { destruct a as [|c a']; [done|].
      unfold singleSpaced in H.
      pose proof (trimmed_joinWords (words ((c :: a') ++ b)) (words_wordLike _)) as [Ht _].
      rewrite H in Ht. exact Ht. }
    rewrite Hh in Heq. simpl in Heq. by exists trail.
Qed.

Lemma matchAt_index (r : regex) (pos : nat) (prev : option N) (s : jsstring) (res : MatchResult) :
  matchAt r pos prev s = Some res -> m_index res = pos.
Proof. unfold matchAt. destruct (m r _ Some); [|done]. by intros [= <-]. Qed.

Lemma matchAt_requires (P : N -> Prop) (r : regex) (pos : nat) (prev : option N) (s : jsstring) :
  requires P r -> (forall c, c ∈ s -> ~ P c) -> matchAt r pos prev s = None.
Proof.
  intros Hreq Hs. unfold matchAt.
  destruct (m r _ Some) as [st|] eqn:Hm; [|done].
  apply m_sound in Hm as (st' & Hm & _).
  destruct (requires_matches P r Hreq _ _ Hm) as (c & Hin & Hc).
  by destruct (Hs c Hin).
Qed.

(** A replacement leaves a string without a match as it is. *)
Lemma replaceFrom_no_match (g : bool) (r : regex) (by_ : jsstring) (act : bool) (s : jsstring) :
  (forall pre post pos prev, s = pre ++ post -> matchAt r pos prev post = None) ->
  forall pos prev, replaceFrom g r by_ act 0 pos prev s = s.
Proof.
  induction s as [|c t IH]; intros Hno pos prev.
  - simpl. rewrite (Hno [] [] pos prev eq_refl). by destruct act.
  - cbn [replaceFrom]. rewrite (Hno [] (c :: t) pos prev eq_refl).
    replace (if act then None else None) with (@None MatchResult) by (by destruct act).
    f_equal. apply IH. intros pre post pos' prev' ->. by apply (Hno (c :: pre) post).
Qed.

Lemma replaceAll_requires (P : N -> Prop) (r : regex) (by_ s : jsstring) :
  requires P r -> (forall c, c ∈ s -> ~ P c) -> replaceAll r by_ s = s.
Proof.
  intros Hreq Hs. apply replaceFrom_no_match. intros pre post pos prev ->.
  apply (matchAt_requires P); [done|]. intros c Hc. apply Hs, elem_of_app. by right.
Qed.

Lemma replaceFrom_inactive (r : regex) (by_ : jsstring) (n : nat) (s : jsstring) :
  forall pos prev, replaceFrom false r by_ false n pos prev s = drop n s.
Proof.
  revert n. induction s as [|c t IH]; intros n pos prev.
  - by destruct n.
  - destruct n as [|n]; cbn [replaceFrom drop].
    + f_equal. rewrite IH. by rewrite drop_0.
    + apply IH.
Qed.

(** [s.replace(re, by)] without the [g] flag replaces the leftmost match. *)
Lemma replaceFrom_first (r : regex) (by_ : jsstring) (s : jsstring) :
  forall pos prev,
    replaceFrom false r by_ true 0 pos prev s =
    match execFrom r pos prev s with
    | Some res =>
      take (m_index res - pos) s ++ by_ ++ drop (m_index res - pos + m_length res) s
    | None => s
    end.
Proof.
  induction s as [|c t IH]; intros pos prev.
  - cbn [replaceFrom execFrom]. destruct (matchAt r pos prev []) as [res|] eqn:Hm; [|done].
    by rewrite drop_nil, take_nil.
  - cbn [replaceFrom execFrom]. destruct (matchAt r pos prev (c :: t)) as [res|] eqn:Hm.
    + rewrite (matchAt_index _ _ _ _ _ Hm), Nat.sub_diag. cbn [take app Nat.add]. f_equal.
      destruct (m_length res) as [|n]; rewrite replaceFrom_inactive; [|done].
      by rewrite !drop_0.
    + rewrite IH. destruct (execFrom r (S pos) (Some c) t) as [res|] eqn:He; [|done].
      apply execFrom_inv in He as (pre & post & -> & Hat & _).
      rewrite (matchAt_index _ _ _ _ _ Hat).
      replace (S pos + length pre - S pos)%nat with (length pre) by lia.
      replace (S pos + length pre - pos)%nat with (S (length pre)) by lia.
      done.
Qed.

(** A pattern that ends in [$]: the replacement of its leftmost match by the
    empty string keeps a prefix of the string. *)
Lemma replaceFirst_anchored (a : regex) (s : jsstring) :
  exists n, replaceFirst (Seq a Eos) [] s = take n s.
Proof.
  unfold replaceFirst. rewrite replaceFrom_first.
  destruct (execFrom (Seq a Eos) 0 None s) as [res|] eqn:He.
  - apply execFrom_inv in He as (pre & post & -> & Hat & _).
    exists (length pre). pose proof (matchAt_index _ _ _ _ _ Hat) as Hi.
    unfold matchAt in Hat. destruct (m (Seq a Eos) _ Some) as [st|] eqn:Hm; [|done].
    injection Hat as <-. cbn [m_index m_length].
    apply m_sound in Hm as (st' & Hm & [= <-]).
    destruct (matches_advanced _ _ _ Hm) as (read & Hr & Hp & _).
    destruct Hm as (mid & _ & Hnil & ->). cbn [st_rest st_pos] in *.
    rewrite Hnil, app_nil_r in Hr. subst read. rewrite Hp.
    rewrite Nat.sub_0_r.
    rewrite (drop_ge (pre ++ post)) by (rewrite length_app; lia).
    by rewrite !app_nil_r.
  - exists (length s). by rewrite firstn_all.
Qed.

Lemma elem_of_collapseFrom (p : N -> bool) (by_ s : jsstring) (b : bool) (c : N) :
  c ∈ collapseFrom p by_ b s -> c ∈ by_ \/ (c ∈ s /\ p c = false).
Proof.
  revert b. induction s as [|d t IH]; intros b; simpl; [by intros ?%elem_of_nil|].
  destruct (p d) eqn:Hd.
  - intros [H|H]%elem_of_app.
    + left. destruct b; [by apply elem_of_nil in H|done].
    + destruct (IH _ H) as [?|[? ?]]; [by left|right]. split; [by right|done].
  - intros [->|H]%elem_of_cons.
    + right. split; [by left|done].
    + destruct (IH _ H) as [?|[? ?]]; [by left|right]. split; [by right|done].
Qed.

(** Finds the part of a pattern that cannot match without a code unit of
    the class. *)
Ltac requires_tac :=
  cbn [requires word wordi word_ list_ascii_of_string Plus Star Opt];
  solve [ intros ? H; first [exact H | by apply N.eqb_eq in H]
        | left; requires_tac
        | right; requires_tac
        | split; requires_tac ].

(** ** normalizeForComparison *)

(** X1. The normalized form of a title: lower-case letters, digits and single
    spaces between words. Normalizing a normalized string changes nothing. *)
Theorem normalizeForComparison_normal_form (title : jsstring) :
  singleSpaced (normalizeForComparison title)
  /\ (forall c, c ∈ normalizeForComparison title ->
        isLower c = true \/ isDigit c = true \/ c = 32)
  /\ normalizeForComparison (normalizeForComparison title) = normalizeForComparison title.
Proof.
  assert (Hform : forall s,
    normalizeForComparison s
    = joinWords (words (substClass (fun c => negb (isLower c || isDigit c || isSpace c)) []
        (replaceAll (Star isSpace ⋅ word "(" ⋅ wordi "season" ⋅ Star isSpace
                     ⋅ Plus isDigit ⋅ word ")")%re [] s)))).
  { intros s. unfold normalizeForComparison.
    change (str " ") with [32]. by rewrite replaceAll_Plus, replaceAll_Chr, trim_collapse_words. }
  assert (Hchars : forall s c, c ∈ normalizeForComparison s ->
            isLower c = true \/ isDigit c = true \/ c = 32).
  { intros s c. rewrite Hform.
    intros [->|[Hc Hsp]]%elem_of_joinWords_words; [by right; right|].
    apply elem_of_substClass in Hc as [Hc|[_ Hc]]; [by apply elem_of_nil in Hc|].
    apply negb_false_iff in Hc. rewrite Hsp, orb_false_r in Hc.
    apply orb_true_iff in Hc as [?|?]; [by left|by right; left]. }
  split; [|split].
  - rewrite Hform. apply singleSpaced_joinWords.
  - apply Hchars.
  - set (t := normalizeForComparison title).
    assert (Ht : singleSpaced t) by (unfold t; rewrite Hform; apply singleSpaced_joinWords).
    rewrite Hform.
    rewrite (replaceAll_requires (fun c => c = 40)).
    + rewrite substClass_id; [exact Ht|].
      intros c Hc. destruct (Hchars title c Hc) as [H|[H| ->]]; [by rewrite H|by rewrite H, orb_true_r|done].
    + requires_tac.
    + intros c Hc ->. destruct (Hchars title 40 Hc) as [H|[H|H]]; done.
Qed.

(** ** Cleaned names *)

(** The last steps of both cleaning functions: dots and underscores to
    spaces, blocks of spaces to one space, and a trim. *)
Lemma tidy_tail (s : jsstring) :
  tidyName (trim (replaceAll (Plus isSpace) (str " ")
             (replaceAll (word "_") (str " ") (replaceAll (word ".") (str " ") s)))).
Proof.
  change (word "_") with (Chr (lit "_")). change (word ".") with (Chr (lit ".")).
  change (str " ") with [32].
  rewrite replaceAll_Plus, !replaceAll_Chr, trim_collapse_words.
  split; [apply singleSpaced_joinWords|].
  split; intros [?|[Hc _]]%elem_of_joinWords_words; try done.
  - apply elem_of_substClass in Hc as [Hc|[Hc _]]; [by apply list_elem_of_singleton in Hc|].
    apply elem_of_substClass in Hc as [Hc|[_ Hc]]; [by apply list_elem_of_singleton in Hc|done].
  - apply elem_of_substClass in Hc as [Hc|[_ Hc]]; [by apply list_elem_of_singleton in Hc|done].
Qed.

Lemma cleanMovieTitle_tidy (filename : jsstring) : tidyName (cleanMovieTitle filename).
Proof. apply tidy_tail. Qed.

Lemma cleanName_tidy (baseName : jsstring) : tidyName (cleanName baseName).
Proof. apply tidy_tail. Qed.

(** ** The series name of a folder *)

Lemma insertByLength_elem (x y : jsstring) (l : list jsstring) :
  y ∈ insertByLength x l <-> y = x \/ y ∈ l.
Proof.
  induction l as [|z l IH]; simpl.
  - rewrite list_elem_of_singleton. split; [by left|]. intros [?|?%elem_of_nil]; done.
  - destruct (length x <? length z)%nat.
    + by rewrite elem_of_cons.
    + rewrite !elem_of_cons, IH.
      split; [intros [?|[?|?]]|intros [?|[?|?]]]; auto.
Qed.

Lemma foldl_insertByLength_elem (y : jsstring) (l acc : list jsstring) :
  y ∈ foldl (fun acc x => insertByLength x acc) acc l <-> y ∈ acc \/ y ∈ l.
Proof.
  revert acc. induction l as [|x l IH]; intros acc; simpl.
  - split; [by left|]. intros [?|?%elem_of_nil]; done.
  - rewrite IH, insertByLength_elem, elem_of_cons.
    split; [intros [[?|?]|?]|intros [?|[?|?]]]; auto.
Qed.

Lemma sortByLength_elem (y : jsstring) (l : list jsstring) : y ∈ sortByLength l <-> y ∈ l.
Proof.
  unfold sortByLength. rewrite foldl_insertByLength_elem.
  split; [intros [?%elem_of_nil|?]|intros ?]; auto; done.
Qed.

Lemma hd_elem (l : list jsstring) : l <> [] -> hd [] l ∈ l.
Proof. destruct l; [done|]. intros _. by left. Qed.

(** The loop over the indices of [shortest] keeps code units that every
    name has at the same index. *)
Lemma commonPrefixFrom_prefix (names : list jsstring) (todo : jsstring) (i : nat) :
  exists rest, todo = commonPrefixFrom i todo names ++ rest.
Proof.
  revert i. induction todo as [|c todo IH]; intros i; [by exists []|]. simpl.
  destruct (forallb _ names); [|by exists (c :: todo)].
  destruct (IH (S i)) as [rest Hr]. exists rest. simpl. by f_equal.
Qed.

Lemma commonPrefixFrom_common (names : list jsstring) (todo : jsstring) (i : nat)
    (name : jsstring) :
  name ∈ names ->
  exists rest, drop i name = commonPrefixFrom i todo names ++ rest.
Proof.
  intros Hin. revert i. induction todo as [|c todo IH]; intros i; [by exists (drop i name)|].
  simpl. destruct (forallb _ names) eqn:Hall; [|by exists (drop i name)].
  rewrite forallb_forall in Hall. apply list_elem_of_In in Hin.
  specialize (Hall name Hin). apply bool_decide_eq_true in Hall.
  destruct (IH (S i)) as [rest Hr]. exists rest.
  rewrite (drop_S _ _ _ Hall). simpl. by f_equal.
Qed.

Lemma commonPrefixFrom_longest (names : list jsstring) (p : jsstring) :
  forall i todo,
    (forall name, name ∈ names -> exists rest, drop i name = p ++ rest) ->
    (exists rest, todo = p ++ rest) ->
    exists rest, commonPrefixFrom i todo names = p ++ rest.
Proof.
  induction p as [|c p IH]; intros i todo Hall [rest ->]; [by eexists|].
  simpl. replace (forallb _ names) with true.
  - destruct (IH (S i) (p ++ rest)) as [rest' Hr]; [|by exists rest|].
    + intros name Hin. destruct (Hall name Hin) as [r Hd]. exists r.
      replace (S i) with (i + 1)%nat by lia. rewrite <- drop_drop, Hd. done.
    + exists rest'. by rewrite Hr.
  - symmetry. apply forallb_forall. intros name Hin. apply bool_decide_eq_true.
    apply list_elem_of_In in Hin. destruct (Hall name Hin) as [r Hd].
    pose proof (lookup_drop name i 0) as Hl. rewrite Nat.add_0_r, Hd in Hl. symmetry. exact Hl.
Qed.

(** X2. The prefix loop of [extractSeriesNameFromFilenames] computes the
    longest common prefix of the cleaned names: its result is a prefix of
    every name, and every string that is a prefix of every name is a prefix
    of it. *)
Theorem common_prefix_is_longest (names : list jsstring) :
  let sorted := sortByLength names in
  let commonPrefix := commonPrefixFrom 0 (hd [] sorted) sorted in
  (forall name, name ∈ names -> exists rest, name = commonPrefix ++ rest)
  /\ (forall p, names <> [] -> (forall name, name ∈ names -> exists rest, name = p ++ rest) ->
        exists rest, commonPrefix = p ++ rest).
Proof.
  intros sorted commonPrefix. split.
  - intros name Hin. apply sortByLength_elem in Hin.
    destruct (commonPrefixFrom_common sorted (hd [] sorted) 0 name Hin) as [rest Hr].
    by exists rest.
  - intros p Hne Hall. apply commonPrefixFrom_longest.
    + intros name Hin. apply (proj1 (sortByLength_elem _ _)) in Hin. rewrite drop_0.
      by apply Hall.
    + apply Hall, sortByLength_elem, hd_elem.
      intros Hs. destruct names as [|x l]; [done|].
      assert (Hx : x ∈ sorted) by (apply sortByLength_elem; by left).
      unfold sorted in Hx. rewrite Hs in Hx. by apply elem_of_nil in Hx.
Qed.

Lemma commonWordsFrom_prefix (names : list jsstring) (todo : list jsstring) (i : nat) :
  exists rest, todo = commonWordsFrom i todo names ++ rest.
Proof.
  revert i. induction todo as [|w todo IH]; intros i; [by exists []|]. simpl.
  destruct (forallb _ names); [|by exists (w :: todo)].
  destruct (IH (S i)) as [rest Hr]. exists rest. simpl. by f_equal.
Qed.

Lemma joinWords_app (a b : list jsstring) :
  exists rest, joinWords (a ++ b) = joinWords a ++ rest.
Proof.
  induction a as [|w a IH]; [by eexists|].
  destruct a as [|w2 a].
  - destruct b as [|w3 b]; [exists []; simpl; by rewrite app_nil_r|]. simpl. by eexists.
  - destruct IH as [rest Hr]. exists rest.
    change ((w :: w2 :: a) ++ b) with (w :: (w2 :: a) ++ b).
    rewrite !joinWords_cons by done. rewrite Hr. by rewrite <- !app_assoc.
Qed.

Lemma trim_singleSpaced (s : jsstring) : singleSpaced s -> trim s = s.
Proof.
  intros H. rewrite <- (app_nil_r s) at 1. change (s ++ []) with ([] ++ s ++ []).
  apply trim_between; [done|done|]. rewrite <- H. apply trimmed_joinWords, words_wordLike.
Qed.

Lemma prefixOf_trans (a b c : jsstring) : prefixOf a b -> prefixOf b c -> prefixOf a c.
Proof. intros [r1 ->] [r2 ->]. exists (r1 ++ r2). by rewrite app_assoc. Qed.

Lemma prefixOf_take (n : nat) (s : jsstring) : prefixOf (take n s) s.
Proof. exists (drop n s). by rewrite take_drop. Qed.

Lemma prefixOf_elem (a b : jsstring) (c : N) : prefixOf a b -> c ∈ a -> c ∈ b.
Proof. intros [r ->] H. apply elem_of_app. by left. Qed.

(** The trim of a prefix of a single-spaced string is a single-spaced prefix
    of it. *)
Lemma trim_prefix (a s : jsstring) :
  singleSpaced s -> prefixOf a s -> singleSpaced (trim a) /\ prefixOf (trim a) s.
Proof.
  intros Hs [rest ->]. destruct (singleSpaced_trim_prefix a rest Hs) as [H1 [r Hr]].
  split; [done|]. exists (r ++ rest). rewrite app_assoc. by rewrite <- Hr.
Qed.

(** The final clean-up of [extractSeriesNameFromFilenames] on a prefix of a
    single-spaced string. *)
Lemma final_cleanup (result shortest : jsstring) :
  singleSpaced shortest -> prefixOf result shortest ->
  singleSpaced (trim
    (replaceFirst (Plus isSpace ⋅ Plus isDigit ⋅ Star isSpace ⋅ Eos)%re []
      (replaceFirst (Star isSpace ⋅ word "-" ⋅ Star isSpace ⋅ Eos)%re [] result)))
  /\ prefixOf (trim
    (replaceFirst (Plus isSpace ⋅ Plus isDigit ⋅ Star isSpace ⋅ Eos)%re []
      (replaceFirst (Star isSpace ⋅ word "-" ⋅ Star isSpace ⋅ Eos)%re [] result)))
    shortest.
Proof.
  intros Hss Hpre.
  destruct (replaceFirst_anchored (Star isSpace ⋅ word "-" ⋅ Star isSpace) result) as [n ->].
  destruct (replaceFirst_anchored (Plus isSpace ⋅ Plus isDigit ⋅ Star isSpace) (take n result))
    as [n' ->].
  apply trim_prefix; [done|].
  eapply prefixOf_trans; [apply prefixOf_take|].
  eapply prefixOf_trans; [apply prefixOf_take|done].
Qed.

(** X3. The name that [extractSeriesNameFromFilenames] derives from the files
    of a folder is in the form of a cleaned name, and is a prefix of the
    cleaned base name of one of the files. *)
Theorem series_name_is_tidy_prefix (filenames : list jsstring) :
  filenames <> [] ->
  tidyName (extractSeriesNameFromFilenames filenames)
  /\ exists f, f ∈ filenames
       /\ prefixOf (extractSeriesNameFromFilenames filenames) (cleanName (getBaseName f)).
Proof.
  intros Hne.
  assert (Hgoal : exists f, f ∈ filenames
            /\ singleSpaced (extractSeriesNameFromFilenames filenames)
            /\ prefixOf (extractSeriesNameFromFilenames filenames) (cleanName (getBaseName f))).
  { unfold extractSeriesNameFromFilenames.
    destruct filenames as [|f0 fs] eqn:Hfs; [done|]. rewrite <- Hfs. clear Hne. cbv zeta.
    remember (List.map (fun f => cleanName (getBaseName f)) filenames) as names eqn:Hnames.
    destruct names as [|n1 [|n2 ns]].
    - by rewrite Hfs in Hnames.
    - exists f0. split; [rewrite Hfs; by left|].
      rewrite Hfs in Hnames. injection Hnames as -> _.
      split; [apply cleanName_tidy|exists []; by rewrite app_nil_r].
    - cbv beta iota. rewrite Hnames.
      set (names := List.map (fun f => cleanName (getBaseName f)) filenames).
      set (sorted := sortByLength names). set (shortest := hd [] sorted).
      assert (Hshort : exists f, f ∈ filenames /\ shortest = cleanName (getBaseName f)).
      { assert (Hin : shortest ∈ names).
        { apply sortByLength_elem, hd_elem. intros Hs.
          assert (Hx : cleanName (getBaseName f0) ∈ sorted).
          { apply sortByLength_elem. unfold names. rewrite Hfs. by left. }
          unfold sorted in Hx. rewrite Hs in Hx. by apply elem_of_nil in Hx. }
        unfold names in Hin. apply list_elem_of_fmap in Hin as (f & Hf & Hin). by exists f. }
      destruct Hshort as (f & Hshort & Hf). exists f. split; [done|].
      assert (Hss : singleSpaced shortest) by (rewrite Hf; apply cleanName_tidy).
      rewrite <- Hf. apply final_cleanup; [done|].
      assert (H0 : prefixOf (trim (replaceFirst (Plus isDashUnderscoreSpace ⋅ Eos)%re []
                               (commonPrefixFrom 0 shortest sorted))) shortest).
      { destruct (replaceFirst_anchored (Plus isDashUnderscoreSpace)
                    (commonPrefixFrom 0 shortest sorted)) as [n ->].
        apply trim_prefix; [done|]. eapply prefixOf_trans; [apply prefixOf_take|].
        destruct (commonPrefixFrom_prefix sorted shortest 0) as [rest Hr]. by exists rest. }
      assert (H1 : prefixOf (trim (joinWords (commonWordsFrom 0 (words shortest) sorted)))
                            shortest).
      { destruct (commonWordsFrom_prefix sorted (words shortest) 0) as [rest Hr].
        pose proof (words_wordLike shortest) as Hwl. rewrite Hr in Hwl.
        apply Forall_app in Hwl as [Hwl _].
        rewrite trim_singleSpaced.
        2:{ unfold singleSpaced. by rewrite words_joinWords. }
        destruct (joinWords_app (commonWordsFrom 0 (words shortest) sorted) rest) as [r Hj].
        rewrite <- Hr in Hj. rewrite Hss in Hj. by exists r. }
      repeat match goal with
             | |- context [if ?b then _ else _] => destruct b
             end; try done; exists []; by rewrite app_nil_r. }
  destruct Hgoal as (f & Hf & Hss & Hpre). split.
  - split; [done|]. split; intros Hc.
    + apply (prefixOf_elem _ _ _ Hpre) in Hc.
      by destruct (cleanName_tidy (getBaseName f)) as (_ & Hdot & _).
    + apply (prefixOf_elem _ _ _ Hpre) in Hc.
      by destruct (cleanName_tidy (getBaseName f)) as (_ & _ & Hund).
  - by exists f.
Qed.

Lemma digitsOfPos_digits (fuel : nat) (n : N) (acc : jsstring) :
  forallb isDigit acc = true -> forallb isDigit (digitsOfPos fuel n acc) = true.
Proof.
  revert n acc. induction fuel as [|f IH]; intros n acc Hacc; [done|]. simpl.
  assert (Hd : isDigit (48 + n mod 10) = true).
  { assert (Hm : n mod 10 < 10) by (apply N.mod_upper_bound; lia).
    revert Hm. generalize (n mod 10). intros d Hd. unfold isDigit.
    destruct (N.leb_spec 48 (48 + d)); [|lia]. destruct (N.leb_spec (48 + d) 57); [done|lia]. }
  destruct (n <? 10); [simpl; by rewrite Hd|].
  apply IH. simpl. by rewrite Hd.
Qed.

Lemma toStringN_digits (n : N) : forallb isDigit (toStringN n) = true.
Proof. by apply digitsOfPos_digits. Qed.

Lemma padStart_digits (width : nat) (s : jsstring) :
  forallb isDigit s = true -> forallb isDigit (padStart width 48 s) = true.
Proof.
  intros Hs. unfold padStart. rewrite forallb_app, Hs, andb_true_r.
  induction (width - length s)%nat as [|k IH]; [done|]. simpl. exact IH.
Qed.

Lemma isDigit_isIdChar (s : jsstring) : forallb isDigit s = true -> forallb isIdChar s = true.
Proof.
  intros H. rewrite forallb_forall in *. intros c Hc. unfold isIdChar.
  by rewrite (H c Hc), orb_true_r.
Qed.

Lemma lower_isIdChar (s : jsstring) :
  (forall c, c ∈ s -> isAlnum c = true \/ c = 95) ->
  forallb isIdChar (toLowerCase s) = true.
Proof.
  intros Hs. unfold toLowerCase, toLowerCaseWith.
  assert (Hascii : forallb isAscii s = true).
  { apply forallb_forall. intros c Hc%list_elem_of_In.
    destruct (Hs c Hc) as [H| ->]; [|done]. revert H.
    unfold isAlnum, isDigit, isUpper, isLower, isAscii. N_cases. }
  rewrite Hascii. apply forallb_forall. intros c Hc%in_map_iff.
  destruct Hc as (d & <- & Hd%list_elem_of_In).
  destruct (Hs d Hd) as [H| ->]; [|done]. revert H.
  unfold isIdChar, asciiLower, isAlnum, isDigit, isUpper, isLower. N_cases.
Qed.

Lemma forallb_take (p : N -> bool) (n : nat) (s : jsstring) :
  forallb p s = true -> forallb p (take n s) = true.
Proof.
  intros H. rewrite <- (take_drop n s), forallb_app in H. by apply andb_true_iff in H as [? _].
Qed.

(** X4. For a season and a part number that are null or safe integers
    (up to 2^53 - 1, which the run-time prints in decimal digits), every
    identifier that [generateSeriesId] builds is made of lower-case letters,
    digits and underscores; the part it takes from a series name of two code
    units or more has at most 50 code units. *)
Theorem generateSeriesId_charset (seriesName folderName : jsstring)
    (seasonNumber partNumber : option N) :
  safeOrNull seasonNumber = true ->
  safeOrNull partNumber = true ->
  forallb isIdChar (generateSeriesId seriesName folderName seasonNumber partNumber) = true
  /\ ((2 <= length seriesName)%nat ->
        (length (generateSeriesId seriesName folderName None None) <= 50)%nat).
Proof.
  intros _ _.
  assert (Hbase1 : forallb isIdChar
            (take 50 (toLowerCase
              (replaceAll (Plus isSpace) (str "_")
                (replaceAll (Chr (fun c => negb (isAlnum c || isSpace c))) [] seriesName)))) = true).
  { apply forallb_take, lower_isIdChar. intros c.
    change (str "_") with [95]. rewrite replaceAll_Plus, replaceAll_Chr.
    intros [Hc|[Hc Hsp]]%elem_of_collapseFrom; [right; by apply list_elem_of_singleton in Hc|].
    apply elem_of_substClass in Hc as [Hc|[_ Hc]]; [by apply elem_of_nil in Hc|].
    apply negb_false_iff in Hc. rewrite Hsp, orb_false_r in Hc. by left. }
  assert (Hbase2 : forallb isIdChar
            (toLowerCase
              (replaceAll (Chr (fun c => negb (isAlnum c))) (str "_") folderName)) = true).
  { apply lower_isIdChar. intros c. change (str "_") with [95]. rewrite replaceAll_Chr.
    intros [Hc|[_ Hc]]%elem_of_substClass; [right; by apply list_elem_of_singleton in Hc|].
    apply negb_false_iff in Hc. by left. }
  split.
  - unfold generateSeriesId.
    destruct (2 <=? length seriesName)%nat, partNumber as [part|], seasonNumber as [season|];
      rewrite ?forallb_app, ?Hbase1, ?Hbase2; try done;
      cbn [andb]; apply andb_true_iff; (split; [done|]);
      apply isDigit_isIdChar, padStart_digits, toStringN_digits.
  - intros Hlen. apply Nat.leb_le in Hlen. unfold generateSeriesId. rewrite Hlen.
    rewrite length_take. lia.
Qed.

Lemma exec_no_digit (r : regex) (s : jsstring) :
  requires (fun c => isDigit c = true) r ->
  (forall c, c ∈ s -> isDigit c = false) -> exec r s = None.
Proof.
  intros Hreq Hs. destruct (exec r s) as [res|] eqn:He; [|done].
  destruct (exec_requires _ _ _ _ Hreq He) as (c & Hin & Hc).
  rewrite (Hs c Hin) in Hc. done.
Qed.

Lemma digitRuns_no_digit (s : jsstring) :
  (forall c, c ∈ s -> isDigit c = false) -> digitRuns s = [].
Proof.
  unfold digitRuns. induction s as [|c t IH]; intros Hs; [done|]. simpl.
  rewrite (Hs c) by (by left). simpl. apply IH. intros d Hd. apply Hs. by right.
Qed.

(** X5. Names without a digit: the tokenizer finds no season and falls back on
    episode 1, whatever the extension; a folder name gives no season and no
    part. *)
Theorem names_without_digits :
  (forall filename,
     (forall c, c ∈ getBaseName filename -> isDigit c = false) ->
     extractSeasonAndEpisode filename = SE None 1)
  /\ (forall folderName,
        (forall c, c ∈ folderName -> isDigit c = false) ->
        extractSeasonNumber folderName = None /\ extractPartNumber folderName = None).
Proof.
  split.
  - intros filename Hs. unfold extractSeasonAndEpisode.
    rewrite (exec_no_digit reSeasonEpisode) by (done || unfold reSeasonEpisode; requires_tac).
    rewrite (exec_no_digit reDecimalEpisode) by (done || unfold reDecimalEpisode; requires_tac).
    unfold episodePatterns, firstPattern.
    rewrite !exec_no_digit by (done || requires_tac).
    unfold fallbackEpisode. rewrite matchAll_reDigits, digitRuns_no_digit by done. done.
  - intros folderName Hs. unfold extractSeasonNumber, extractPartNumber.
    unfold seasonPatterns, partPatterns, firstPattern.
    rewrite !exec_no_digit by (done || requires_tac). done.
Qed.

(** ** Extensions *)

(** X6. The tokenizer does not look at the extension: two names with the same
    base name and different extensions get the same season and episode. *)
Theorem tokenizer_ignores_extension (base e1 e2 : jsstring) :
  base <> [] -> noDot e1 = true -> noDot e2 = true ->
  extractSeasonAndEpisode (base ++ 46 :: e1) = extractSeasonAndEpisode (base ++ 46 :: e2).
Proof.
  intros Hne H1 H2.
  assert (Hcase : forall e, noDot e = true ->
            getBaseName (base ++ 46 :: e) = base
            \/ (base = [46] /\ getBaseName (base ++ 46 :: e) = [46; 46])).
  { intros e He. destruct (decide (base ++ 46 :: e = [46; 46])) as [Heq|Hneq].
    - right. destruct base as [|b0 [|b1 base']]; [done| |].
      + injection Heq as -> ->. done.
      + injection Heq as _ _ Heq. by destruct base'.
    - left. by apply extname_getBaseName_of. }
  assert (Hdot : forall f, getBaseName f = [46] \/ getBaseName f = [46; 46] ->
            extractSeasonAndEpisode f = SE None 1).
  { intros f Hf. unfold extractSeasonAndEpisode. by destruct Hf as [-> | ->]. }
  destruct (Hcase e1 H1) as [Hb1|[-> Hb1]], (Hcase e2 H2) as [Hb2|[Hdd Hb2]].
  - unfold extractSeasonAndEpisode. by rewrite Hb1, Hb2.
  - subst base. rewrite (Hdot ([46] ++ 46 :: e2)) by (by right). apply Hdot. by left.
  - rewrite (Hdot ([46] ++ 46 :: e1)) by (by right). symmetry. apply Hdot. by left.
  - rewrite !Hdot by (by right). done.
Qed.

(** ** Movie titles and their identifiers *)

Lemma singleSpaced_trimmed (s : jsstring) : singleSpaced s -> trimmed s.
Proof. intros <-. apply trimmed_joinWords, words_wordLike. Qed.

(** X7. A movie title is left in a tidy form: its words separated by single
    spaces, without a space at either end, and without a dot or an
    underscore. *)
Theorem movie_title_is_tidy (filename : jsstring) :
  tidyName (cleanMovieTitle filename) /\ trimmed (cleanMovieTitle filename).
Proof.
  split; [apply cleanMovieTitle_tidy|].
  destruct (cleanMovieTitle_tidy filename) as [Hss _]. by apply singleSpaced_trimmed.
Qed.

Lemma length_substClass_unit (p : N -> bool) (u : N) (s : jsstring) :
  length (substClass p [u] s) = length s.
Proof.
  unfold substClass. induction s as [|c t IH]; [done|]. cbn [flat_map].
  rewrite length_app, IH. by destruct (p c).
Qed.

(** X8. The identifier of a movie is [movie_] followed by one code unit for
    each code unit of the title, and is made of lower-case letters, digits
    and underscores only. *)
Theorem movie_identifier_charset (movieTitle : jsstring) :
  forallb isIdChar (movieIdOf movieTitle) = true
  /\ length (movieIdOf movieTitle) = (6 + length movieTitle)%nat.
Proof.
  unfold movieIdOf.
  assert (Hal : forall c, c ∈ replaceAll (Chr (fun c => negb (isAlnum c))) (str "_") movieTitle ->
                          isAlnum c = true \/ c = 95).
  { intros c. change (str "_") with [95]. rewrite replaceAll_Chr.
    intros [Hc|[_ Hc]]%elem_of_substClass; [right; by apply list_elem_of_singleton in Hc|].
    apply negb_false_iff in Hc. by left. }
  split.
  - rewrite forallb_app. apply andb_true_iff. split; [done|]. by apply lower_isIdChar.
  - rewrite length_app. cbn [length str]. f_equal.
    unfold toLowerCase, toLowerCaseWith.
    assert (Hascii : forallb isAscii
              (replaceAll (Chr (fun c => negb (isAlnum c))) (str "_") movieTitle) = true).
    { apply forallb_forall. intros c Hc%list_elem_of_In.
      destruct (Hal c Hc) as [H| ->]; [|done]. revert H.
      unfold isAlnum, isDigit, isUpper, isLower, isAscii. N_cases. }
    rewrite Hascii, length_map. change (str "_") with [95]. rewrite replaceAll_Chr.
    apply length_substClass_unit.
Qed.

(** ** The videos of a folder *)

(** One turn of the loop over the entries of a folder. *)
Lemma scanFolderEntry_outcome (folderPath folderName : jsstring) (seasonFromFolder : option N)
    (entry : jsstring) (st : FolderState) :
  scanFolderEntry folderPath folderName seasonFromFolder entry st
  = mkOutcome (inr tt)
      (if isVideoEntry folderPath entry then
         pushVideo
           (mkVideoFile entry (join folderPath entry) (getBaseName entry)
              (episode (extractSeasonAndEpisode entry))
              match season (extractSeasonAndEpisode entry) with
              | Some x => Some x
              | None => seasonFromFolder
              end None [] folderName) st
       else if isSubtitleEntry folderPath entry then
         pushSubtitle (getBaseName entry) (join folderPath entry) st
       else st)
      match stat (join folderPath entry) with
      | inl _ => [CouldNotStat (join folderPath entry)]
      | inr _ => []
      end.
Proof.
  unfold scanFolderEntry, isVideoEntry, isSubtitleEntry, tryCatch, bind, lift, modify, ret, console.
  cbn [result state logged].
  destruct (stat (join folderPath entry)) as [e|stats]; cbn [result state logged app]; [done|].
  destruct (isFile stats); cbn [andb]; [|done].
  destruct (isVideoFile entry); cbn [negb andb]; [done|].
  by destruct (isSubtitleFile entry).
Qed.

(** A loop whose body never throws runs it on every element in turn. *)
Lemma forEach_state {S X} (xs : list X) (body : X -> M E S unit) :
  (forall x st, result (body x st) = inr tt) ->
  forall st,
    result (forEach xs body st) = inr tt
    /\ state (forEach xs body st) = foldl (fun s x => state (body x s)) st xs.
Proof.
  intros Hb. induction xs as [|x xs IH]; intros st; [done|].
  simpl. unfold bind. rewrite Hb. cbn [result state]. apply IH.
Qed.

Lemma loop_videos (folderPath : jsstring) (folderSeason : option N) (entries : list jsstring) :
  forall st,
    videos (foldl (fun s x => state (scanFolderEntry folderPath (pathBasename folderPath)
                      match folderSeason with
                      | Some x => Some x
                      | None => extractSeasonNumber (pathBasename folderPath)
                      end x s)) st entries)
    = videos st ++ List.map (videoOfEntry folderPath folderSeason)
                     (List.filter (isVideoEntry folderPath) entries).
Proof.
  induction entries as [|entry rest IH]; intros st; cbn [foldl List.filter List.map].
  - by rewrite app_nil_r.
  - rewrite IH, scanFolderEntry_outcome. cbn [state].
    destruct (isVideoEntry folderPath entry).
    + cbn [pushVideo videos List.map]. by rewrite <- app_assoc.
    + by destruct (isSubtitleEntry folderPath entry).
Qed.

Lemma loop_subtitles (folderPath folderName : jsstring) (seasonFromFolder : option N)
    (entries : list jsstring) (b : jsstring) :
  forall st,
    default [] (subtitles (foldl (fun s x => state (scanFolderEntry folderPath folderName
                                     seasonFromFolder x s)) st entries) !! b)
    = default [] (subtitles st !! b)
      ++ List.map (join folderPath)
           (List.filter (fun e => isSubtitleEntry folderPath e
                                  && bool_decide (getBaseName e = b)) entries).
Proof.
  induction entries as [|entry rest IH]; intros st; cbn [foldl List.filter List.map].
  - by rewrite app_nil_r.
  - rewrite IH, scanFolderEntry_outcome. cbn [state].
    destruct (isVideoEntry folderPath entry) eqn:Hv.
    + assert (Hs : isSubtitleEntry folderPath entry = false).
      { unfold isVideoEntry, isSubtitleEntry in *.
        destruct (stat (join folderPath entry)) as [|stats]; [done|].
        apply andb_true_iff in Hv as [-> ->]. done. }
      rewrite Hs. done.
    + destruct (isSubtitleEntry folderPath entry); [|done].
      cbn [andb pushSubtitle subtitles].
      destruct (decide (getBaseName entry = b)) as [Heq|Hneq].
      * rewrite bool_decide_eq_true_2 by done. subst b.
        rewrite lookup_insert_eq. simpl. by rewrite <- app_assoc.
      * rewrite bool_decide_eq_false_2 by done. by rewrite lookup_insert_ne.
Qed.

(** The filter that drops the videos of a path already seen. *)
Lemma dedupe_spec (vs : list VideoFile) :
  forall seen,
    NoDup (List.map filePath (dedupe seen vs).1)
    /\ (forall v, v ∈ (dedupe seen vs).1 -> v ∈ vs /\ filePath v ∉ seen)
    /\ (forall v, v ∈ vs -> filePath v ∉ seen ->
          exists v', v' ∈ (dedupe seen vs).1 /\ filePath v' = filePath v).
Proof.
  induction vs as [|v vs IH]; intros seen.
  - cbn. split; [constructor|]. split; [by intros ? ?%elem_of_nil|by intros ? ?%elem_of_nil].
  - cbn [dedupe]. destruct (decide (filePath v ∈ seen)) as [Hin|Hnin].
    + rewrite bool_decide_eq_true_2 by done.
      destruct (IH seen) as (Hnd & Hsound & Hcomplete).
      destruct (dedupe seen vs) as [r l]. cbn [fst] in *.
      split; [done|]. split.
      * intros v' Hv'. destruct (Hsound v' Hv') as [? ?]. split; [by right|done].
      * intros v' [->|Hv']%elem_of_cons Hns; [done|]. by apply Hcomplete.
    + rewrite bool_decide_eq_false_2 by done.
      destruct (IH ({[filePath v]} ∪ seen)) as (Hnd & Hsound & Hcomplete).
      destruct (dedupe ({[filePath v]} ∪ seen) vs) as [r l]. cbn [fst] in *.
      split; [|split].
      * cbn [List.map]. constructor; [|done].
        intros Hin%list_elem_of_fmap. destruct Hin as (v' & Heq & Hv').
        destruct (Hsound v' Hv') as [_ Hns]. apply Hns. rewrite <- Heq.
        apply elem_of_union. left. by apply elem_of_singleton.
      * intros v' [->|Hv']%elem_of_cons; [split; [by left|done]|].
        destruct (Hsound v' Hv') as [? Hns]. split; [by right|].
        intros Hs. apply Hns, elem_of_union. by right.
      * intros v' [->|Hv']%elem_of_cons Hns.
        -- exists v. split; [by left|done].
        -- destruct (decide (filePath v' = filePath v)) as [Heq|Hneq].
           ++ exists v. split; [by left|done].
           ++ destruct (Hcomplete v' Hv') as (v'' & Hv'' & Hp).
              { intros [Hs%elem_of_singleton|Hs]%elem_of_union; done. }
              exists v''. split; [by right|done].
Qed.

Lemma forEach_console_result {S} (evs : list (event E)) (st : S) :
  result (forEach evs console st) = inr tt /\ state (forEach evs console st) = st.
Proof.
  induction evs as [|ev evs IH]; [done|]. simpl. unfold bind, console. cbn [result state].
  exact IH.
Qed.

(** The result and the state of a sequence and of a [try]. *)
Lemma result_bind {S A B} (c : M E S A) (f : A -> M E S B) (st : S) :
  result (bind c f st)
  = match result (c st) with
    | inl e => inl e
    | inr a => result (f a (state (c st)))
    end.
Proof. unfold bind. by destruct (result (c st)). Qed.

Lemma state_bind {S A B} (c : M E S A) (f : A -> M E S B) (st : S) :
  state (bind c f st)
  = match result (c st) with
    | inl e => state (c st)
    | inr a => state (f a (state (c st)))
    end.
Proof. unfold bind. by destruct (result (c st)). Qed.

Lemma result_tryCatch {S A} (c : M E S A) (h : E -> M E S A) (st : S) :
  result (tryCatch c h st)
  = match result (c st) with
    | inl e => result (h e (state (c st)))
    | inr a => inr a
    end.
Proof. unfold tryCatch. by destruct (result (c st)) eqn:Hr. Qed.

Lemma state_tryCatch {S A} (c : M E S A) (h : E -> M E S A) (st : S) :
  state (tryCatch c h st)
  = match result (c st) with
    | inl e => state (h e (state (c st)))
    | inr a => state (c st)
    end.
Proof. unfold tryCatch. by destruct (result (c st)) eqn:Hr. Qed.

(** What the scan of a readable folder returns: the records of its video
    entries, in the order of the entries, without those of a path that came
    before. *)
Lemma scanFolderForVideos_readable {S} (folderPath : jsstring) (folderSeason : option N)
    (entries : list jsstring) (s : S) :
  readdir folderPath = inr entries ->
  result (scanFolderForVideos folderPath folderSeason s)
  = inr (dedupe ∅ (List.map (scannedVideo folderPath folderSeason entries)
                      (List.filter (isVideoEntry folderPath) entries))).1.
Proof.
  intros Hread. unfold scanFolderForVideos, call, scanFolderForVideosBody. cbn [result].
  rewrite result_tryCatch, result_bind. unfold lift at 1 2. cbn [result state]. rewrite Hread.
  rewrite result_bind.
  match goal with
  | |- context [forEach entries ?body ?st] =>
    destruct (forEach_state entries body
                ltac:(intros; apply scanFolderEntry_total) st) as [Hr Hs];
    rewrite Hr, Hs
  end.
  rewrite result_bind. unfold getState at 1 2. cbn [result state].
  match goal with
  | |- context [dedupe ∅ ?matched] =>
    replace matched with (List.map (scannedVideo folderPath folderSeason entries)
                            (List.filter (isVideoEntry folderPath) entries))
  end.
  - destruct (dedupe ∅ _) as [r l]. rewrite result_bind.
    match goal with
    | |- context [forEach l console ?st] =>
      destruct (forEach_console_result l st) as [Hr' _]; rewrite Hr'
    end.
    reflexivity.
  - rewrite loop_videos. cbn [videos app]. rewrite List.map_map.
    apply map_ext. intros entry. unfold matchSubtitles, videoOfEntry, scannedVideo.
    cbn [filename filePath vtitle episodeNumber seasonNumber parentFolder].
    rewrite loop_subtitles. cbn [subtitles]. rewrite lookup_empty. cbn [app].
    fold (subtitlesFor folderPath entries entry).
    by destruct (subtitlesFor folderPath entries entry).
Qed.

Lemma elem_of_List_filter {A} (f : A -> bool) (l : list A) (x : A) :
  x ∈ List.filter f l <-> f x = true /\ x ∈ l.
Proof. rewrite !list_elem_of_In, filter_In. split; intros [? ?]; by split. Qed.

Lemma isVideoEntry_spec (folderPath entry : jsstring) :
  isVideoEntry folderPath entry = true
  <-> exists stats,
        stat (join folderPath entry) = inr stats /\ isFile stats = true
        /\ isVideoFile entry = true.
Proof.
  unfold isVideoEntry. destruct (stat (join folderPath entry)) as [e|stats].
  - split; [done|]. by intros (stats & [=] & _).
  - rewrite andb_true_iff. split.
    + intros [? ?]. by exists stats.
    + by intros (stats' & [= <-] & ? & ?).
Qed.

(** The videos that the scan of a readable folder returns are the records
    of its video entries. *)
Lemma scanned_videos_elem {S} (folderPath : jsstring) (folderSeason : option N)
    (entries : list jsstring) (s : S) (vids : list VideoFile) :
  readdir folderPath = inr entries ->
  result (scanFolderForVideos folderPath folderSeason s) = inr vids ->
  NoDup (List.map filePath vids)
  /\ forall v, v ∈ vids <->
       exists entry, entry ∈ entries /\ isVideoEntry folderPath entry = true
                     /\ v = scannedVideo folderPath folderSeason entries entry.
Proof.
  intros Hread Hres. rewrite (scanFolderForVideos_readable _ _ entries) in Hres by done.
  injection Hres as <-.
  destruct (dedupe_spec (List.map (scannedVideo folderPath folderSeason entries)
                           (List.filter (isVideoEntry folderPath) entries)) ∅)
    as (Hnd & Hsound & Hcomplete).
  split; [done|]. intros v. split.
  - intros Hv. destruct (Hsound v Hv) as [Hin _].
    apply list_elem_of_fmap in Hin as (entry & -> & Hin).
    apply elem_of_List_filter in Hin as [Hvid Hin]. by exists entry.
  - intros (entry & Hin & Hvid & ->).
    destruct (Hcomplete (scannedVideo folderPath folderSeason entries entry)) as (v' & Hv' & Hp).
    + apply list_elem_of_fmap. exists entry. split; [done|]. by apply elem_of_List_filter.
    + apply not_elem_of_empty.
    + destruct (Hsound v' Hv') as [Hin' _].
      apply list_elem_of_fmap in Hin' as (entry' & -> & Hin').
      cbn [scannedVideo filePath] in Hp. unfold join in Hp.
      apply app_inv_head in Hp. injection Hp as ->. done.
Qed.

Lemma NoDup_fmap_eq {A B} (f : A -> B) (l : list A) (a b : A) :
  NoDup (List.map f l) -> a ∈ l -> b ∈ l -> f a = f b -> a = b.
Proof.
  induction l as [|x l IH]; intros Hnd Ha Hb Heq; [by apply elem_of_nil in Ha|].
  cbn [List.map] in Hnd. apply NoDup_cons in Hnd as [Hx Hnd].
  apply elem_of_cons in Ha as [->|Ha], Hb as [->|Hb]; [done| | |by apply IH].
  - exfalso. apply Hx. rewrite Heq. apply list_elem_of_fmap. by exists b.
  - exfalso. apply Hx. rewrite <- Heq. apply list_elem_of_fmap. by exists a.
Qed.

(** X9. The scan of a folder returns records of video files only: every record
    is that of an entry of the folder that can be stat-ed, is a file and has
    a video extension; its path, title, episode, season and parent folder
    are derived from the name of the entry and of the folder; and no two
    records have the same path. *)
Theorem scanned_videos_are_video_files {S} (folderPath : jsstring) (folderSeason : option N)
    (entries : list jsstring) (s : S) (vids : list VideoFile) :
  readdir folderPath = inr entries ->
  result (scanFolderForVideos folderPath folderSeason s) = inr vids ->
  NoDup (List.map filePath vids)
  /\ forall v, v ∈ vids ->
       exists stats,
         filename v ∈ entries
         /\ stat (join folderPath (filename v)) = inr stats /\ isFile stats = true
         /\ isVideoFile (filename v) = true
         /\ filePath v = join folderPath (filename v)
         /\ vtitle v = getBaseName (filename v)
         /\ episodeNumber v = episode (extractSeasonAndEpisode (filename v))
         /\ seasonNumber v
            = match season (extractSeasonAndEpisode (filename v)) with
              | Some fromName => Some fromName
              | None =>
                match folderSeason with
                | Some given => Some given
                | None => extractSeasonNumber (pathBasename folderPath)
                end
              end
         /\ parentFolder v = pathBasename folderPath.
Proof.
  intros Hread Hres. destruct (scanned_videos_elem _ _ _ _ _ Hread Hres) as [Hnd Helem].
  split; [done|]. intros v Hv. apply Helem in Hv as (entry & Hin & Hvid & ->).
  apply isVideoEntry_spec in Hvid as (stats & Hstat & Hfile & Hvideo).
  by exists stats.
Qed.

(** X10. The scan misses no video: every entry of a readable folder that can be
    stat-ed, is a file and has a video extension has a record, and exactly
    one, also when [readdir] lists the entry more than once. *)
Theorem scan_finds_every_video_file {S} (folderPath : jsstring) (folderSeason : option N)
    (entries : list jsstring) (s : S) (vids : list VideoFile) (entry : jsstring)
    (stats : Stats) :
  readdir folderPath = inr entries ->
  result (scanFolderForVideos folderPath folderSeason s) = inr vids ->
  entry ∈ entries ->
  stat (join folderPath entry) = inr stats -> isFile stats = true ->
  isVideoFile entry = true ->
  exists v,
    v ∈ vids /\ filename v = entry
    /\ forall v', v' ∈ vids -> filename v' = entry -> v' = v.
Proof.
  intros Hread Hres Hin Hstat Hfile Hvideo.
  destruct (scanned_videos_elem _ _ _ _ _ Hread Hres) as [Hnd Helem].
  assert (Hvid : isVideoEntry folderPath entry = true)
    by (apply isVideoEntry_spec; by exists stats).
  exists (scannedVideo folderPath folderSeason entries entry). split; [|split; [done|]].
  - apply Helem. by exists entry.
  - intros v' Hv' Hname. apply Helem in Hv' as (entry' & _ & _ & ->).
    cbn [scannedVideo filename] in Hname. by subst entry'.
Qed.

(** X11. The subtitles of a video: the paths of the entries of the folder that
    can be stat-ed, are files with a subtitle extension and have the base
    name of the video, in the order of the entries; the primary subtitle is
    the first of them. *)
Theorem scanned_subtitles_match_base_name {S} (folderPath : jsstring)
    (folderSeason : option N) (entries : list jsstring) (s : S) (vids : list VideoFile)
    (v : VideoFile) :
  readdir folderPath = inr entries ->
  result (scanFolderForVideos folderPath folderSeason s) = inr vids ->
  v ∈ vids ->
  subtitlePaths v
  = List.map (join folderPath)
      (List.filter (fun e => isSubtitleEntry folderPath e
                             && bool_decide (getBaseName e = getBaseName (filename v)))
                   entries)
  /\ subtitlePath v = head (subtitlePaths v)
  /\ forall e, isSubtitleEntry folderPath e = true <->
       exists stats,
         stat (join folderPath e) = inr stats /\ isFile stats = true
         /\ isVideoFile e = false /\ isSubtitleFile e = true.
Proof.
  intros Hread Hres Hv. destruct (scanned_videos_elem _ _ _ _ _ Hread Hres) as [_ Helem].
  apply Helem in Hv as (entry & Hin & Hvid & ->). split; [done|]. split; [done|].
  intros e. unfold isSubtitleEntry. destruct (stat (join folderPath e)) as [err|stats].
  - split; [done|]. by intros (stats & [=] & _).
  - rewrite !andb_true_iff, negb_true_iff. split.
    + intros [[? ?] ?]. by exists stats.
    + by intros (stats' & [= <-] & ? & ? & ?).
Qed.

(** ** The order of the files of a series *)

Lemma videoLe_fileOrder (a b : VideoFile) : videoLe a b = true <-> fileOrder a b.
Proof.
  unfold videoLe, fileOrder.
  destruct (N.eqb_spec (default 0 (seasonNumber a)) (default 0 (seasonNumber b))) as [Heq|Hne];
    cbn [negb].
  - rewrite Heq. split.
    + intros H. right. split; [done|].
      destruct (episodeNumber a ?= episodeNumber b)%Q eqn:Hc; [| |done].
      * apply Qeq_alt in Hc. rewrite Hc. apply Qle_refl.
      * apply Qlt_alt in Hc. by apply Qlt_le_weak.
    + intros [H|[_ H]]; [lia|].
      destruct (episodeNumber a ?= episodeNumber b)%Q eqn:Hc; [done|done|].
      apply Qgt_alt in Hc. exfalso. by apply (Qlt_not_le _ _ Hc).
  - rewrite N.ltb_lt. split; [by left|]. intros [H|[H _]]; done.
Qed.

Lemma fileOrder_total (a b : VideoFile) : videoLe a b = false -> fileOrder b a.
Proof.
  intros H. unfold fileOrder.
  destruct (N.lt_trichotomy (default 0 (seasonNumber a)) (default 0 (seasonNumber b)))
    as [Hlt|[Heq|Hgt]].
  - assert (Hab : fileOrder a b) by (by left). apply videoLe_fileOrder in Hab. congruence.
  - right. split; [done|]. destruct (Qlt_le_dec (episodeNumber a) (episodeNumber b)) as [Hl|Hl]; [|done].
    assert (Hab : fileOrder a b) by (right; split; [done|by apply Qlt_le_weak]).
    apply videoLe_fileOrder in Hab. congruence.
  - by left.
Qed.

Lemma fileOrder_trans (a b c : VideoFile) : fileOrder a b -> fileOrder b c -> fileOrder a c.
Proof.
  unfold fileOrder. intros [H1|[H1 H1']] [H2|[H2 H2']].
  - left. lia.
  - left. lia.
  - left. lia.
  - right. split; [lia|]. by apply (Qle_trans _ (episodeNumber b)).
Qed.

Lemma insertVideo_elem (x y : VideoFile) (l : list VideoFile) :
  y ∈ insertVideo x l <-> y = x \/ y ∈ l.
Proof.
  induction l as [|z l IH]; simpl.
  - rewrite list_elem_of_singleton. split; [by left|]. intros [?|?%elem_of_nil]; done.
  - destruct (videoLe z x).
    + rewrite !elem_of_cons, IH.
      split; [intros [?|[?|?]]|intros [?|[?|?]]]; auto.
    + by rewrite elem_of_cons.
Qed.

Lemma insertVideo_perm (x : VideoFile) (l : list VideoFile) :
  Permutation (insertVideo x l) (x :: l).
Proof.
  induction l as [|z l IH]; simpl; [done|].
  destruct (videoLe z x); [|done]. rewrite IH. apply perm_swap.
Qed.

Lemma insertVideo_sorted (x : VideoFile) (l : list VideoFile) :
  StronglySorted fileOrder l -> StronglySorted fileOrder (insertVideo x l).
Proof.
  induction l as [|z l IH]; intros Hs; simpl.
  - constructor; [constructor|constructor].
  - apply StronglySorted_inv in Hs as [Hs Hz].
    destruct (videoLe z x) eqn:Hzx.
    + constructor; [by apply IH|]. apply Forall_forall. intros y Hy.
      apply insertVideo_elem in Hy as [->|Hy].
      * by apply videoLe_fileOrder.
      * rewrite Forall_forall in Hz. by apply Hz.
    + constructor; [by constructor|]. apply fileOrder_total in Hzx.
      constructor; [done|]. eapply Forall_impl; [exact Hz|].
      intros y Hy. by apply (fileOrder_trans _ z).
Qed.

Lemma foldl_insertVideo (l : list VideoFile) :
  forall acc,
    StronglySorted fileOrder acc ->
    StronglySorted fileOrder (foldl (fun acc x => insertVideo x acc) acc l)
    /\ Permutation (foldl (fun acc x => insertVideo x acc) acc l) (acc ++ l).
Proof.
  induction l as [|x l IH]; intros acc Hacc; simpl.
  - split; [done|]. by rewrite app_nil_r.
  - destruct (IH (insertVideo x acc)) as [Hs Hp]; [by apply insertVideo_sorted|].
    split; [done|]. rewrite Hp, insertVideo_perm. simpl. apply Permutation_middle.
Qed.

(** [files.sort(...)] orders the files and keeps each of them. *)
Lemma sortVideos_spec (l : list VideoFile) :
  StronglySorted fileOrder (sortVideos l) /\ Permutation (sortVideos l) l.
Proof. apply (foldl_insertVideo l []). constructor. Qed.

(** ** The units of a scan *)

Lemma collectSubDirs_result {S} (entryPath : jsstring) (subEntries : list jsstring) (s : S) :
  result (collectSubDirs entryPath subEntries s)
  = inr (List.filter (isDirEntry entryPath) subEntries).
Proof.
  unfold collectSubDirs, call. cbn [result]. rewrite result_bind.
  assert (Hbody : forall x st, result (collectSubDir entryPath x st) = inr tt).
  { intros x st. unfold collectSubDir. rewrite result_tryCatch, result_bind.
    unfold lift. cbn [result state]. destruct (stat (join entryPath x)) as [e|subStats]; [done|].
    by destruct (isDirectory subStats). }
  destruct (forEach_state subEntries (collectSubDir entryPath) Hbody []) as [Hr Hs].
  rewrite Hr, Hs. unfold getState. cbn [result]. f_equal. clear Hr Hs.
  assert (Hgen : forall st,
    foldl (fun s0 x => state (collectSubDir entryPath x s0)) st subEntries
    = st ++ List.filter (isDirEntry entryPath) subEntries); [|apply (Hgen [])].
  induction subEntries as [|x xs IH]; intros st; cbn [foldl List.filter].
  - by rewrite app_nil_r.
  - rewrite IH. unfold collectSubDir at 1, isDirEntry at 2.
    rewrite state_tryCatch, result_bind, state_bind. unfold lift. cbn [result state].
    destruct (stat (join entryPath x)) as [e|subStats]; [done|].
    destruct (isDirectory subStats); cbn [modify ret result state]; [|done].
    by rewrite <- app_assoc.
Qed.

Lemma scanFolderForVideos_folderVideos {S} (folder : jsstring) (folderSeason : option N)
    (s : S) :
  result (scanFolderForVideos folder folderSeason s) = inr (folderVideos folder folderSeason).
Proof.
  unfold folderVideos.
  destruct (scanFolderForVideos_total folder folderSeason tt) as [vids Hv].
  rewrite Hv. exact Hv.
Qed.

Lemma scanCategorySeries_state (entryPath subDir : jsstring) :
  state (scanCategorySeries entryPath subDir []) = subDirMedia entryPath subDir.
Proof.
  unfold scanCategorySeries, subDirMedia. rewrite state_bind.
  rewrite scanFolderForVideos_folderVideos.
  change (state (scanFolderForVideos (join entryPath subDir) (extractSeasonNumber subDir) []))
    with (@nil ScannedMedia).
  by destruct (folderVideos (join entryPath subDir) (extractSeasonNumber subDir)).
Qed.

Lemma scanCategorySeries_total (entryPath subDir : jsstring) (st : list ScannedMedia) :
  result (scanCategorySeries entryPath subDir st) = inr tt.
Proof.
  unfold scanCategorySeries. rewrite result_bind, scanFolderForVideos_folderVideos.
  by destruct (0 <? length (folderVideos _ _))%nat.
Qed.

Lemma state_tryCatch_console {S} (c : M E S unit) (h : E -> event E) (st : S) :
  state (tryCatch c (fun e => console (h e)) st) = state (c st).
Proof. unfold tryCatch. by destruct (result (c st)). Qed.

Lemma state_bind_lift {S A B} (r : E + A) (f : A -> M E S B) (st : S) :
  state (bind (lift r) f st) = match r with inl _ => st | inr a => state (f a st) end.
Proof. unfold bind, lift. cbn [result state]. by destruct r. Qed.

Lemma state_bind_scanFolderForVideos {S B} (folder : jsstring) (folderSeason : option N)
    (f : list VideoFile -> M E S B) (st : S) :
  state (bind (scanFolderForVideos folder folderSeason) f st)
  = state (f (folderVideos folder folderSeason) st).
Proof. unfold bind. by rewrite scanFolderForVideos_folderVideos. Qed.

Lemma state_bind_collectSubDirs {S B} (entryPath : jsstring) (subEntries : list jsstring)
    (f : list jsstring -> M E S B) (st : S) :
  state (bind (collectSubDirs entryPath subEntries) f st)
  = state (f (List.filter (isDirEntry entryPath) subEntries) st).
Proof. unfold bind. by rewrite collectSubDirs_result. Qed.

(** What the body of the loop over the root adds for an entry. *)
Lemma entryMedia_unitsOfEntry (rootPath entry : jsstring) :
  entryMedia rootPath entry = unitsOfEntry rootPath entry.
Proof.
  unfold entryMedia, unitsOfEntry, scanRootEntry.
  rewrite (state_tryCatch_console _ (fun err => CouldNotProcess (join rootPath entry) err)).
  rewrite state_bind_lift.
  destruct (stat (join rootPath entry)) as [e|stats]; [done|].
  destruct (isDirectory stats).
  - rewrite state_bind_scanFolderForVideos, state_bind_lift.
    destruct (readdir (join rootPath entry)) as [e|subEntries]; [done|].
    rewrite state_bind_collectSubDirs.
    destruct (folderVideos (join rootPath entry) None) as [|v vs].
    + cbn [length Nat.eqb Nat.ltb Nat.leb andb].
      destruct (List.filter (isDirEntry (join rootPath entry)) subEntries) as [|d ds] eqn:Hdirs;
        [done|].
      cbn [length Nat.ltb Nat.leb andb].
      rewrite state_bind.
      rewrite (forEach_appending (d :: ds) (scanCategorySeries (join rootPath entry)));
        [|apply appending_scanCategorySeries|intros; apply scanCategorySeries_total].
      cbn [result state app ret].
      f_equal. apply map_ext. intros subDir. apply scanCategorySeries_state.
    + cbn [length Nat.eqb Nat.ltb Nat.leb andb].
      rewrite andb_false_r. done.
  - destruct (isFile stats && isVideoFile entry); done.
Qed.

(** A scan returns the units of the entries of the root, in their order. *)
Lemma scanDirectory_units {S} (rootPath : jsstring) (entries : list jsstring) (s : S) :
  readdir rootPath = inr entries ->
  result (scanDirectory rootPath s) = inr (concat (List.map (unitsOfEntry rootPath) entries)).
Proof.
  intros Hread. rewrite (scanDirectory_readable_root _ entries) by done. cbn [result].
  do 2 f_equal. apply map_ext. intros entry. apply entryMedia_unitsOfEntry.
Qed.

(** The videos of a folder are video files that lie in the folder, of
    distinct paths. *)
Lemma folderVideos_spec (folder : jsstring) (folderSeason : option N) :
  NoDup (List.map filePath (folderVideos folder folderSeason))
  /\ forall v, v ∈ folderVideos folder folderSeason ->
       isVideoFile (filename v) = true
       /\ filePath v = join folder (filename v)
       /\ parentFolder v = pathBasename folder
       /\ exists stats, stat (filePath v) = inr stats /\ isFile stats = true.
Proof.
  destruct (readdir folder) as [e|entries] eqn:Hread.
  - unfold folderVideos. rewrite (scanFolderForVideos_unreadable _ _ e) by done.
    cbn [result List.map]. split; [constructor|]. intros v Hv. by apply elem_of_nil in Hv.
  - pose proof (scanFolderForVideos_folderVideos folder folderSeason tt) as Hres.
    destruct (scanned_videos_elem _ _ _ _ _ Hread Hres) as [Hnd Helem].
    split; [done|]. intros v Hv. apply Helem in Hv as (entry & Hin & Hvid & ->).
    apply isVideoEntry_spec in Hvid as (stats & Hstat & Hfile & Hvideo).
    cbn [scannedVideo filename filePath parentFolder]. repeat split; try done.
    by exists stats.
Qed.

(** The unit of a folder that holds videos has them as its files, in
    order. *)
Lemma seriesOfFolder_files (folder folderName : jsstring) (folderSeason : option N) :
  folderVideos folder folderSeason <> [] ->
  let u := seriesOfFolder folder folderName (folderVideos folder folderSeason) in
  files u <> []
  /\ StronglySorted fileOrder (files u)
  /\ NoDup (List.map filePath (files u))
  /\ forall v, v ∈ files u ->
       isVideoFile (filename v) = true
       /\ filePath v = join (folderPath u) (filename v)
       /\ parentFolder v = pathBasename (folderPath u)
       /\ exists stats, stat (filePath v) = inr stats /\ isFile stats = true.
Proof.
  intros Hne u. unfold u, seriesOfFolder. cbn [files folderPath].
  destruct (sortVideos_spec (folderVideos folder folderSeason)) as [Hsorted Hperm].
  destruct (folderVideos_spec folder folderSeason) as [Hnd Helem].
  split; [|split; [done|split]].
  - intros Hnil. rewrite Hnil in Hperm. apply Permutation_nil in Hperm. by apply Hne.
  - by rewrite Hperm.
  - intros v Hv. rewrite Hperm in Hv. by apply Helem.
Qed.

Lemma unitsOfEntry_cases (rootPath entry : jsstring) (u : ScannedMedia) :
  u ∈ unitsOfEntry rootPath entry <->
  exists stats,
    stat (join rootPath entry) = inr stats
    /\ ((isDirectory stats = false /\ isFile stats = true /\ isVideoFile entry = true
         /\ u = movieOfRootFile rootPath entry)
        \/ (isDirectory stats = true
            /\ exists subEntries,
                 readdir (join rootPath entry) = inr subEntries
                 /\ ((folderVideos (join rootPath entry) None <> []
                      /\ u = seriesOfFolder (join rootPath entry) entry
                               (folderVideos (join rootPath entry) None))
                     \/ (folderVideos (join rootPath entry) None = []
                         /\ exists subDir,
                              subDir ∈ subEntries
                              /\ isDirEntry (join rootPath entry) subDir = true
                              /\ folderVideos (join (join rootPath entry) subDir)
                                              (extractSeasonNumber subDir) <> []
                              /\ u = seriesOfFolder (join (join rootPath entry) subDir) subDir
                                       (folderVideos (join (join rootPath entry) subDir)
                                                     (extractSeasonNumber subDir)))))).
Proof.
  unfold unitsOfEntry.
  destruct (stat (join rootPath entry)) as [e|stats].
  { split; [by intros ?%elem_of_nil|]. by intros (stats & ? & _). }
  destruct (isDirectory stats) eqn:Hdir.
  - destruct (readdir (join rootPath entry)) as [e|subEntries].
    { split; [by intros ?%elem_of_nil|].
      intros (stats' & Hst & Hcases). injection Hst as <-.
      destruct Hcases as [(? & _)|(_ & subEntries & ? & _)]; [congruence|done]. }
    destruct (folderVideos (join rootPath entry) None) as [|v vs] eqn:Hvids.
    + split.
      * intros Hin. apply list_elem_of_In, in_concat in Hin as (l & Hl & Hu).
        apply in_map_iff in Hl as (subDir & <- & Hsub).
        apply list_elem_of_In in Hsub, Hu. apply elem_of_List_filter in Hsub as [Hsdir Hsub].
        unfold subDirMedia in Hu.
        destruct (folderVideos (join (join rootPath entry) subDir) (extractSeasonNumber subDir))
          as [|w ws] eqn:Hsubvids; [by apply elem_of_nil in Hu|].
        apply list_elem_of_singleton in Hu as ->.
        exists stats. split; [done|]. right. split; [done|]. exists subEntries.
        split; [done|]. right. split; [done|]. exists subDir. by rewrite Hsubvids.
      * intros (stats' & Hst & Hcases). injection Hst as <-.
        destruct Hcases as [(? & _)|(_ & subEntries' & Hread & Hcases)]; [congruence|].
        injection Hread as <-.
        destruct Hcases as [[? _]|(_ & subDir & Hsub & Hsdir & Hne & ->)]; [done|].
        apply list_elem_of_In, in_concat. exists (subDirMedia (join rootPath entry) subDir).
        split.
        -- apply in_map_iff. exists subDir. split; [done|].
           apply list_elem_of_In, elem_of_List_filter. by split.
        -- apply list_elem_of_In. unfold subDirMedia.
           destruct (folderVideos (join (join rootPath entry) subDir) (extractSeasonNumber subDir));
             [done|]. by apply list_elem_of_singleton.
    + rewrite list_elem_of_singleton. split.
      * intros ->. exists stats. split; [done|]. right. split; [done|]. exists subEntries.
        split; [done|]. by left.
      * intros (stats' & Hst & Hcases). injection Hst as <-.
        destruct Hcases as [(? & _)|(_ & subEntries' & Hread & Hcases)]; [congruence|].
        by destruct Hcases as [[_ ->]|(? & _)].
  - destruct (isFile stats && isVideoFile entry) eqn:Hfile.
    + rewrite list_elem_of_singleton. apply andb_true_iff in Hfile as [Hf Hv]. split.
      * intros ->. exists stats. split; [done|]. by left.
      * intros (stats' & Hst & Hcases). injection Hst as <-.
        destruct Hcases as [(_ & _ & _ & ->)|(? & _)]; [done|congruence].
    + split; [by intros ?%elem_of_nil|].
      intros (stats' & Hst & Hcases). injection Hst as <-.
      destruct Hcases as [(_ & Hf & Hv & _)|(? & _)]; [|congruence].
      by rewrite Hf, Hv in Hfile.
Qed.

(** The units of a scan come from the entries of the root. *)
Lemma scanDirectory_elem {S} (rootPath : jsstring) (s : S) (units : list ScannedMedia)
    (u : ScannedMedia) :
  result (scanDirectory rootPath s) = inr units ->
  u ∈ units <->
  exists entries entry,
    readdir rootPath = inr entries /\ entry ∈ entries /\ u ∈ unitsOfEntry rootPath entry.
Proof.
  intros Hres. destruct (readdir rootPath) as [e|entries] eqn:Hread.
  { by rewrite (scanDirectory_unreadable_root _ e) in Hres. }
  rewrite (scanDirectory_units _ entries) in Hres by done. injection Hres as <-.
  split.
  - intros Hin. apply list_elem_of_In, in_concat in Hin as (l & Hl & Hu).
    apply in_map_iff in Hl as (entry & <- & Hentry).
    apply list_elem_of_In in Hentry, Hu. by exists entries, entry.
  - intros (entries' & entry & Heq & Hentry & Hu). injection Heq as <-.
    apply list_elem_of_In, in_concat. exists (unitsOfEntry rootPath entry).
    split; [|by apply list_elem_of_In].
    apply in_map_iff. exists entry. split; [done|]. by apply list_elem_of_In.
Qed.

(** What holds of the files of every unit of an entry. *)
Lemma unitsOfEntry_files (rootPath entry : jsstring) (u : ScannedMedia) :
  u ∈ unitsOfEntry rootPath entry ->
  files u <> []
  /\ StronglySorted fileOrder (files u)
  /\ NoDup (List.map filePath (files u))
  /\ forall v, v ∈ files u ->
       isVideoFile (filename v) = true
       /\ filePath v = join (folderPath u) (filename v)
       /\ parentFolder v = pathBasename (folderPath u)
       /\ exists stats, stat (filePath v) = inr stats /\ isFile stats = true.
Proof.
  intros Hu. apply unitsOfEntry_cases in Hu as (stats & Hstat & Hcases).
  destruct Hcases as [(Hdir & Hfile & Hvideo & ->)
                     |(Hdir & subEntries & Hread
                       & [[Hne ->]|(_ & subDir & _ & _ & Hne & ->)])].
  - unfold movieOfRootFile. cbn [files folderPath List.map].
    split; [done|]. split; [repeat constructor|]. split.
    + apply NoDup_singleton.
    + intros v Hv. apply list_elem_of_singleton in Hv as ->.
      cbn [filename filePath parentFolder]. repeat split; try done. by exists stats.
  - by apply seriesOfFolder_files.
  - by apply seriesOfFolder_files.
Qed.

(** X12. Every unit that a scan returns has at least one file. Its files are
    video files that lie directly in the folder of the unit: each has a
    video extension, the path of the folder joined with its name, and was
    stat-ed as a file; no two of them have the same path. *)
Theorem scanned_units_hold_video_files {S} (rootPath : jsstring) (s : S)
    (units : list ScannedMedia) (u : ScannedMedia) :
  result (scanDirectory rootPath s) = inr units ->
  u ∈ units ->
  files u <> []
  /\ NoDup (List.map filePath (files u))
  /\ forall v, v ∈ files u ->
       isVideoFile (filename v) = true
       /\ filePath v = join (folderPath u) (filename v)
       /\ parentFolder v = pathBasename (folderPath u)
       /\ exists stats, stat (filePath v) = inr stats /\ isFile stats = true.
Proof.
  intros Hres Hu. apply (scanDirectory_elem _ _ _ _ Hres) in Hu as (entries & entry & _ & _ & Hu).
  apply unitsOfEntry_files in Hu as (Hne & _ & Hnd & Hfiles). done.
Qed.

(** X13. The files of every unit that a scan returns are in order: by
    season, a file without season counting as season 0, and by episode
    within a season. *)
Theorem scanned_unit_files_are_sorted {S} (rootPath : jsstring) (s : S)
    (units : list ScannedMedia) (u : ScannedMedia) :
  result (scanDirectory rootPath s) = inr units ->
  u ∈ units ->
  StronglySorted fileOrder (files u).
Proof.
  intros Hres Hu. apply (scanDirectory_elem _ _ _ _ Hres) in Hu as (entries & entry & _ & _ & Hu).
  by apply unitsOfEntry_files in Hu as (_ & Hsorted & _).
Qed.

(** X14. The movies of a scan are exactly the video files that lie directly
    in the root: an entry of the root that is a file with a video extension
    gives a movie of that one file, without season, part or subtitles, in
    the root folder; and every movie is one of these. A video inside a
    directory never gives a movie. *)
Theorem movies_are_the_video_files_of_the_root {S} (rootPath : jsstring)
    (entries : list jsstring) (s : S) (units : list ScannedMedia) (u : ScannedMedia) :
  readdir rootPath = inr entries ->
  result (scanDirectory rootPath s) = inr units ->
  (u ∈ units /\ type u = movie) <->
  exists entry stats,
    entry ∈ entries
    /\ stat (join rootPath entry) = inr stats
    /\ isDirectory stats = false /\ isFile stats = true /\ isVideoFile entry = true
    /\ u = mkScannedMedia (movieIdOf (cleanMovieTitle entry)) (cleanMovieTitle entry) movie
             rootPath
             [mkVideoFile entry (join rootPath entry) (getBaseName entry)
                          (episode (extractSeasonAndEpisode entry)) None None []
                          (pathBasename rootPath)]
             None None.
Proof.
  intros Hread Hres. rewrite (scanDirectory_elem _ _ _ u Hres). split.
  - intros [(entries' & entry & Heq & Hentry & Hu) Hmovie].
    rewrite Hread in Heq. injection Heq as <-.
    apply unitsOfEntry_cases in Hu as (stats & Hstat & Hcases).
    destruct Hcases as [(Hdir & Hfile & Hvideo & ->)
                       |(Hdir & subEntries & _
                         & [[Hne ->]|(_ & subDir & _ & _ & Hne & ->)])]; [|done|done].
    by exists entry, stats.
  - intros (entry & stats & Hentry & Hstat & Hdir & Hfile & Hvideo & ->).
    split; [|done]. exists entries, entry. split; [done|]. split; [done|].
    apply unitsOfEntry_cases. exists stats. split; [done|]. by left.
Qed.

(** X15. A directory of the root that holds videos itself gives one series
    and nothing else, whatever else it holds: its sub-directories are not
    scanned. The series has the videos of the directory as its files, its
    name from their names, and its season and part from the name of the
    directory. *)
Theorem folder_with_videos_is_one_series (rootPath entry : jsstring) (stats : Stats) :
  stat (join rootPath entry) = inr stats ->
  isDirectory stats = true ->
  folderVideos (join rootPath entry) None <> [] ->
  entryMedia rootPath entry
  = [seriesOfFolder (join rootPath entry) entry (folderVideos (join rootPath entry) None)].
Proof.
  intros Hstat Hdir Hne. rewrite entryMedia_unitsOfEntry. unfold unitsOfEntry.
  rewrite Hstat, Hdir.
  destruct (readdir (join rootPath entry)) as [e|subEntries] eqn:Hread.
  { exfalso. apply Hne. unfold folderVideos.
    by rewrite (scanFolderForVideos_unreadable _ _ e). }
  by destruct (folderVideos (join rootPath entry) None).
Qed.

(** X16. A directory of the root that holds no video itself is a category:
    its units are the series of its sub-directories that hold videos, one
    for each, and nothing else. So a scan goes two levels below the root
    and no further, and a category gives no movie. *)
Theorem category_units_are_series_of_subfolders (rootPath entry : jsstring) (stats : Stats)
    (subEntries : list jsstring) (u : ScannedMedia) :
  stat (join rootPath entry) = inr stats ->
  isDirectory stats = true ->
  readdir (join rootPath entry) = inr subEntries ->
  folderVideos (join rootPath entry) None = [] ->
  u ∈ entryMedia rootPath entry <->
  exists subDir subStats,
    subDir ∈ subEntries
    /\ stat (join (join rootPath entry) subDir) = inr subStats
    /\ isDirectory subStats = true
    /\ folderVideos (join (join rootPath entry) subDir) (extractSeasonNumber subDir) <> []
    /\ u = seriesOfFolder (join (join rootPath entry) subDir) subDir
             (folderVideos (join (join rootPath entry) subDir) (extractSeasonNumber subDir)).
Proof.
  intros Hstat Hdir Hread Hnone. rewrite entryMedia_unitsOfEntry, unitsOfEntry_cases. split.
  - intros (stats' & Hst & Hcases). rewrite Hstat in Hst. injection Hst as <-.
    destruct Hcases as [(? & _)|(_ & subEntries' & Hread' & Hcases)]; [congruence|].
    rewrite Hread in Hread'. injection Hread' as <-.
    destruct Hcases as [[? _]|(_ & subDir & Hsub & Hsdir & Hne & ->)]; [done|].
    unfold isDirEntry in Hsdir.
    destruct (stat (join (join rootPath entry) subDir)) as [e|subStats] eqn:Hsstat; [done|].
    by exists subDir, subStats.
  - intros (subDir & subStats & Hsub & Hsstat & Hsdir & Hne & ->).
    exists stats. split; [done|]. right. split; [done|]. exists subEntries. split; [done|].
    right. split; [done|]. exists subDir. unfold isDirEntry. by rewrite Hsstat.
Qed.

(** ** The loop of the handler over the scanned units *)

(** A turn of the loop touches the record of its unit only. *)
Lemma processMedia_lookup_ne (existingMetadata newMetadata : gmap jsstring SeriesRecord)
    (media : ScannedMedia) (seriesId : jsstring) :
  id media <> seriesId ->
  processMedia existingMetadata newMetadata media !! seriesId = newMetadata !! seriesId.
Proof.
  intros Hne. unfold processMedia.
  destruct (length (files media) =? 0)%nat; [done|].
  destruct (checkCache (existingMetadata !! id media) media);
    destruct (existingMetadata !! id media);
    rewrite ?lookup_insert_ne, ?lookup_delete_ne, ?lookup_insert_ne by done; done.
Qed.

Lemma processMedia_no_files (existingMetadata newMetadata : gmap jsstring SeriesRecord)
    (media : ScannedMedia) :
  files media = [] -> processMedia existingMetadata newMetadata media = newMetadata.
Proof. intros Hf. unfold processMedia. by rewrite Hf. Qed.

(** After the loop, the record of an identifier is the one of the last unit
    of that identifier that has files; an identifier without such a unit has
    the record it had before the loop. *)
Lemma foldl_processMedia_lookup (existingMetadata : gmap jsstring SeriesRecord)
    (seriesId : jsstring) (scannedMedia : list ScannedMedia) :
  forall newMetadata,
    (exists before media after,
        scannedMedia = before ++ media :: after
        /\ id media = seriesId /\ files media <> []
        /\ (forall m, m ∈ after -> id m = seriesId -> files m = [])
        /\ foldl (processMedia existingMetadata) newMetadata scannedMedia !! seriesId
           = Some (recordOfUnit existingMetadata media))
    \/ ((forall m, m ∈ scannedMedia -> id m = seriesId -> files m = [])
        /\ foldl (processMedia existingMetadata) newMetadata scannedMedia !! seriesId
           = newMetadata !! seriesId).
Proof.
  induction scannedMedia as [|media rest IH]; intros newMetadata.
  - right. split; [|done]. by intros m Hm%elem_of_nil.
  - cbn [foldl].
    destruct (IH (processMedia existingMetadata newMetadata media))
      as [(before & media' & after & -> & Hid & Hfiles & Hafter & Hlook)|[Hnone Hlook]].
    + left. exists (media :: before), media', after. done.
    + destruct (decide (id media = seriesId)) as [Hid|Hid].
      * destruct (files media) as [|f fs] eqn:Hfiles.
        -- right. split.
           ++ intros m [->|Hm]%elem_of_cons Hm'; [done|by apply Hnone].
           ++ rewrite Hlook. by rewrite processMedia_no_files.
        -- left. exists [], media, rest. split; [done|]. split; [done|].
           split; [by rewrite Hfiles|]. split; [done|].
           rewrite Hlook, <- Hid. apply processMedia_lookup. by rewrite Hfiles.
      * right. split.
        -- intros m [->|Hm]%elem_of_cons Hm'; [done|by apply Hnone].
        -- rewrite Hlook. by apply processMedia_lookup_ne.
Qed.

(** The fields that every record of a unit takes from the scan. *)
Lemma recordOfUnit_scan_fields (existingMetadata : gmap jsstring SeriesRecord)
    (media : ScannedMedia) :
  r_seriesId (recordOfUnit existingMetadata media) = Some (id media)
  /\ r_fileEpisodes (recordOfUnit existingMetadata media)
     = Some (List.map fileEpisodeOf (files media))
  /\ r_folderPath (recordOfUnit existingMetadata media) = Some (folderPath media)
  /\ r_type (recordOfUnit existingMetadata media) = Some (type media).
Proof.
  unfold recordOfUnit.
  destruct (checkCache (existingMetadata !! id media) media) as [r| |] eqn:Hcheck.
  - unfold checkCache in Hcheck.
    destruct (existingMetadata !! id media) as [ex|]; [|done].
    destruct (truthy (r_title ex) && truthy (r_posterLocal ex)); [|done].
    match type of Hcheck with
    | context [titlesMatch ?a ?b] => destruct (titlesMatch a b)
    end; cbn [negb andb] in Hcheck; [|by destruct (3 <=? _)%nat].
    by injection Hcheck as <-.
  - unfold refetchedRecord. by destruct (fetchMetadata media) as [[fetched source]|].
  - unfold refetchedRecord. by destruct (fetchMetadata media) as [[fetched source]|].
Qed.

Lemma saved_lookup (scannedMedia : list ScannedMedia)
    (existingMetadata : gmap jsstring SeriesRecord) (seriesId : jsstring) :
  saveMetadata (cleanMetadata (reconcile scannedMedia existingMetadata)) !! seriesId
  = match reconcile scannedMedia existingMetadata !! seriesId with
    | Some record => if hasFileEpisodes record then Some record else None
    | None => None
    end.
Proof.
  unfold saveMetadata.
  destruct (reconcile scannedMedia existingMetadata !! seriesId) as [record|] eqn:Hrec.
  - destruct (hasFileEpisodes record) eqn:Hhas.
    + apply cleanMetadata_lookup. split; [|done]. by apply cleanMetadata_lookup.
    + destruct (cleanMetadata (cleanMetadata _) !! seriesId) as [record'|] eqn:Hl; [|done].
      apply cleanMetadata_lookup in Hl as [Hl Hhas'].
      apply cleanMetadata_lookup in Hl as [Hl _]. congruence.
  - destruct (cleanMetadata (cleanMetadata _) !! seriesId) as [record'|] eqn:Hl; [|done].
    apply cleanMetadata_lookup in Hl as [Hl Hhas'].
    apply cleanMetadata_lookup in Hl as [Hl _]. congruence.
Qed.

Lemma reconcile_lookup (scannedMedia : list ScannedMedia)
    (existingMetadata : gmap jsstring SeriesRecord) (seriesId : jsstring) :
  reconcile scannedMedia existingMetadata !! seriesId
  = match foldl (processMedia existingMetadata) ∅ scannedMedia !! seriesId with
    | Some record => Some record
    | None => existingMetadata !! seriesId
    end.
Proof.
  unfold reconcile, mergeMetadata. rewrite lookup_union.
  destruct (foldl _ _ _ !! seriesId) as [r|]; destruct (existingMetadata !! seriesId); done.
Qed.

(** X17. A scan leaves the records of the series it did not find as they
    are: the record of an identifier that no scanned unit with files has is
    saved unchanged when it lists at least one file episode, and is dropped
    when it lists none. No record is removed because its series was not
    found in the scanned folder. *)
Theorem records_of_other_series_are_kept (folderPath : jsstring)
    (existingMetadata saved : gmap jsstring SeriesRecord) (scannedMedia : list ScannedMedia)
    (seriesId : jsstring) :
  result (scanFolder folderPath tt) = inr scannedMedia ->
  scanAndFetchMetadata folderPath existingMetadata = inr saved ->
  (forall media, media ∈ scannedMedia -> id media = seriesId -> files media = []) ->
  saved !! seriesId
  = match existingMetadata !! seriesId with
    | Some record => if hasFileEpisodes record then Some record else None
    | None => None
    end.
Proof.
  intros Hscan Hsaved Hnone. unfold scanAndFetchMetadata in Hsaved.
  rewrite Hscan in Hsaved. injection Hsaved as <-.
  rewrite saved_lookup, reconcile_lookup.
  destruct (foldl_processMedia_lookup existingMetadata seriesId scannedMedia ∅)
    as [(before & media & after & -> & Hid & Hfiles & _)|[_ Hlook]].
  - exfalso. apply Hfiles. apply Hnone; [|done]. apply elem_of_app. right. by left.
  - rewrite Hlook, lookup_empty. done.
Qed.

(** X18. Every scanned unit that has files, and whose identifier is not a
    property name of [Object.prototype] (as [__proto__], which a plain
    object does not store as an entry), is saved under its identifier. The
    saved record is the one of the last scanned unit of that identifier that
    has files; it carries the identifier, and the file episodes, the folder
    and the type of that unit, whether its metadata came from the cache,
    from a provider or from the files alone. *)
Theorem scanned_units_are_saved (root : jsstring)
    (existingMetadata saved : gmap jsstring SeriesRecord) (scannedMedia : list ScannedMedia)
    (media : ScannedMedia) :
  result (scanFolder root tt) = inr scannedMedia ->
  scanAndFetchMetadata root existingMetadata = inr saved ->
  media ∈ scannedMedia ->
  files media <> [] ->
  id media ∉ objectPrototypeKeys ->
  exists before lastUnit after,
    scannedMedia = before ++ lastUnit :: after
    /\ id lastUnit = id media /\ files lastUnit <> []
    /\ (forall m, m ∈ after -> id m = id media -> files m = [])
    /\ saved !! id media = Some (recordOfUnit existingMetadata lastUnit)
    /\ r_seriesId (recordOfUnit existingMetadata lastUnit) = Some (id media)
    /\ r_fileEpisodes (recordOfUnit existingMetadata lastUnit)
       = Some (List.map fileEpisodeOf (files lastUnit))
    /\ r_folderPath (recordOfUnit existingMetadata lastUnit) = Some (folderPath lastUnit)
    /\ r_type (recordOfUnit existingMetadata lastUnit) = Some (type lastUnit).
Proof.
  intros Hscan Hsaved Hin Hfiles _. unfold scanAndFetchMetadata in Hsaved.
  rewrite Hscan in Hsaved. injection Hsaved as <-.
  destruct (foldl_processMedia_lookup existingMetadata (id media) scannedMedia ∅)
    as [(before & lastUnit & after & -> & Hid & Hlast & Hafter & Hlook)|[Hnone _]].
  - exists before, lastUnit, after.
    destruct (recordOfUnit_scan_fields existingMetadata lastUnit) as (Hf1 & Hf2 & Hf3 & Hf4).
    rewrite Hid in Hf1. repeat split; try done.
    rewrite saved_lookup, reconcile_lookup, Hlook.
    unfold hasFileEpisodes. rewrite Hf2. by destruct (files lastUnit).
  - exfalso. by apply Hfiles, Hnone.
Qed.

(** ** The episodes of a record built anew *)

(** X19. No fractional episode of the folder is missing from a record that
    is built anew: every file whose episode number is not an integer has an
    entry of that number among the episodes of the record, listed by the
    provider or added for the file. A record built from the files alone
    lists the episode numbers of the files, one entry for each file, in
    their order. *)
Theorem fractional_episodes_are_listed (media : ScannedMedia) :
  (forall f, f ∈ files media -> isInteger (episodeNumber f) = false ->
     exists ep, ep ∈ r_episodes (refetchedRecord media)
                /\ (ep_episodeNumber ep == episodeNumber f)%Q)
  /\ (fetchMetadata media = None ->
        List.map ep_episodeNumber (r_episodes (refetchedRecord media))
        = List.map episodeNumber (files media)
        /\ List.map ep_seasonNumber (r_episodes (refetchedRecord media))
           = List.map seasonNumber (files media)).
Proof.
  unfold refetchedRecord. split.
  - intros f Hf Hfrac. destruct (fetchMetadata media) as [[fetched source]|].
    + unfold fetchedRecord. cbn [r_episodes].
      set (withThumbs := List.map _ (sm_episodes fetched)).
      destruct (existsb (fun ep => Qeq_bool (ep_episodeNumber ep) (episodeNumber f)) withThumbs)
        eqn:Hlisted.
      * apply existsb_exists in Hlisted as (ep & Hep & Heq).
        exists ep. split; [|by apply Qeq_bool_iff].
        apply elem_of_app. left. by apply list_elem_of_In.
      * eexists. split.
        -- apply elem_of_app. right. unfold decimalEpisodes.
           apply list_elem_of_In, in_map_iff. exists f. split; [reflexivity|].
           apply filter_In. split; [by apply list_elem_of_In|].
           by rewrite Hfrac, Hlisted.
        -- cbn [ep_episodeNumber]. reflexivity.
    + unfold localRecord. cbn [r_episodes]. eexists. split.
      * apply list_elem_of_In, in_map_iff. exists f. split; [reflexivity|].
        by apply list_elem_of_In.
      * cbn [ep_episodeNumber]. reflexivity.
  - intros ->. unfold localRecord. cbn [r_episodes]. by rewrite !List.map_map.
Qed.

(** ** The video that stands in for a thumbnail *)

Lemma keyEqb_spec (a b : EpisodeKey) :
  keyEqb a b = true <-> fst a = fst b /\ (snd a == snd b)%Q.
Proof.
  unfold keyEqb. by rewrite andb_true_iff, bool_decide_eq_true, Qeq_bool_iff.
Qed.

(** Every entry of the map of a list of files is the key and the path of
    one of the files, and the key of every file has an entry. *)
Lemma mapSet_elem (k : EpisodeKey) (v : jsstring) (l : list (EpisodeKey * jsstring))
    (k' : EpisodeKey) (v' : jsstring) :
  (k', v') ∈ mapSet k v l -> (k', v') ∈ l \/ (keyEqb k' k = true /\ v' = v).
Proof.
  induction l as [|[k0 v0] l IH]; cbn [mapSet].
  - intros [=-> ->]%list_elem_of_singleton. right.
    split; [|done]. apply keyEqb_spec. split; [done|]. apply Qeq_refl.
  - destruct (keyEqb k0 k) eqn:Hk.
    + intros [[=-> ->]|Hin]%elem_of_cons; [by right|]. left. by right.
    + intros [[=-> ->]|Hin]%elem_of_cons; [left; by left|].
      destruct (IH Hin) as [H|H]; [|by right]. left. by right.
Qed.

Lemma mapSet_has_key (k : EpisodeKey) (v : jsstring) (l : list (EpisodeKey * jsstring)) :
  exists k', (k', v) ∈ mapSet k v l /\ keyEqb k' k = true.
Proof.
  induction l as [|[k0 v0] l IH]; cbn [mapSet].
  - exists k. split; [by left|]. apply keyEqb_spec. split; [done|]. apply Qeq_refl.
  - destruct (keyEqb k0 k) eqn:Hk.
    + exists k0. split; [by left|done].
    + destruct IH as (k' & Hin & Hk'). exists k'. split; [by right|done].
Qed.

Lemma mapSet_keeps_keys (k : EpisodeKey) (v : jsstring) (l : list (EpisodeKey * jsstring))
    (k0 : EpisodeKey) (v0 : jsstring) :
  (k0, v0) ∈ l -> exists v', (k0, v') ∈ mapSet k v l.
Proof.
  induction l as [|[k1 v1] l IH]; cbn [mapSet]; [by intros ?%elem_of_nil|].
  intros [[=-> ->]|Hin]%elem_of_cons.
  - destruct (keyEqb k1 k); eexists; by left.
  - destruct (keyEqb k1 k).
    + exists v0. by right.
    + destruct (IH Hin) as [v' Hv']. exists v'. by right.
Qed.

Lemma fileEpisodeMapOf_spec (fs : list VideoFile) :
  (forall k v, (k, v) ∈ fileEpisodeMapOf fs ->
     exists f, f ∈ fs /\ keyEqb k (seasonNumber f, episodeNumber f) = true /\ v = filePath f)
  /\ (forall f, f ∈ fs ->
        exists k v, (k, v) ∈ fileEpisodeMapOf fs
                    /\ keyEqb k (seasonNumber f, episodeNumber f) = true).
Proof.
  unfold fileEpisodeMapOf.
  assert (Hgen : forall acc done,
    ((forall k v, (k, v) ∈ acc ->
        exists f, f ∈ done /\ keyEqb k (seasonNumber f, episodeNumber f) = true
                  /\ v = filePath f)
     /\ (forall f, f ∈ done ->
           exists k v, (k, v) ∈ acc /\ keyEqb k (seasonNumber f, episodeNumber f) = true)) ->
    let final := foldl (fun acc f => mapSet (seasonNumber f, episodeNumber f) (filePath f) acc)
                       acc fs in
    (forall k v, (k, v) ∈ final ->
        exists f, f ∈ done ++ fs /\ keyEqb k (seasonNumber f, episodeNumber f) = true
                  /\ v = filePath f)
    /\ (forall f, f ∈ done ++ fs ->
          exists k v, (k, v) ∈ final /\ keyEqb k (seasonNumber f, episodeNumber f) = true)).
  { induction fs as [|f fs IH]; intros acc done [H1 H2]; cbn [foldl].
    - rewrite app_nil_r. by split.
    - replace (done ++ f :: fs) with ((done ++ [f]) ++ fs) by (by rewrite <- app_assoc).
      apply IH. split.
      + intros k v Hin. apply mapSet_elem in Hin as [Hin|[Hk ->]].
        * destruct (H1 k v Hin) as (f' & Hf' & Hk & ->). exists f'.
          split; [|done]. apply elem_of_app. by left.
        * exists f. split; [|done]. apply elem_of_app. right. by left.
      + intros f' [Hf'|Hf']%elem_of_app.
        * destruct (H2 f' Hf') as (k & v & Hin & Hk).
          destruct (mapSet_keeps_keys (seasonNumber f, episodeNumber f) (filePath f) _ _ _ Hin)
            as [v' Hv'].
          by exists k, v'.
        * apply list_elem_of_singleton in Hf' as ->.
          destruct (mapSet_has_key (seasonNumber f, episodeNumber f) (filePath f) acc)
            as (k' & Hin & Hk').
          by exists k', (filePath f). }
  apply (Hgen [] []). split.
  - by intros k v Hin%elem_of_nil.
  - by intros f Hin%elem_of_nil.
Qed.

Lemma mapGet_Some (k : EpisodeKey) (l : list (EpisodeKey * jsstring)) (v : jsstring) :
  mapGet k l = Some v -> exists k', (k', v) ∈ l /\ keyEqb k' k = true.
Proof.
  unfold mapGet. destruct (List.find _ l) as [[k' v']|] eqn:Hfind; [|done].
  intros [= <-]. apply find_some in Hfind as [Hin Hk]. exists k'.
  split; [by apply list_elem_of_In|done].
Qed.

Lemma mapGet_None (k : EpisodeKey) (l : list (EpisodeKey * jsstring)) (k' : EpisodeKey)
    (v : jsstring) :
  mapGet k l = None -> (k', v) ∈ l -> keyEqb k' k = false.
Proof.
  unfold mapGet. destruct (List.find _ l) as [kv|] eqn:Hfind; [done|].
  intros _ Hin. apply list_elem_of_In in Hin. exact (find_none _ _ Hfind _ Hin).
Qed.

Lemma orNull_Some (o : option jsstring) (v : jsstring) :
  orNull o = Some v <-> o = Some v /\ v <> [].
Proof.
  unfold orNull, truthy. destruct o as [[|c t]|]; split; try done.
  - by intros [[= <-] ?].
  - by intros [= <-].
  - by intros [[= <-] ?].
  - by intros [? ?].
Qed.

Lemma keyEqb_trans (a b c : EpisodeKey) :
  keyEqb a b = true -> keyEqb b c = true -> keyEqb a c = true.
Proof.
  rewrite !keyEqb_spec. intros [H1 H2] [H3 H4]. split; [congruence|].
  by apply (Qeq_trans _ (snd b)).
Qed.

Lemma keyEqb_sym (a b : EpisodeKey) : keyEqb a b = true -> keyEqb b a = true.
Proof. rewrite !keyEqb_spec. intros [H1 H2]. split; [done|]. by apply Qeq_sym. Qed.

(** A lookup in the map of the files gives the path of a file of that
    season and episode. *)
Lemma mapGet_fileEpisodeMapOf (fs : list VideoFile) (k : EpisodeKey) (p : jsstring) :
  mapGet k (fileEpisodeMapOf fs) = Some p ->
  exists f, f ∈ fs /\ filePath f = p /\ seasonNumber f = fst k
            /\ (episodeNumber f == snd k)%Q.
Proof.
  intros Hget. apply mapGet_Some in Hget as (k' & Hin & Hk).
  apply (proj1 (fileEpisodeMapOf_spec fs)) in Hin as (f & Hf & Hkf & ->).
  exists f. split; [done|]. split; [done|].
  apply keyEqb_sym in Hkf. pose proof (keyEqb_trans _ _ _ Hkf Hk) as Hfk.
  apply keyEqb_spec in Hfk as [H1 H2]. done.
Qed.

Lemma videoPathFor_sound (fs : list VideoFile) (ep : EpisodeMetadata) (videoPath : jsstring) :
  videoPathFor (fileEpisodeMapOf fs) ep = Some videoPath ->
  videoPath <> []
  /\ exists f, f ∈ fs /\ filePath f = videoPath
               /\ (episodeNumber f == ep_episodeNumber ep)%Q.
Proof.
  unfold videoPathFor.
  destruct (orNull (mapGet (ep_seasonNumber ep, ep_episodeNumber ep) (fileEpisodeMapOf fs)))
    as [p1|] eqn:H1.
  { destruct (ep_seasonNumber ep); intros [= <-].
    - apply orNull_Some in H1 as [H1 Hne]. split; [done|].
      apply mapGet_fileEpisodeMapOf in H1 as (f & Hf & Hp & _ & Heq). by exists f.
    - apply orNull_Some in H1 as [H1 Hne]. split; [done|].
      apply mapGet_fileEpisodeMapOf in H1 as (f & Hf & Hp & _ & Heq). by exists f. }
  assert (Hthird : match List.find (fun kv => Qeq_bool (snd (fst kv)) (ep_episodeNumber ep))
                           (fileEpisodeMapOf fs) with
                   | Some kv => orNull (Some (snd kv))
                   | None => None
                   end = Some videoPath ->
                   videoPath <> []
                   /\ exists f, f ∈ fs /\ filePath f = videoPath
                                /\ (episodeNumber f == ep_episodeNumber ep)%Q).
  { destruct (List.find _ _) as [[k v]|] eqn:Hfind; [|done].
    intros [[= <-] Hne]%orNull_Some. split; [done|].
    apply find_some in Hfind as [Hin Hk]. apply list_elem_of_In in Hin.
    apply (proj1 (fileEpisodeMapOf_spec fs)) in Hin as (f & Hf & Hkf & ->).
    exists f. split; [done|]. split; [done|].
    apply keyEqb_spec in Hkf as [_ Hkf]. apply Qeq_bool_iff in Hk.
    cbn [fst snd] in *. by rewrite <- Hkf. }
  destruct (ep_seasonNumber ep) as [n|]; [|exact Hthird].
  destruct (orNull (mapGet (None, ep_episodeNumber ep) (fileEpisodeMapOf fs)))
    as [p2|] eqn:H2; [|exact Hthird].
  intros [= <-]. apply orNull_Some in H2 as [H2 Hne]. split; [done|].
  apply mapGet_fileEpisodeMapOf in H2 as (f & Hf & Hp & _ & Heq). by exists f.
Qed.

(** X20. The video that stands in for the thumbnail of a provider episode is
    a file of the unit with the episode number of that episode, and its path
    is not empty; its season may differ from the one of the episode. *)
Theorem thumbnail_video_has_the_episode_number (fs : list VideoFile) (ep : EpisodeMetadata)
    (videoPath : jsstring) :
  videoPathFor (fileEpisodeMapOf fs) ep = Some videoPath ->
  videoPath <> []
  /\ exists f, f ∈ fs /\ filePath f = videoPath
               /\ (episodeNumber f == ep_episodeNumber ep)%Q.
Proof. apply videoPathFor_sound. Qed.

(** X21. When no file has an empty path, a provider episode whose number is
    the episode number of a file gets a video for its thumbnail; and when a
    file has its season too, the video is a file of that season. *)
Theorem thumbnail_video_is_found (fs : list VideoFile) (ep : EpisodeMetadata) (f : VideoFile) :
  (forall f', f' ∈ fs -> filePath f' <> []) ->
  f ∈ fs ->
  (episodeNumber f == ep_episodeNumber ep)%Q ->
  exists found,
    found ∈ fs
    /\ (episodeNumber found == ep_episodeNumber ep)%Q
    /\ videoPathFor (fileEpisodeMapOf fs) ep = Some (filePath found)
    /\ (seasonNumber f = ep_seasonNumber ep -> seasonNumber found = ep_seasonNumber ep).
Proof.
  intros Hpaths Hf Heq.
  destruct (proj2 (fileEpisodeMapOf_spec fs) f Hf) as (k & v & Hin & Hk).
  destruct (decide (seasonNumber f = ep_seasonNumber ep)) as [Hseason|Hseason].
  - (* the first lookup succeeds *)
    assert (Hkey : keyEqb k (ep_seasonNumber ep, ep_episodeNumber ep) = true).
    { apply (keyEqb_trans _ _ _ Hk). apply keyEqb_spec. by split. }
    destruct (mapGet (ep_seasonNumber ep, ep_episodeNumber ep) (fileEpisodeMapOf fs))
      as [p|] eqn:Hget.
    + pose proof Hget as Hget'.
      apply mapGet_fileEpisodeMapOf in Hget' as (found & Hfound & <- & Hs & He).
      exists found. split; [done|]. split; [done|]. split; [|done].
      unfold videoPathFor. rewrite Hget.
      assert (Hor : orNull (Some (filePath found)) = Some (filePath found)).
      { apply orNull_Some. split; [done|]. by apply Hpaths. }
      rewrite Hor. by destruct (ep_seasonNumber ep).
    + by rewrite (mapGet_None _ _ _ _ Hget Hin) in Hkey.
  - (* some lookup succeeds *)
    destruct (videoPathFor (fileEpisodeMapOf fs) ep) as [p|] eqn:Hvp.
    + destruct (videoPathFor_sound _ _ _ Hvp) as (_ & found & Hfound & <- & He).
      by exists found.
    + exfalso. unfold videoPathFor in Hvp.
      assert (Hfind : exists kv,
                List.find (fun kv => Qeq_bool (snd (fst kv)) (ep_episodeNumber ep))
                          (fileEpisodeMapOf fs) = Some kv).
      { destruct (List.find _ _) as [kv|] eqn:Hfind; [by exists kv|]. exfalso.
        apply list_elem_of_In in Hin. pose proof (find_none _ _ Hfind _ Hin) as Hno.
        cbn [fst snd] in Hno. apply keyEqb_spec in Hk as [_ Hk]. cbn [snd] in Hk.
        assert (Hyes : Qeq_bool (snd k) (ep_episodeNumber ep) = true).
        { apply Qeq_bool_iff. by rewrite Hk. }
        congruence. }
      destruct Hfind as [[k' v'] Hfind]. rewrite Hfind in Hvp. cbn [snd] in Hvp.
      assert (Hor : orNull (Some v') = Some v').
      { apply orNull_Some. split; [done|].
        apply find_some in Hfind as [Hin' _]. apply list_elem_of_In in Hin'.
        apply (proj1 (fileEpisodeMapOf_spec fs)) in Hin' as (f' & Hf' & _ & ->).
        by apply Hpaths. }
      rewrite Hor in Hvp.
      destruct (orNull (mapGet (ep_seasonNumber ep, ep_episodeNumber ep) (fileEpisodeMapOf fs)));
        [by destruct (ep_seasonNumber ep)|].
      destruct (ep_seasonNumber ep); [|done].
      by destruct (orNull (mapGet (None, ep_episodeNumber ep) (fileEpisodeMapOf fs))).
Qed.

(** ** The retry loop around the episode request *)

Ltac retry_leaf Hcases :=
  split; intros x;
  (split;
  [ intros Hx;
    first
      [ discriminate Hx
      | injection Hx as <-;
        first
          [ exists 0%nat; split; [lia|]; repeat split; eauto;
            intros j Hj; exfalso; lia
          | exists 1%nat; split; [lia|]; repeat split; eauto;
            intros j Hj; assert (j = 0%nat) as -> by lia; eauto
          | exists 2%nat; split; [lia|]; repeat split; eauto;
            intros j Hj; assert (j = 0%nat \/ j = 1%nat) as [-> | ->] by lia; eauto
          | exists 3%nat; split; [lia|]; repeat split; eauto;
            intros j Hj;
            assert (j = 0%nat \/ j = 1%nat \/ j = 2%nat) as [-> | [-> | ->]] by lia; eauto ] ]
  | intros (k & Hk & Hatt & Hrest);
    destruct (Hcases k Hk) as [-> | [-> | [-> | ->]]];
    repeat match goal with
           | H : _ /\ _ |- _ => destruct H
           | H : forall j, (j < ?n)%nat -> _ |- _ =>
             pose proof (H 0%nat); pose proof (H 1%nat); pose proof (H 2%nat); clear H
           end;
    repeat match goal with
           | H : (?a < ?b)%nat -> _ |- _ =>
             first [ assert (a < b)%nat as Hlt by lia; specialize (H Hlt); clear Hlt
                   | clear H ]
           end;
    repeat match goal with
           | H : exists e, _ |- _ => destruct H as (? & ? & ?)
           | H : _ \/ _ |- _ => destruct H
           end;
    congruence ]).

(** X22. The episode request of the accepted candidate is made at most four
    times, and is repeated only after a rate-limit error: the loop returns
    the first answer that comes after rate-limit errors only, and throws the
    first error that is not a rate-limit error, or the fourth error. *)
Theorem episode_request_retry_policy (media : AniListMedia) (seasonNumber : option N) :
  let attempt k := getEpisodes k (media_id media) (media_episodes media) seasonNumber in
  let rateLimitedBefore k :=
    forall j, (j < k)%nat -> exists e, attempt j = inl e /\ isRateLimitError e = true in
  (forall episodes,
     getEpisodesWithRetry 3 media seasonNumber = inr episodes
     <-> exists k, (k <= 3)%nat /\ attempt k = inr episodes /\ rateLimitedBefore k)
  /\ (forall error,
        getEpisodesWithRetry 3 media seasonNumber = inl error
        <-> exists k, (k <= 3)%nat /\ attempt k = inl error
                      /\ (k = 3%nat \/ isRateLimitError error = false)
                      /\ rateLimitedBefore k).
Proof.
  intros attempt rateLimitedBefore. unfold rateLimitedBefore.
  cbn [getEpisodesWithRetry Nat.sub]. fold (attempt 0%nat) (attempt 1%nat) (attempt 2%nat)
    (attempt 3%nat).
  assert (Hcases : forall k, (k <= 3)%nat -> k = 0%nat \/ k = 1%nat \/ k = 2%nat \/ k = 3%nat)
    by lia.
  destruct (attempt 0%nat) as [e0|r0] eqn:H0; [|retry_leaf Hcases].
  destruct (isRateLimitError e0) eqn:R0; [|retry_leaf Hcases].
  destruct (attempt 1%nat) as [e1|r1] eqn:H1; [|retry_leaf Hcases].
  destruct (isRateLimitError e1) eqn:R1; [|retry_leaf Hcases].
  destruct (attempt 2%nat) as [e2|r2] eqn:H2; [|retry_leaf Hcases].
  destruct (isRateLimitError e2) eqn:R2; [|retry_leaf Hcases].
  destruct (attempt 3%nat) as [e3|r3] eqn:H3; retry_leaf Hcases.
Qed.

(** ** The episodes of the AniList provider *)

Lemma numberedEpisode_title (seasonNumber : option N) (i : N)
    (streamingEp : option StreamingEpisode) :
  ep_title (numberedEpisode seasonNumber i streamingEp) <> [].
Proof.
  unfold numberedEpisode. cbn [ep_title]. unfold orElse.
  by destruct (match streamingEp with Some ep => se_title ep | None => None end) as [[|c t]|].
Qed.

Lemma length_episodesUpTo (episodeCount : N) :
  N.of_nat (length (episodesUpTo episodeCount)) = episodeCount.
Proof. unfold episodesUpTo. rewrite length_map, length_seq. apply N2Nat.id. Qed.

Lemma numbered_episodes (seasonNumber : option N) (streamingEp : N -> option StreamingEpisode)
    (episodeCount : N) :
  let episodes :=
    List.map (fun i => numberedEpisode seasonNumber i (streamingEp i))
             (episodesUpTo episodeCount) in
  List.map ep_episodeNumber episodes
  = List.map numOfN (episodesUpTo (N.of_nat (length episodes)))
  /\ N.of_nat (length episodes) = episodeCount
  /\ forall ep, ep ∈ episodes -> ep_seasonNumber ep = seasonNumber /\ ep_title ep <> [].
Proof.
  intros episodes.
  assert (Hlen : N.of_nat (length episodes) = episodeCount).
  { unfold episodes. rewrite length_map. apply length_episodesUpTo. }
  split; [|split; [done|]].
  - rewrite Hlen. unfold episodes. rewrite List.map_map. by apply map_ext.
  - intros ep Hep. apply list_elem_of_In, in_map_iff in Hep as (i & <- & _).
    split; [done|]. apply numberedEpisode_title.
Qed.

(** X23. [getEpisodes] throws only a rate-limit error of its request. When
    it returns, the episodes are numbered 1, 2, ... without a gap, each has
    the season that was asked for and a title that is not empty; there are
    [totalEpisodes] of them when that count is known and not 0, also when
    the request failed. *)
Theorem getEpisodes_numbers_from_one (response : E + option (list StreamingEpisode))
    (totalEpisodes seasonNumber : option N) :
  (forall error,
     anilistGetEpisodes response totalEpisodes seasonNumber = inl error
     <-> response = inl error /\ isRateLimitError error = true)
  /\ (forall episodes,
        anilistGetEpisodes response totalEpisodes seasonNumber = inr episodes ->
        List.map ep_episodeNumber episodes
        = List.map numOfN (episodesUpTo (N.of_nat (length episodes)))
        /\ (forall ep, ep ∈ episodes -> ep_seasonNumber ep = seasonNumber /\ ep_title ep <> [])
        /\ (forall n, totalEpisodes = Some n -> n <> 0 -> N.of_nat (length episodes) = n)).
Proof.
  unfold anilistGetEpisodes. split.
  - intros error. destruct response as [e|streamingEpisodes].
    + destruct (isRateLimitError e) eqn:Hrate.
      * split; [by intros [= ->]|by intros [[= ->] _]].
      * split; [by destruct totalEpisodes as [[|n]|]|]. intros [[= ->] ?]. congruence.
    + split; [done|by intros [? _]].
  - intros episodes Hres.
    assert (Hshape : exists streamingEp episodeCount,
              episodes = List.map (fun i => numberedEpisode seasonNumber i (streamingEp i))
                                  (episodesUpTo episodeCount)
              /\ forall n, totalEpisodes = Some n -> n <> 0 -> episodeCount = n).
    { destruct response as [e|streamingEpisodes].
      - destruct (isRateLimitError e); [done|].
        destruct totalEpisodes as [[|n]|]; injection Hres as <-.
        + exists (fun _ => None), 0. split; [done|]. by intros n [= <-].
        + exists (fun _ => None), (N.pos n). split; [done|]. by intros n' [= <-].
        + exists (fun _ => None), 0. split; [done|]. by intros n.
      - injection Hres as <-. eexists (fun i => streamingGet i _), _. split; [reflexivity|].
        intros n -> Hn. by destruct n. }
    destruct Hshape as (streamingEp & episodeCount & -> & Htotal).
    destruct (numbered_episodes seasonNumber streamingEp episodeCount) as (Hnum & Hlen & Heps).
    split; [done|]. split; [done|]. intros n Hn Hn0. rewrite Hlen. by apply Htotal.
Qed.

(** ** The streaming map *)

Lemma streamingHas_get (epNum : N) (streamingMap : list (N * StreamingEpisode)) :
  streamingHas epNum streamingMap
  = match streamingGet epNum streamingMap with Some _ => true | None => false end.
Proof.
  unfold streamingHas, streamingGet.
  induction streamingMap as [|[k v] l IH]; [done|]. cbn [existsb List.find fst].
  by destruct (k =? epNum).
Qed.

Lemma streamingGet_app (epNum : N) (a b : list (N * StreamingEpisode)) :
  streamingGet epNum (a ++ b)
  = match streamingGet epNum a with
    | Some ep => Some ep
    | None => streamingGet epNum b
    end.
Proof.
  unfold streamingGet. induction a as [|[k v] a IH]; [done|]. cbn [app List.find fst].
  by destruct (k =? epNum).
Qed.

(** After the loop the map gives, for a number, the first streaming episode
    whose title has that number. *)
Lemma foldl_addByTitle_get (i : N) (eps : list StreamingEpisode) :
  forall acc,
    streamingGet i (foldl addByTitle acc eps)
    = match streamingGet i acc with
      | Some ep => Some ep
      | None => List.find (fun ep => bool_decide (streamingNumber ep = Some i)) eps
      end.
Proof.
  induction eps as [|ep eps IH]; intros acc; cbn [foldl List.find].
  - by destruct (streamingGet i acc).
  - rewrite IH. unfold addByTitle.
    destruct (streamingNumber ep) as [epNum|] eqn:Hnum.
    + rewrite streamingHas_get.
      destruct (streamingGet epNum acc) as [ep'|] eqn:Hhas.
      * destruct (streamingGet i acc) as [ep''|] eqn:Hget; [done|].
        rewrite bool_decide_eq_false_2; [done|]. intros [= ->]. congruence.
      * rewrite streamingGet_app. destruct (streamingGet i acc) as [ep''|] eqn:Hget; [done|].
        unfold streamingGet at 1. cbn [List.find fst snd].
        destruct (N.eqb_spec epNum i) as [->|Hne].
        -- by rewrite bool_decide_eq_true_2.
        -- rewrite bool_decide_eq_false_2; [done|]. by intros [= ->].
    + destruct (streamingGet i acc); [done|].
      by rewrite bool_decide_eq_false_2.
Qed.

Lemma foldl_addByTitle_empty (eps : list StreamingEpisode) :
  foldl addByTitle [] eps = [] <-> forall ep, ep ∈ eps -> streamingNumber ep = None.
Proof.
  assert (Hgrow : forall eps acc, acc <> [] -> foldl addByTitle acc eps <> []).
  { clear eps. induction eps as [|ep eps IH]; intros acc Hacc; [done|]. cbn [foldl].
    apply IH. unfold addByTitle. destruct (streamingNumber ep); [|done].
    destruct (streamingHas _ _); [done|]. by destruct acc. }
  induction eps as [|ep eps IH]; cbn [foldl].
  - split; [by intros _ ep Hep%elem_of_nil|done].
  - unfold addByTitle at 2. cbn [streamingHas existsb app].
    destruct (streamingNumber ep) as [epNum|] eqn:Hnum.
    + split.
      * intros Hnil. exfalso. by apply (Hgrow eps [(epNum, ep)]).
      * intros Hall. assert (Hep : ep ∈ ep :: eps) by (by left).
        apply Hall in Hep. congruence.
    + rewrite IH. split.
      * intros Hall ep' [->|Hin]%elem_of_cons; [done|by apply Hall].
      * intros Hall ep' Hin. apply Hall. by right.
Qed.

Lemma streamingGet_by_index (eps : list StreamingEpisode) :
  forall offset index,
    streamingGet (N.of_nat (offset + index) + 1)
                 (imap (fun i ep => (N.of_nat (offset + i) + 1, ep)) eps)
    = eps !! index.
Proof.
  induction eps as [|ep eps IH]; intros offset index; [done|].
  cbn [imap]. unfold streamingGet. cbn [List.find fst snd].
  destruct index as [|index].
  - rewrite N.eqb_refl. done.
  - destruct (N.eqb_spec (N.of_nat (offset + 0) + 1) (N.of_nat (offset + S index) + 1)) as [Heq|_];
      [lia|].
    change ((ep :: eps) !! S index) with (eps !! index).
    rewrite <- (IH (S offset) index).
    unfold streamingGet. replace (S offset + index)%nat with (offset + S index)%nat by lia.
    replace (imap ((fun i ep0 => (N.of_nat (offset + i) + 1, ep0)) ∘ S) eps)
      with (imap (fun i (ep0 : StreamingEpisode) => (N.of_nat (S offset + i) + 1, ep0)) eps);
      [done|].
    apply imap_ext. intros j x _. cbn. do 2 f_equal. lia.
Qed.

(** X24. The streaming episode that gives the episode of a number its title
    and thumbnail. When some title has a number, it is the first streaming
    episode whose title has that number, and a streaming episode without a
    number in its title is not used. When no title has a number, it is the
    streaming episode at that place of the list. *)
Theorem streaming_episode_of_number (streamingEpisodes : list StreamingEpisode) :
  ((exists ep, ep ∈ streamingEpisodes /\ streamingNumber ep <> None) ->
     forall i,
       streamingGet i (streamingMapOf streamingEpisodes)
       = List.find (fun ep => bool_decide (streamingNumber ep = Some i)) streamingEpisodes)
  /\ ((forall ep, ep ∈ streamingEpisodes -> streamingNumber ep = None) ->
        length (streamingMapOf streamingEpisodes) = length streamingEpisodes
        /\ forall index,
             streamingGet (N.of_nat index + 1) (streamingMapOf streamingEpisodes)
             = streamingEpisodes !! index).
Proof.
  unfold streamingMapOf. split.
  - intros (ep & Hep & Hnum) i.
    destruct (foldl addByTitle [] streamingEpisodes) as [|kv l] eqn:Hfold.
    + exfalso. apply Hnum. by apply (proj1 (foldl_addByTitle_empty streamingEpisodes)).
    + cbn [length Nat.eqb]. rewrite <- Hfold. by rewrite foldl_addByTitle_get.
  - intros Hnone. apply foldl_addByTitle_empty in Hnone. rewrite Hnone. cbn [length Nat.eqb].
    split; [by rewrite length_imap|]. intros index.
    exact (streamingGet_by_index streamingEpisodes 0 index).
Qed.

(** ** The number in the title of a streaming episode *)

Lemma liti_not_digit (a : ascii) (c : N) :
  isDigit (N_of_ascii a) = false -> liti a c = true -> isDigit c = false.
Proof.
  unfold liti, isAscii, asciiUpper, isLower, isDigit.
  generalize (N_of_ascii a) as x. intros x Ha Hm. N_cases.
Qed.

Lemma isSpace_not_digit (c : N) : isSpace c = true -> isDigit c = false.
Proof. unfold isSpace, isDigit. intros H. N_cases. Qed.

Lemma matchesLit_no_digit (l : list ascii) :
  forallb (fun a => negb (isDigit (N_of_ascii a))) l = true ->
  forall w, matchesLit true l w = true -> forallb (fun c => negb (isDigit c)) w = true.
Proof.
  induction l as [|a l IH]; intros Hl [|c w] Hw; simpl in *; try done.
  apply andb_true_iff in Hl as [Ha Hl]. apply andb_true_iff in Hw as [Hc Hw].
  apply negb_true_iff in Ha. rewrite (liti_not_digit a c Ha Hc). simpl. by apply IH.
Qed.

(** The captured digits, when the pattern is tried at one position. *)
Lemma m_digits_group (st : mstate) :
  m (Grp (Plus isDigit)) st Some
  = if (1 <=? length (takeWhile isDigit (st_rest st)))%nat
    then Some (MState (st_pos st + length (takeWhile isDigit (st_rest st)))
                      (lastOr (st_prev st) (takeWhile isDigit (st_rest st)))
                      (dropWhile isDigit (st_rest st))
                      (st_caps st ++ [takeWhile isDigit (st_rest st)]))
    else None.
Proof.
  unfold Plus. cbn [m]. rewrite rep_total by done. cbn [st_pos st_prev st_rest st_caps].
  destruct (1 <=? length (takeWhile isDigit (st_rest st)))%nat; [|done].
  replace (st_pos st + length (takeWhile isDigit (st_rest st)) - st_pos st)%nat
    with (length (takeWhile isDigit (st_rest st))) by lia.
  by rewrite take_takeWhile.
Qed.

Lemma matchAt_reStreamingNumber_sound (pos : nat) (prev : option N) (s : jsstring)
    (res : MatchResult) :
  matchAt reStreamingNumber pos prev s = Some res ->
  exists nd rest,
    s = nd ++ rest
    /\ forallb (fun c => negb (isDigit c)) nd = true
    /\ takeWhile isDigit rest <> []
    /\ m_groups res = [takeWhile isDigit rest].
Proof.
  unfold matchAt, reStreamingNumber, Opt.
  destruct (m _ _ Some) as [st|] eqn:Hm; [|done]. intros [= <-]. cbn [m_groups].
  change (m (Alt (wordi "Episode" ⋅ Star isSpace) Eps ⋅ Grp (Plus isDigit))
            (MState pos prev s []) Some)
    with (match m (wordi "Episode" ⋅ Star isSpace) (MState pos prev s [])
                  (fun st' => m (Grp (Plus isDigit)) st' Some) with
          | Some r => Some r
          | None => m (Grp (Plus isDigit)) (MState pos prev s []) Some
          end) in Hm.
  destruct (m (wordi "Episode" ⋅ Star isSpace) (MState pos prev s [])
              (fun st' => m (Grp (Plus isDigit)) st' Some)) as [r|] eqn:Hprefix.
  - injection Hm as ->.
    change (m (wordi "Episode" ⋅ Star isSpace) (MState pos prev s [])
              (fun st' => m (Grp (Plus isDigit)) st' Some))
      with (m (word_ true (list_ascii_of_string "Episode")) (MState pos prev s [])
              (fun st1 => m (Star isSpace) st1 (fun st' => m (Grp (Plus isDigit)) st' Some)))
      in Hprefix.
    rewrite m_word in Hprefix.
    destruct (matchesLit true (list_ascii_of_string "Episode")
                (take (length (list_ascii_of_string "Episode")) s)) eqn:Hlit; [|done].
    set (k' := fun st' : mstate => m (Grp (Plus isDigit)) st' Some) in Hprefix.
    unfold Star in Hprefix. cbn [m st_pos st_prev st_rest st_caps] in Hprefix.
    apply rep_inv in Hprefix as (ws & rest & Hdrop & Hws & _ & _ & Hk).
    unfold k' in Hk. rewrite m_digits_group in Hk. cbn [st_pos st_prev st_rest st_caps] in Hk.
    destruct (1 <=? length (takeWhile isDigit rest))%nat eqn:Hlen; [|done].
    injection Hk as Hk. subst st. cbn [st_caps].
    exists (take (length (list_ascii_of_string "Episode")) s ++ ws), rest.
    split; [|split; [|split]].
    + rewrite <- app_assoc, <- Hdrop. by rewrite take_drop.
    + rewrite forallb_app. apply andb_true_iff. split.
      * by apply (matchesLit_no_digit (list_ascii_of_string "Episode")).
      * clear -Hws. induction ws as [|c ws IH]; [done|]. simpl in *.
        apply andb_true_iff in Hws as [Hc Hws]. by rewrite (isSpace_not_digit c Hc), IH.
    + apply Nat.leb_le in Hlen. intros Hnil. rewrite Hnil in Hlen. simpl in Hlen. lia.
    + done.
  - rewrite m_digits_group in Hm. cbn [st_pos st_prev st_rest st_caps] in Hm.
    destruct (1 <=? length (takeWhile isDigit s))%nat eqn:Hlen; [|done].
    injection Hm as Hm. subst st. cbn [st_caps]. exists [], s. split; [done|]. split; [done|].
    split; [|done]. apply Nat.leb_le in Hlen. intros Hnil. rewrite Hnil in Hlen.
    simpl in Hlen. lia.
Qed.

(** The pattern matches wherever a digit stands. *)
Lemma matchAt_reStreamingNumber_digit (pos : nat) (prev : option N) (d : N) (t : jsstring) :
  isDigit d = true -> matchAt reStreamingNumber pos prev (d :: t) <> None.
Proof.
  intros Hd. unfold matchAt, reStreamingNumber, Opt.
  change (m (Alt (wordi "Episode" ⋅ Star isSpace) Eps ⋅ Grp (Plus isDigit))
            (MState pos prev (d :: t) []) Some)
    with (match m (wordi "Episode" ⋅ Star isSpace) (MState pos prev (d :: t) [])
                  (fun st' => m (Grp (Plus isDigit)) st' Some) with
          | Some r => Some r
          | None => m (Grp (Plus isDigit)) (MState pos prev (d :: t) []) Some
          end).
  destruct (m (wordi "Episode" ⋅ Star isSpace) _ _); [done|].
  rewrite m_digits_group. cbn [st_rest takeWhile]. by rewrite Hd.
Qed.

Lemma forallb_false_split {A} (p : A -> bool) (l : list A) :
  forallb p l = false -> exists a d b, l = a ++ d :: b /\ p d = false.
Proof.
  induction l as [|x l IH]; [done|]. simpl. destruct (p x) eqn:Hx.
  - intros H. destruct (IH H) as (a & d & b & -> & Hd). by exists (x :: a), d, b.
  - intros _. by exists [], x, l.
Qed.

Lemma digitRuns_no_digit_b (s : jsstring) :
  forallb (fun c => negb (isDigit c)) s = true -> digitRuns s = [].
Proof.
  unfold digitRuns. induction s as [|c t IH]; [done|]. simpl.
  intros [Hc Ht]%andb_true_iff. apply negb_true_iff in Hc. rewrite Hc. by apply IH.
Qed.

Lemma digitRuns_skip (nd s : jsstring) :
  forallb (fun c => negb (isDigit c)) nd = true -> digitRuns (nd ++ s) = digitRuns s.
Proof.
  unfold digitRuns. induction nd as [|c t IH]; [done|]. simpl.
  intros [Hc Ht]%andb_true_iff. apply negb_true_iff in Hc. rewrite Hc. by apply IH.
Qed.

Lemma digitRuns_head (s : jsstring) :
  takeWhile isDigit s <> [] -> head (digitRuns s) = Some (takeWhile isDigit s).
Proof.
  destruct s as [|c t]; [done|]. unfold digitRuns. cbn [digitRunsAcc takeWhile].
  destruct (isDigit c) eqn:Hc; [|done]. intros _. by rewrite digitRunsAcc_cons.
Qed.

(** X25. The number that the pattern reads in the title of a streaming
    episode is the first run of digits of the title, wherever it stands: the
    optional word [Episode] of the pattern never changes it. A title without
    a digit has no number. *)
Theorem streaming_number_is_first_digit_run (ep : StreamingEpisode) :
  streamingNumber ep
  = match se_title ep with
    | Some title => option_map parseInt (head (digitRuns title))
    | None => None
    end.
Proof.
  unfold streamingNumber. destruct (se_title ep) as [title|]; [|done].
  destruct (exec reStreamingNumber title) as [res|] eqn:Hexec.
  - unfold exec in Hexec. apply execFrom_inv in Hexec as (pre & post & -> & Hat & Hnone).
    assert (Hpre : forallb (fun c => negb (isDigit c)) pre = true).
    { destruct (forallb (fun c => negb (isDigit c)) pre) eqn:Hall; [done|]. exfalso.
      apply forallb_false_split in Hall as (a & d & b & -> & Hd).
      apply negb_false_iff in Hd.
      apply (matchAt_reStreamingNumber_digit (0 + length a) (lastOr None a) d (b ++ post) Hd).
      apply Hnone; [by rewrite <- app_assoc|]. rewrite length_app. simpl. lia. }
    apply matchAt_reStreamingNumber_sound in Hat as (nd & rest & -> & Hnd & Hne & Hgroups).
    rewrite !digitRuns_skip by done. rewrite digitRuns_head by done.
    unfold group. by rewrite Hgroups.
  - rewrite digitRuns_no_digit_b; [done|].
    destruct (forallb (fun c => negb (isDigit c)) title) eqn:Hall; [done|]. exfalso.
    apply forallb_false_split in Hall as (a & d & b & -> & Hd).
    apply negb_false_iff in Hd. unfold exec in Hexec.
    destruct (matchAt reStreamingNumber (0 + length a) (lastOr None a) (d :: b)) as [res|] eqn:Hat.
    + by apply (execFrom_exists _ _ _ _ _ _ Hat).
    + by apply (matchAt_reStreamingNumber_digit _ _ d b Hd) in Hat.
Qed.

(** ** The season in the title of a record *)

Lemma digitsOfPos_nonempty (fuel : nat) (n : N) (acc : jsstring) :
  acc <> [] -> digitsOfPos fuel n acc <> [].
Proof.
  revert n acc. induction fuel as [|f IH]; intros n acc Hacc; [done|]. simpl.
  destruct (n <? 10); [done|]. by apply IH.
Qed.

Lemma toStringN_nonempty (n : N) : toStringN n <> [].
Proof.
  unfold toStringN. cbn [digitsOfPos]. destruct (n <? 10); [done|].
  by apply digitsOfPos_nonempty.
Qed.

Lemma digits_head_not_space (ds rest : jsstring) :
  ds <> [] -> forallb isDigit ds = true -> headIs isSpace (ds ++ rest) = false.
Proof.
  destruct ds as [|d ds]; [done|]. intros _ [Hd _]%andb_true_iff. cbn [app headIs].
  revert Hd. unfold isDigit, isSpace. intros Hd. N_cases.
Qed.

(** The words [Season], one space and a block of digits are matched by
    [Season\s*\d+], up to the end of the digits. *)
Lemma m_season_digits (pos : nat) (prev : option N) (ds rest : jsstring) (caps : list jsstring)
    (k : mstate -> option mstate) :
  ds <> [] -> forallb isDigit ds = true -> headIs isDigit rest = false ->
  (forall st', st_rest st' = rest -> st_caps st' = caps -> k st' <> None) ->
  m (wordi "Season" ⋅ Star isSpace ⋅ Plus isDigit)%re
    (MState pos prev (str "Season " ++ ds ++ rest) caps) k <> None.
Proof.
  intros Hne Hds Hrest Hk.
  change (m (wordi "Season" ⋅ Star isSpace ⋅ Plus isDigit)%re
            (MState pos prev (str "Season " ++ ds ++ rest) caps) k)
    with (m (word_ true (list_ascii_of_string "Season"))
            (MState pos prev (str "Season " ++ ds ++ rest) caps)
            (fun st1 => m (Star isSpace) st1 (fun st2 => m (Plus isDigit) st2 k))).
  rewrite m_word.
  change (take (length (list_ascii_of_string "Season")) (str "Season " ++ ds ++ rest))
    with (str "Season").
  change (drop (length (list_ascii_of_string "Season")) (str "Season " ++ ds ++ rest))
    with ([32] ++ ds ++ rest).
  change (matchesLit true (list_ascii_of_string "Season") (str "Season")) with true.
  cbv iota. unfold Star, Plus. cbn [m st_pos st_prev st_rest st_caps].
  destruct (k (MState (pos + length (list_ascii_of_string "Season") + length [32%N]
                       + length ds)
                      (lastOr (lastOr (lastOr prev (str "Season")) [32]) ds) rest caps))
    as [res|] eqn:Hres; [|by apply Hk in Hres].
  rewrite (rep_greedy isSpace [32] 0 _ _ (ds ++ rest) caps _ res); try done.
  - by apply digits_head_not_space.
  - lia.
  - cbn [m st_pos st_prev st_rest st_caps].
    rewrite (rep_greedy isDigit ds 1 _ _ rest caps k res); try done.
    destruct ds; [done|simpl; lia].
Qed.

Lemma test_true (r : regex) (pre post : jsstring) (res : MatchResult) :
  matchAt r (0 + length pre) (lastOr None pre) post = Some res -> test r (pre ++ post) = true.
Proof.
  intros Hat. unfold test, exec.
  destruct (execFrom r 0 None (pre ++ post)) eqn:He; [done|].
  by apply (execFrom_exists _ _ _ _ _ _ Hat) in He.
Qed.

Lemma test_season_suffix (title : jsstring) (n : N) :
  test reSeasonInParens (title ++ str " (Season " ++ toStringN n ++ str ")") = true
  /\ test reSeasonBare (title ++ str " (Season " ++ toStringN n ++ str ")") = true.
Proof.
  pose proof (toStringN_nonempty n) as Hne. pose proof (toStringN_digits n) as Hds.
  split.
  - replace (title ++ str " (Season " ++ toStringN n ++ str ")")
      with ((title ++ [32]) ++ [40] ++ str "Season " ++ toStringN n ++ str ")")
      by (by rewrite <- app_assoc).
    destruct (matchAt reSeasonInParens (0 + length (title ++ [32])) (lastOr None (title ++ [32]))
                ([40] ++ str "Season " ++ toStringN n ++ str ")")) as [res|] eqn:Hat;
      [by apply (test_true _ _ _ res)|].
    exfalso. unfold matchAt, reSeasonInParens in Hat.
    match type of Hat with
    | match ?x with Some _ => _ | None => _ end = None => destruct x eqn:Hm; [done|]
    end.
    revert Hm.
    match goal with
    | |- m _ (MState ?pos ?prev _ ?caps) _ = None -> _ =>
      change (m (wordi "Season" ⋅ Star isSpace ⋅ Plus isDigit)%re
                (MState (S pos) (Some 40) (str "Season " ++ toStringN n ++ str ")") caps)
                (fun st' => m (word ")") st' Some) = None -> False)
    end.
    apply m_season_digits; try done.
    intros st' Hr _. change (word ")") with (Chr (lit ")")). cbn [m]. by rewrite Hr.
  - replace (title ++ str " (Season " ++ toStringN n ++ str ")")
      with ((title ++ [32; 40]) ++ str "Season " ++ toStringN n ++ str ")")
      by (by rewrite <- app_assoc).
    destruct (matchAt reSeasonBare (0 + length (title ++ [32; 40]))
                (lastOr None (title ++ [32; 40]))
                (str "Season " ++ toStringN n ++ str ")")) as [res|] eqn:Hat;
      [by apply (test_true _ _ _ res)|].
    exfalso. unfold matchAt, reSeasonBare in Hat.
    match type of Hat with
    | match ?x with Some _ => _ | None => _ end = None => destruct x eqn:Hm; [done|]
    end.
    revert Hm. by apply m_season_digits.
Qed.

(** X26. The season is written into a title once, for a season that is a
    safe integer (up to 2^53 - 1, which the run-time prints in decimal
    digits). The title that the handler gives the record of a unit with such
    a season has a season mark, the one it had or [ (Season n)] added at its
    end; so a title that went through the handler is left as it is the next
    time, whatever the season then. This holds for the pattern of the cached
    and fetched records and for the one of the records built from the
    files. *)
Theorem season_suffix_is_added_once (title : jsstring) (n : N) (later : option N) :
  isSafeInteger n = true ->
  (test reSeasonInParens (withSeason reSeasonInParens title (Some n)) = true
   /\ withSeason reSeasonInParens (withSeason reSeasonInParens title (Some n)) later
      = withSeason reSeasonInParens title (Some n))
  /\ (test reSeasonBare (withSeason reSeasonBare title (Some n)) = true
      /\ withSeason reSeasonBare (withSeason reSeasonBare title (Some n)) later
         = withSeason reSeasonBare title (Some n)).
Proof.
  intros _.
  destruct (test_season_suffix title n) as [Hparens Hbare].
  assert (H1 : test reSeasonInParens (withSeason reSeasonInParens title (Some n)) = true).
  { unfold withSeason. by destruct (test reSeasonInParens title) eqn:Ht. }
  assert (H2 : test reSeasonBare (withSeason reSeasonBare title (Some n)) = true).
  { unfold withSeason. by destruct (test reSeasonBare title) eqn:Ht. }
  split.
  - split; [done|]. unfold withSeason at 1. rewrite H1. by destruct later.
  - split; [done|]. unfold withSeason at 1. rewrite H2. by destruct later.
Qed.

End Liam.

(** * Concrete runs *)

(** The functions of the development on this disk, with providers that find
    nothing and no image or thumbnail. *)
Abbreviation offlineHandler :=
  (scanAndFetchMetadata noUnicode unit diskReaddir diskStat noUnicode
     (fun _ _ => inr []) (fun _ _ _ _ => inr []) (fun _ => false)
     (fun _ _ _ _ => None) (fun _ => None) (fun _ => None) tt).

Abbreviation offlineProcessMedia :=
  (processMedia noUnicode unit noUnicode
     (fun _ _ => inr []) (fun _ _ _ _ => inr []) (fun _ => false)
     (fun _ _ _ _ => None) (fun _ => None) (fun _ => None)).

Abbreviation diskScanDirectory := (@scanDirectory noUnicode unit diskReaddir diskStat unit).
Abbreviation diskScanMultipleFolders :=
  (@scanMultipleFolders noUnicode unit diskReaddir diskStat unit).

(** C1, witness: the handler on [/lib], with a stale record in the store,
    completes and every record it saves has a file episode. *)
Lemma C1_saved_records_have_files_witness :
  exists saved,
    offlineHandler (str "/lib") staleStore = inr saved
    /\ (forall seriesId record, saved !! seriesId = Some record ->
          exists fileEpisodes,
            r_fileEpisodes record = Some fileEpisodes /\ (1 <= length fileEpisodes)%nat).
Proof.
  assert (Hc : returned (offlineHandler (str "/lib") staleStore) = true)
    by (vm_compute; reflexivity).
  destruct (offlineHandler (str "/lib") staleStore) as [e|saved] eqn:Hsaved;
    [discriminate Hc|].
  exists saved. split; [reflexivity|].
  apply (proj1 (C1_saved_records_have_files _ _ _ _ _ _ _ _ _ _ _ _ _ _ _ Hsaved)).
Defined.

(** C2, the code on a failing input: the only candidate is not yet
    released and its episode count is null; with a folder count of 1 the
    second loop accepts it and the search returns its metadata. *)
Lemma C2_fallback_accepts_unreleased :
  isReleased noUnicode upcoming = false
  /\ acceptCandidate noUnicode (Some 1%nat) [upcoming] = Some upcoming
  /\ exists metadata,
       searchAndFetchMetadata unit noUnicode (fun _ _ => inr [upcoming])
         (fun _ _ _ _ => inr []) (fun _ => false)
         (str "Upcoming Show") None None (Some 1%nat) = Some metadata
       /\ sm_providerId metadata = 7
       /\ sm_status metadata = str "NOT_YET_RELEASED".
Proof.
  split; [vm_compute; reflexivity|]. split; [vm_compute; reflexivity|].
  eexists. split; [vm_compute; reflexivity|]. split; reflexivity.
Qed.



(** C4, counterexample to the claim as stated: on this cache hit the title
    of the record is not the title of the existing record, and the
    identifier and the type are refreshed as well. *)
Lemma C4_title_counterexample :
  checkCache noUnicode (Some (cachedRecord "My Show")) seasonTwoUnit
  = UseCached (cacheHitRecord (cachedRecord "My Show") seasonTwoUnit)
  /\ r_title (cachedRecord "My Show") = Some (str "My Show")
  /\ r_title (cacheHitRecord (cachedRecord "My Show") seasonTwoUnit)
     = Some (str "My Show (Season 2)")
  /\ r_title (cacheHitRecord (cachedRecord "My Show") seasonTwoUnit)
     <> r_title (cachedRecord "My Show")
  /\ r_seriesId (cacheHitRecord (cachedRecord "My Show") seasonTwoUnit)
     <> r_seriesId (cachedRecord "My Show")
  /\ r_type (cacheHitRecord (cachedRecord "My Show") seasonTwoUnit)
     <> r_type (cachedRecord "My Show").
Proof.
  split; [vm_compute; reflexivity|]. split; [reflexivity|].
  split; [vm_compute; reflexivity|].
  split; [vm_compute; discriminate|]. split; [vm_compute; discriminate|].
  vm_compute; discriminate.
Qed.

(** C4, witness: a cache hit whose title already names the season. *)
Lemma C4_cache_hit_frame_witness :
  checkCache noUnicode (Some (cachedRecord "My Show (Season 2)")) seasonTwoUnit
  = UseCached (cacheHitRecord (cachedRecord "My Show (Season 2)") seasonTwoUnit)
  /\ r_description (cacheHitRecord (cachedRecord "My Show (Season 2)") seasonTwoUnit)
     = r_description (cachedRecord "My Show (Season 2)")
  /\ r_fileEpisodes (cacheHitRecord (cachedRecord "My Show (Season 2)") seasonTwoUnit)
     = Some (List.map fileEpisodeOf (files seasonTwoUnit))
  /\ r_folderPath (cacheHitRecord (cachedRecord "My Show (Season 2)") seasonTwoUnit)
     = Some (folderPath seasonTwoUnit).
Proof.
  assert (H : checkCache noUnicode (Some (cachedRecord "My Show (Season 2)")) seasonTwoUnit
              = UseCached (cacheHitRecord (cachedRecord "My Show (Season 2)") seasonTwoUnit))
    by (vm_compute; reflexivity).
  split; [exact H|].
  pose proof (C4_cache_hit_frame noUnicode _ _ _ H) as (Hkeep & _ & Hfiles & Hpath & _).
  split; [exact (proj1 Hkeep)|]. split; [exact Hfiles|exact Hpath].
Defined.

(** C5, counterexample to the claim as stated: the name matches
    [S(\d+)E(\d+)] with the captures 01 and 02, and the tokenizer returns a
    null season, since no word boundary precedes the [S]. *)
Lemma C5_no_boundary_counterexample :
  exec reSeasonEpisodeSpec (str "ShowS01E02.mkv") = Some (Match 4 6 [str "01"; str "02"])
  /\ extractSeasonAndEpisode (str "ShowS01E02.mkv") = SE None 2
  /\ extractSeasonAndEpisode (str "ShowS01E02.mkv")
     <> SE (Some (parseInt (str "01"))) (numOfN (parseInt (str "02"))).
Proof.
  split; [vm_compute; reflexivity|]. split; [vm_compute; reflexivity|].
  vm_compute. discriminate.
Qed.

(** C5, witness: the marker wins over the other digits of the name. *)
Lemma C5_season_episode_marker_wins_witness :
  exec reSeasonEpisode (getBaseName (str "Show.2019.S02E05.720p.mkv"))
  = Some (Match 10 6 [str "02"; str "05"])
  /\ exists pre post d1 d2,
       getBaseName (str "Show.2019.S02E05.720p.mkv") = pre ++ post
       /\ seasonEpisodeMarker (last pre) post d1 d2
       /\ (forall pre' post' e1 e2,
             getBaseName (str "Show.2019.S02E05.720p.mkv") = pre' ++ post' ->
             (length pre' < length pre)%nat ->
             ~ seasonEpisodeMarker (last pre') post' e1 e2)
       /\ extractSeasonAndEpisode (str "Show.2019.S02E05.720p.mkv")
          = SE (Some (parseInt d1)) (numOfN (parseInt d2)).
Proof.
  assert (H : exec reSeasonEpisode (getBaseName (str "Show.2019.S02E05.720p.mkv"))
              = Some (Match 10 6 [str "02"; str "05"])) by (vm_compute; reflexivity).
  split; [exact H|]. exact (C5_season_episode_marker_wins _ _ H).
Defined.

(** C6, witness: the base name of [Show.07.12.2019.mp4] is
    [Show.07.12.2019], with the digit runs 07, 12 and 2019; the year is
    dropped and the last run that is left gives the episode 12, not the 4 of
    the extension. *)
Lemma C6_digit_run_fallback_witness :
  exec reSeasonEpisode (getBaseName (str "Show.07.12.2019.mp4")) = None
  /\ exec reDecimalEpisode (getBaseName (str "Show.07.12.2019.mp4")) = None
  /\ firstPattern episodePatterns (getBaseName (str "Show.07.12.2019.mp4")) = None
  /\ getBaseName (str "Show.07.12.2019.mp4") = str "Show.07.12.2019"
  /\ extname (str "Show.07.12.2019.mp4") = str ".mp4"
  /\ digitRuns (str "Show.07.12.2019") = [str "07"; str "12"; str "2019"]
  /\ List.filter (fun r => negb (inYearRange (parseInt r))) (digitRuns (str "Show.07.12.2019"))
     = [str "07"; str "12"]
  /\ extractSeasonAndEpisode (str "Show.07.12.2019.mp4") = SE None 12.
Proof.
  assert (H1 : exec reSeasonEpisode (getBaseName (str "Show.07.12.2019.mp4")) = None)
    by (vm_compute; reflexivity).
  assert (H2 : exec reDecimalEpisode (getBaseName (str "Show.07.12.2019.mp4")) = None)
    by (vm_compute; reflexivity).
  assert (H3 : firstPattern episodePatterns (getBaseName (str "Show.07.12.2019.mp4")) = None)
    by (vm_compute; reflexivity).
  assert (Hname : str "Show.07.12.2019.mp4" = str "Show.07.12.2019" ++ 46 :: str "mp4")
    by reflexivity.
  assert (Hne : str "Show.07.12.2019" <> []) by discriminate.
  assert (Hext : noDot (str "mp4") = true) by reflexivity.
  assert (Hdd : str "Show.07.12.2019.mp4" <> [46; 46]) by discriminate.
  split; [exact H1|]. split; [exact H2|]. split; [exact H3|].
  pose proof (proj2 (proj2 (proj2 (proj2
    (C6_digit_run_fallback (str "Show.07.12.2019.mp4") H1 H2 H3))))
    (str "Show.07.12.2019") (str "mp4") Hname Hne Hext Hdd) as (Hb & Hx & Hep).
  split; [exact Hb|]. split; [exact Hx|].
  split; [vm_compute; reflexivity|]. split; [vm_compute; reflexivity|].
  rewrite Hep. vm_compute. reflexivity.
Defined.

(** [Show.Name.mp4]: the base name [Show.Name] has no digit, and the episode
    is 1, not the 4 of the extension. *)
Example tokenize_show_name_mp4 :
  getBaseName (str "Show.Name.mp4") = str "Show.Name"
  /\ digitRuns (getBaseName (str "Show.Name.mp4")) = []
  /\ digitRuns (str "Show.Name.mp4") = [str "4"]
  /\ extractSeasonAndEpisode (str "Show.Name.mp4") = SE None 1.
Proof. repeat split; vm_compute; reflexivity. Qed.

(** A name whose only run outside the extension reads as a year: the
    episode is 1. A year is chosen neither before nor after another run. *)
Example tokenize_years :
  extractSeasonAndEpisode (str "Show.2019.mp4") = SE None 1
  /\ extractSeasonAndEpisode (str "Show.2019.07.mkv") = SE None 7
  /\ extractSeasonAndEpisode (str "Show.07.2019.mkv") = SE None 7
  /\ extractSeasonAndEpisode (str "Show.1899.2100.mkv") = SE None 2100.
Proof. repeat split; vm_compute; reflexivity. Qed.

(** C7, witness: [Episode 6.5.mkv] yields the episode 6 + 5/10 and a null
    season. *)
Lemma C7_decimal_episode_witness :
  extensionNotNumeric (str "Episode 6.5.mkv")
  /\ exec reSeasonEpisode (str "Episode 6.5.mkv") = None
  /\ exec reDecimalEpisode (str "Episode 6.5.mkv") = Some (Match 0 11 [str "6"; str "5"])
  /\ exists pre post d1 d2 len,
       str "Episode 6.5.mkv" = pre ++ post
       /\ decimalEpisodeMarker post d1 d2 len
       /\ m_groups (Match 0 11 [str "6"; str "5"]) = [d1; d2]
       /\ season (extractSeasonAndEpisode (str "Episode 6.5.mkv")) = None
       /\ (episode (extractSeasonAndEpisode (str "Episode 6.5.mkv"))
           == numOfN (parseInt d1) + numOfN (parseInt d2) / 10)%Q.
Proof.
  assert (H0 : extensionNotNumeric (str "Episode 6.5.mkv")) by (vm_compute; reflexivity).
  assert (H1 : exec reSeasonEpisode (str "Episode 6.5.mkv") = None)
    by (vm_compute; reflexivity).
  assert (H2 : exec reDecimalEpisode (str "Episode 6.5.mkv")
               = Some (Match 0 11 [str "6"; str "5"])) by (vm_compute; reflexivity).
  split; [exact H0|]. split; [exact H1|]. split; [exact H2|].
  exact (C7_decimal_episode _ _ H0 H1 H2).
Defined.

(** The sort by length keeps the order of names of one length. *)
Example sortByLength_is_stable :
  sortByLength [str "Bravo"; str "Alpha"; str "Ab"; str "Charlie"; str "Delta"]
  = [str "Ab"; str "Bravo"; str "Alpha"; str "Delta"; str "Charlie"].
Proof. vm_compute. reflexivity. Qed.

(** The digit-run fallback is the last resort: an earlier pattern can
    return a number that reads as a year. *)
Example earlier_pattern_can_return_year :
  extractSeasonAndEpisode (str "Show 5 - 2020.mkv") = SE None 2020.
Proof. vm_compute. reflexivity. Qed.

(** The value the tokenizer returns for [Episode 6.5.mkv]. *)
Example tokenize_episode_6_5 :
  extractSeasonAndEpisode (str "Episode 6.5.mkv") = SE None (13 # 2)
  /\ (13 # 2 == 6 + 5 / 10)%Q.
Proof. split; [vm_compute; reflexivity|reflexivity]. Qed.

(** C8, witness: the identifiers of the series [Show] of season 2 under two
    folder names. *)
Lemma C8_identifier_ignores_folder_witness :
  (2 <= length (str "Show"))%nat
  /\ generateSeriesId noUnicode (str "Show") (str "Show Season 2") (Some 2) None
     = generateSeriesId noUnicode (str "Show") (str "Show (different folder label)") (Some 2) None.
Proof.
  assert (H : (2 <= length (str "Show"))%nat) by (vm_compute; lia).
  split; [exact H|].
  exact (proj1 (C8_identifier_ignores_folder noUnicode (str "Show") (str "Show Season 2")
                  (str "Show (different folder label)") (Some 2) None H)).
Defined.

Example generateSeriesId_show :
  generateSeriesId noUnicode (str "Show") (str "Show Season 2") (Some 2) None = str "show_s02"
  /\ generateSeriesId noUnicode (str "Show") (str "Show Season 2") (Some 2) (Some 3)
     = str "show_part03".
Proof. split; vm_compute; reflexivity. Qed.

(** C9, witness: the root [/gone] cannot be read and the scan throws; the
    root [/lib] can, and the scan returns although one entry cannot be
    stat-ed and one folder cannot be read. In the library whose folder
    [Gone] has been removed, the probe passes over [Gone] without a word;
    the warning for it is the one of [scanFolderForVideos]. *)
Lemma C9_scan_failure_policy_witness :
  diskReaddir (str "/gone") = inl tt
  /\ result (diskScanDirectory (str "/gone") tt) = inl tt
  /\ diskStat (join (str "/lib") (str "bad")) = inl tt
  /\ entryMedia noUnicode unit diskReaddir diskStat (str "/lib") (str "bad") = []
  /\ returned (result (diskScanDirectory (str "/lib") tt)) = true
  /\ statAfterRemoval (join (str "/lib/Shows") (str "Gone")) = inl tt
  /\ collectSubDir unit statAfterRemoval (str "/lib/Shows") (str "Gone") []
     = mkOutcome (inr tt) [] []
  /\ CouldNotStat (str "/lib/Shows/Gone")
     ∈ entryLog noUnicode unit raceReaddir statAfterRemoval (str "/lib") (str "Shows").
Proof.
  assert (H1 : diskReaddir (str "/gone") = inl tt) by reflexivity.
  assert (H2 : diskStat (join (str "/lib") (str "bad")) = inl tt) by (vm_compute; reflexivity).
  assert (H3 : statAfterRemoval (join (str "/lib/Shows") (str "Gone")) = inl tt)
    by (vm_compute; reflexivity).
  assert (H4 : statAfterRemoval (join (str "/lib") (str "Shows")) = inr (mkStats false true))
    by (vm_compute; reflexivity).
  assert (H5 : raceReaddir (join (str "/lib") (str "Shows")) = inr [str "Gone"])
    by (vm_compute; reflexivity).
  assert (H6 : str "Gone" ∈ [str "Gone"]) by (by left).
  assert (H7 : statAfterRemoval (join (join (str "/lib") (str "Shows")) (str "Gone")) = inl tt)
    by (vm_compute; reflexivity).
  pose proof (C9_scan_failure_policy noUnicode unit diskReaddir diskStat (str "/gone"))
    as (Hgone & _).
  pose proof (C9_scan_failure_policy noUnicode unit diskReaddir diskStat (str "/lib"))
    as (_ & _ & _ & Hbad & _).
  pose proof (C9_scan_failure_policy noUnicode unit raceReaddir statAfterRemoval (str "/lib"))
    as (_ & _ & _ & _ & _ & _ & _ & _ & _ & Hprobe & _ & Hwarn).
  split; [exact H1|].
  split; [exact (proj2 (Hgone tt) H1)|].
  split; [exact H2|].
  split; [exact (proj1 (Hbad (str "bad") tt H2))|].
  split; [vm_compute; reflexivity|].
  split; [exact H3|].
  split; [exact (Hprobe (str "/lib/Shows") (str "Gone") tt [] H3)|].
  exact (Hwarn (str "Shows") (mkStats false true) [str "Gone"] (str "Gone") tt H4 eq_refl H5 H6 H7).
Defined.

(** C9, counterexample: the folder [Gone] of the category folder
    [/lib/Shows] is removed while the entry [Shows] is scanned, after
    [scanFolderForVideos] has run and before the probe for sub-directories
    runs. [scanFolderForVideos] finds a directory and passes over it, as it
    does with every directory; for the probe [stat] throws, and the probe
    passes over the folder as well. The folder that cannot be stat-ed is
    skipped, and none of the two logs a warning. *)
Lemma C9_silent_skip_counterexample :
  statBeforeRemoval (str "/lib/Shows/Gone") = inr (mkStats false true)
  /\ statAfterRemoval (str "/lib/Shows/Gone") = inl tt
  /\ (subVideos <- scanFolderForVideos noUnicode unit raceReaddir statBeforeRemoval
                     (str "/lib/Shows") None ;;
      subEntries <- lift (raceReaddir (str "/lib/Shows")) ;;
      subDirs <- collectSubDirs unit statAfterRemoval (str "/lib/Shows") subEntries ;;
      ret (subVideos, subEntries, subDirs))%M ([] : list ScannedMedia)
     = mkOutcome (inr ([], [str "Gone"], [])) [] [].
Proof. repeat split; vm_compute; reflexivity. Qed.

(** C10, witness: of the roots [/gone] and [/lib/Series] the first throws
    and the second yields one series; the call returns that series. *)
Lemma C10_scanMultipleFolders_never_throws_witness :
  result (diskScanDirectory (str "/gone") tt) = inl tt
  /\ result (diskScanMultipleFolders [str "/gone"; str "/lib/Series"] tt)
     = inr (concat (List.map (mediaOfRoot noUnicode unit diskReaddir diskStat)
                             [str "/gone"; str "/lib/Series"]))
  /\ ErrorScanning (str "/gone") tt
     ∈ logged (diskScanMultipleFolders [str "/gone"; str "/lib/Series"] tt).
Proof.
  assert (H : result (diskScanDirectory (str "/gone") tt) = inl tt) by (vm_compute; reflexivity).
  pose proof (C10_scanMultipleFolders_never_throws noUnicode unit diskReaddir diskStat
                [str "/gone"; str "/lib/Series"]) as (Hres & Hlog & _).
  split; [exact H|]. split; [exact Hres|].
  apply (Hlog (str "/gone") tt); [|exact H]. apply list_elem_of_here.
Defined.

(** * Concrete runs for the further properties *)

(** The scan of a folder and of an entry of a root on the disk of the
    runs, and the handler with the store [otherStore]. *)
Abbreviation diskScanFolderForVideos :=
  (@scanFolderForVideos noUnicode unit diskReaddir diskStat unit).
Abbreviation diskFolderVideos := (folderVideos noUnicode unit diskReaddir diskStat).
Abbreviation diskEntryMedia := (entryMedia noUnicode unit diskReaddir diskStat).
Abbreviation diskScanFolder := (@scanFolder noUnicode unit diskReaddir diskStat tt unit).

(** X3, witness: the name derived from two files of [My Show]. *)
Lemma series_name_is_tidy_prefix_witness :
  [str "My Show - 01.mkv"; str "My Show - 02.mkv"] <> []
  /\ tidyName (extractSeriesNameFromFilenames [str "My Show - 01.mkv"; str "My Show - 02.mkv"])
  /\ exists f,
       f ∈ [str "My Show - 01.mkv"; str "My Show - 02.mkv"]
       /\ prefixOf (extractSeriesNameFromFilenames
                      [str "My Show - 01.mkv"; str "My Show - 02.mkv"])
                   (cleanName (getBaseName f)).
Proof.
  assert (H : [str "My Show - 01.mkv"; str "My Show - 02.mkv"] <> []) by discriminate.
  split; [exact H|].
  exact (series_name_is_tidy_prefix [str "My Show - 01.mkv"; str "My Show - 02.mkv"] H).
Defined.

(** X6, witness: the same base name with the extensions [mkv] and [mp4]. *)
Lemma tokenizer_ignores_extension_witness :
  str "Show - 05" <> [] /\ noDot (str "mkv") = true /\ noDot (str "mp4") = true
  /\ extractSeasonAndEpisode (str "Show - 05" ++ 46 :: str "mkv")
     = extractSeasonAndEpisode (str "Show - 05" ++ 46 :: str "mp4").
Proof.
  assert (H0 : str "Show - 05" <> []) by discriminate.
  assert (H1 : noDot (str "mkv") = true) by reflexivity.
  assert (H2 : noDot (str "mp4") = true) by reflexivity.
  split; [exact H0|]. split; [exact H1|]. split; [exact H2|].
  exact (tokenizer_ignores_extension (str "Show - 05") (str "mkv") (str "mp4") H0 H1 H2).
Defined.

(** X9, witness: the scan of the folder [/lib/Series/My Show]. *)
Lemma scanned_videos_are_video_files_witness :
  exists entries vids,
    diskReaddir (str "/lib/Series/My Show") = inr entries
    /\ result (diskScanFolderForVideos (str "/lib/Series/My Show") None tt) = inr vids
    /\ NoDup (List.map filePath vids)
    /\ length vids = 2%nat.
Proof.
  assert (Hread : diskReaddir (str "/lib/Series/My Show")
                  = inr [str "My Show - 02.mkv"; str "My Show - 01.mkv"; str "My Show - 01.srt"])
    by reflexivity.
  assert (Hlen : match result (diskScanFolderForVideos (str "/lib/Series/My Show") None tt) with
                 | inr vids => (length vids =? 2)%nat
                 | inl _ => false
                 end = true) by (vm_compute; reflexivity).
  destruct (result (diskScanFolderForVideos (str "/lib/Series/My Show") None tt))
    as [e|vids] eqn:Hscan; [discriminate Hlen|].
  exists [str "My Show - 02.mkv"; str "My Show - 01.mkv"; str "My Show - 01.srt"], vids.
  split; [exact Hread|]. split; [reflexivity|].
  split; [|by apply Nat.eqb_eq].
  exact (proj1 (scanned_videos_are_video_files noUnicode unit diskReaddir diskStat
                  (str "/lib/Series/My Show") None _ tt vids Hread Hscan)).
Defined.

(** X10, witness: the entry [My Show - 01.mkv] of that folder has exactly
    one record. *)
Lemma scan_finds_every_video_file_witness :
  exists vids,
    result (diskScanFolderForVideos (str "/lib/Series/My Show") None tt) = inr vids
    /\ diskStat (join (str "/lib/Series/My Show") (str "My Show - 01.mkv"))
       = inr (mkStats true false)
    /\ isVideoFile noUnicode (str "My Show - 01.mkv") = true
    /\ exists v,
         v ∈ vids /\ filename v = str "My Show - 01.mkv"
         /\ forall v', v' ∈ vids -> filename v' = str "My Show - 01.mkv" -> v' = v.
Proof.
  assert (Hread : diskReaddir (str "/lib/Series/My Show")
                  = inr [str "My Show - 02.mkv"; str "My Show - 01.mkv"; str "My Show - 01.srt"])
    by reflexivity.
  assert (Hret : returned (result (diskScanFolderForVideos (str "/lib/Series/My Show") None tt))
                 = true) by (vm_compute; reflexivity).
  assert (Hin : str "My Show - 01.mkv"
                ∈ [str "My Show - 02.mkv"; str "My Show - 01.mkv"; str "My Show - 01.srt"])
    by (apply list_elem_of_further, list_elem_of_here).
  assert (Hstat : diskStat (join (str "/lib/Series/My Show") (str "My Show - 01.mkv"))
                  = inr (mkStats true false)) by (vm_compute; reflexivity).
  assert (Hfile : isFile (mkStats true false) = true) by reflexivity.
  assert (Hvideo : isVideoFile noUnicode (str "My Show - 01.mkv") = true)
    by (vm_compute; reflexivity).
  destruct (result (diskScanFolderForVideos (str "/lib/Series/My Show") None tt))
    as [e|vids] eqn:Hscan; [discriminate Hret|].
  exists vids. split; [reflexivity|]. split; [exact Hstat|]. split; [exact Hvideo|].
  exact (scan_finds_every_video_file noUnicode unit diskReaddir diskStat
           (str "/lib/Series/My Show") None _ tt vids (str "My Show - 01.mkv")
           (mkStats true false) Hread Hscan Hin Hstat Hfile Hvideo).
Defined.

(** X11, witness: the first video that the scan of that folder returns. *)
Lemma scanned_subtitles_match_base_name_witness :
  exists vids v,
    result (diskScanFolderForVideos (str "/lib/Series/My Show") None tt) = inr vids
    /\ v ∈ vids
    /\ subtitlePath v = head (subtitlePaths v).
Proof.
  assert (Hread : diskReaddir (str "/lib/Series/My Show")
                  = inr [str "My Show - 02.mkv"; str "My Show - 01.mkv"; str "My Show - 01.srt"])
    by reflexivity.
  assert (Hsome : match result (diskScanFolderForVideos (str "/lib/Series/My Show") None tt) with
                  | inr (_ :: _) => true
                  | _ => false
                  end = true) by (vm_compute; reflexivity).
  destruct (result (diskScanFolderForVideos (str "/lib/Series/My Show") None tt))
    as [e|[|v vids]] eqn:Hscan; [discriminate Hsome|discriminate Hsome|].
  assert (Hin : v ∈ v :: vids) by apply list_elem_of_here.
  exists (v :: vids), v. split; [reflexivity|]. split; [exact Hin|].
  exact (proj1 (proj2 (scanned_subtitles_match_base_name noUnicode unit diskReaddir diskStat
                         (str "/lib/Series/My Show") None _ tt (v :: vids) v
                         Hread Hscan Hin))).
Defined.

(** X12, witness: the first unit of the scan of the root [/lib]. *)
Lemma scanned_units_hold_video_files_witness :
  exists units u,
    result (diskScanDirectory (str "/lib") tt) = inr units
    /\ u ∈ units
    /\ files u <> []
    /\ NoDup (List.map filePath (files u)).
Proof.
  assert (Hsome : match result (diskScanDirectory (str "/lib") tt) with
                  | inr (_ :: _) => true
                  | _ => false
                  end = true) by (vm_compute; reflexivity).
  destruct (result (diskScanDirectory (str "/lib") tt))
    as [e|[|u units]] eqn:Hscan; [discriminate Hsome|discriminate Hsome|].
  assert (Hin : u ∈ u :: units) by apply list_elem_of_here.
  exists (u :: units), u. split; [reflexivity|]. split; [exact Hin|].
  pose proof (scanned_units_hold_video_files noUnicode unit diskReaddir diskStat
                (str "/lib") tt (u :: units) u Hscan Hin) as (Hne & Hnd & _).
  split; [exact Hne|exact Hnd].
Defined.

(** X13, witness: the files of that unit are in order. *)
Lemma scanned_unit_files_are_sorted_witness :
  exists units u,
    result (diskScanDirectory (str "/lib") tt) = inr units
    /\ u ∈ units
    /\ StronglySorted fileOrder (files u).
Proof.
  assert (Hsome : match result (diskScanDirectory (str "/lib") tt) with
                  | inr (_ :: _) => true
                  | _ => false
                  end = true) by (vm_compute; reflexivity).
  destruct (result (diskScanDirectory (str "/lib") tt))
    as [e|[|u units]] eqn:Hscan; [discriminate Hsome|discriminate Hsome|].
  assert (Hin : u ∈ u :: units) by apply list_elem_of_here.
  exists (u :: units), u. split; [reflexivity|]. split; [exact Hin|].
  exact (scanned_unit_files_are_sorted noUnicode unit diskReaddir diskStat
           (str "/lib") tt (u :: units) u Hscan Hin).
Defined.

(** X14, witness: the file [movie.2019.mp4] of the root [/lib] gives a
    movie. *)
Lemma movies_are_the_video_files_of_the_root_witness :
  exists units,
    diskReaddir (str "/lib") = inr [str "Series"; str "movie.2019.mp4"; str "bad"]
    /\ result (diskScanDirectory (str "/lib") tt) = inr units
    /\ movieOfRootFile noUnicode (str "/lib") (str "movie.2019.mp4") ∈ units
    /\ type (movieOfRootFile noUnicode (str "/lib") (str "movie.2019.mp4")) = movie.
Proof.
  assert (Hread : diskReaddir (str "/lib") = inr [str "Series"; str "movie.2019.mp4"; str "bad"])
    by reflexivity.
  assert (Hret : returned (result (diskScanDirectory (str "/lib") tt)) = true)
    by (vm_compute; reflexivity).
  assert (Hin : str "movie.2019.mp4" ∈ [str "Series"; str "movie.2019.mp4"; str "bad"])
    by (apply list_elem_of_further, list_elem_of_here).
  assert (Hstat : diskStat (join (str "/lib") (str "movie.2019.mp4")) = inr (mkStats true false))
    by (vm_compute; reflexivity).
  assert (Hvideo : isVideoFile noUnicode (str "movie.2019.mp4") = true)
    by (vm_compute; reflexivity).
  destruct (result (diskScanDirectory (str "/lib") tt)) as [e|units] eqn:Hscan;
    [discriminate Hret|].
  exists units. split; [exact Hread|]. split; [reflexivity|].
  apply (proj2 (movies_are_the_video_files_of_the_root noUnicode unit diskReaddir diskStat
                  (str "/lib") _ tt units
                  (movieOfRootFile noUnicode (str "/lib") (str "movie.2019.mp4"))
                  Hread Hscan)).
  exists (str "movie.2019.mp4"), (mkStats true false).
  split; [exact Hin|]. split; [exact Hstat|]. split; [reflexivity|].
  split; [reflexivity|]. split; [exact Hvideo|]. reflexivity.
Defined.

(** X15, witness: the entry [My Show] of the root [/lib/Series] holds videos
    and gives one series. *)
Lemma folder_with_videos_is_one_series_witness :
  diskStat (join (str "/lib/Series") (str "My Show")) = inr (mkStats false true)
  /\ diskFolderVideos (join (str "/lib/Series") (str "My Show")) None <> []
  /\ diskEntryMedia (str "/lib/Series") (str "My Show")
     = [seriesOfFolder noUnicode (join (str "/lib/Series") (str "My Show")) (str "My Show")
          (diskFolderVideos (join (str "/lib/Series") (str "My Show")) None)].
Proof.
  assert (Hstat : diskStat (join (str "/lib/Series") (str "My Show")) = inr (mkStats false true))
    by (vm_compute; reflexivity).
  assert (Hdir : isDirectory (mkStats false true) = true) by reflexivity.
  assert (Hsome : match diskFolderVideos (join (str "/lib/Series") (str "My Show")) None with
                  | [] => false
                  | _ :: _ => true
                  end = true) by (vm_compute; reflexivity).
  assert (Hne : diskFolderVideos (join (str "/lib/Series") (str "My Show")) None <> []).
  { intros Hnil. rewrite Hnil in Hsome. discriminate Hsome. }
  split; [exact Hstat|]. split; [exact Hne|].
  exact (folder_with_videos_is_one_series noUnicode unit diskReaddir diskStat
           (str "/lib/Series") (str "My Show") (mkStats false true) Hstat Hdir Hne).
Defined.

(** X16, witness: the entry [Series] of the root [/lib] holds no video
    itself; the series of its sub-directory [My Show] is one of its units. *)
Lemma category_units_are_series_of_subfolders_witness :
  diskStat (join (str "/lib") (str "Series")) = inr (mkStats false true)
  /\ diskReaddir (join (str "/lib") (str "Series")) = inr [str "My Show"; str "locked"]
  /\ diskFolderVideos (join (str "/lib") (str "Series")) None = []
  /\ seriesOfFolder noUnicode (join (join (str "/lib") (str "Series")) (str "My Show"))
       (str "My Show")
       (diskFolderVideos (join (join (str "/lib") (str "Series")) (str "My Show"))
                         (extractSeasonNumber (str "My Show")))
     ∈ diskEntryMedia (str "/lib") (str "Series").
Proof.
  assert (Hstat : diskStat (join (str "/lib") (str "Series")) = inr (mkStats false true))
    by (vm_compute; reflexivity).
  assert (Hdir : isDirectory (mkStats false true) = true) by reflexivity.
  assert (Hread : diskReaddir (join (str "/lib") (str "Series"))
                  = inr [str "My Show"; str "locked"]) by (vm_compute; reflexivity).
  assert (Hnone : diskFolderVideos (join (str "/lib") (str "Series")) None = [])
    by (vm_compute; reflexivity).
  assert (Hsub : diskStat (join (join (str "/lib") (str "Series")) (str "My Show"))
                 = inr (mkStats false true)) by (vm_compute; reflexivity).
  assert (Hsome : match diskFolderVideos (join (join (str "/lib") (str "Series")) (str "My Show"))
                                         (extractSeasonNumber (str "My Show")) with
                  | [] => false
                  | _ :: _ => true
                  end = true) by (vm_compute; reflexivity).
  split; [exact Hstat|]. split; [exact Hread|]. split; [exact Hnone|].
  apply (proj2 (category_units_are_series_of_subfolders noUnicode unit diskReaddir diskStat
                  (str "/lib") (str "Series") (mkStats false true) _ _
                  Hstat Hdir Hread Hnone)).
  exists (str "My Show"), (mkStats false true).
  split; [apply list_elem_of_here|]. split; [exact Hsub|]. split; [reflexivity|].
  split; [|reflexivity].
  intros Hnil. rewrite Hnil in Hsome. discriminate Hsome.
Defined.

(** X17, witness: the handler on [/lib] keeps the record of [other_show],
    which no unit of the scan has. *)
Lemma records_of_other_series_are_kept_witness :
  exists scannedMedia saved,
    result (diskScanFolder (str "/lib") tt) = inr scannedMedia
    /\ offlineHandler (str "/lib") otherStore = inr saved
    /\ (forall media, media ∈ scannedMedia -> id media = str "other_show" -> files media = [])
    /\ saved !! str "other_show" = Some otherShowRecord.
Proof.
  assert (Hids : match result (diskScanFolder (str "/lib") tt) with
                 | inr scannedMedia =>
                   forallb (fun media => negb (bool_decide (id media = str "other_show")))
                           scannedMedia
                 | inl _ => false
                 end = true) by (vm_compute; reflexivity).
  assert (Hret : returned (offlineHandler (str "/lib") otherStore) = true)
    by (vm_compute; reflexivity).
  assert (Hkept : match otherStore !! str "other_show" with
                  | Some record => if hasFileEpisodes record then Some record else None
                  | None => None
                  end = Some otherShowRecord) by (vm_compute; reflexivity).
  destruct (result (diskScanFolder (str "/lib") tt)) as [e|scannedMedia] eqn:Hscan;
    [discriminate Hids|].
  destruct (offlineHandler (str "/lib") otherStore) as [e|saved] eqn:Hsaved;
    [discriminate Hret|].
  assert (Hnone : forall media, media ∈ scannedMedia -> id media = str "other_show" ->
                                files media = []).
  { intros media Hin Hid. exfalso.
    pose proof (proj1 (forallb_forall _ _) Hids media (proj1 (list_elem_of_In _ _) Hin)) as Hm.
    cbv beta in Hm. rewrite Hid in Hm.
    rewrite bool_decide_eq_true_2 in Hm by reflexivity. discriminate Hm. }
  exists scannedMedia, saved. split; [reflexivity|]. split; [reflexivity|].
  split; [exact Hnone|].
  rewrite (records_of_other_series_are_kept _ _ _ _ _ _ _ _ _ _ _ _ _ _ _ _ _
             Hscan Hsaved Hnone).
  exact Hkept.
Defined.

(** X18, witness: the first unit of the scan of [/lib] is saved under its
    identifier. *)
Lemma scanned_units_are_saved_witness :
  exists scannedMedia saved media record,
    result (diskScanFolder (str "/lib") tt) = inr scannedMedia
    /\ offlineHandler (str "/lib") otherStore = inr saved
    /\ media ∈ scannedMedia
    /\ files media <> []
    /\ id media = str "my_show"
    /\ (id media ∉ objectPrototypeKeys)
    /\ saved !! id media = Some record
    /\ r_seriesId record = Some (id media).
Proof.
  assert (Hsome : match result (diskScanFolder (str "/lib") tt) with
                  | inr (media :: _) => negb (length (files media) =? 0)%nat
                  | _ => false
                  end = true) by (vm_compute; reflexivity).
  assert (Hname : match result (diskScanFolder (str "/lib") tt) with
                  | inr (media :: _) => bool_decide (id media = str "my_show")
                  | _ => false
                  end = true) by (vm_compute; reflexivity).
  assert (Hret : returned (offlineHandler (str "/lib") otherStore) = true)
    by (vm_compute; reflexivity).
  destruct (result (diskScanFolder (str "/lib") tt)) as [e|[|media scannedMedia]] eqn:Hscan;
    [discriminate Hsome|discriminate Hsome|].
  destruct (offlineHandler (str "/lib") otherStore) as [e|saved] eqn:Hsaved;
    [discriminate Hret|].
  assert (Hin : media ∈ media :: scannedMedia) by apply list_elem_of_here.
  assert (Hfiles : files media <> []).
  { intros Hnil. rewrite Hnil in Hsome. discriminate Hsome. }
  apply bool_decide_eq_true_1 in Hname.
  assert (Hkey : id media ∉ objectPrototypeKeys).
  { rewrite Hname. apply (bool_decide_eq_false_1 _). vm_compute. reflexivity. }
  destruct (scanned_units_are_saved _ _ _ _ _ _ _ _ _ _ _ _ _ _ _ _ _
              Hscan Hsaved Hin Hfiles Hkey)
    as (before & lastUnit & after & _ & _ & _ & _ & Hlook & Hid & _).
  eexists (media :: scannedMedia), saved, media, _.
  split; [reflexivity|]. split; [reflexivity|]. split; [exact Hin|].
  split; [exact Hfiles|]. split; [exact Hname|]. split; [exact Hkey|].
  split; [exact Hlook|exact Hid].
Defined.

(** X20, witness: an episode 1 of season 3 takes the video of the file of
    episode 1, which is of season 2. *)
Lemma thumbnail_video_has_the_episode_number_witness :
  videoPathFor (fileEpisodeMapOf [oneVideo "My Show - 01.mkv" 1 (Some 2)])
               (mkEpisode 1 (Some 3) (str "Episode 1") None None None None)
  = Some (str "/lib/My Show - 01.mkv")
  /\ str "/lib/My Show - 01.mkv" <> []
  /\ exists f,
       f ∈ [oneVideo "My Show - 01.mkv" 1 (Some 2)]
       /\ filePath f = str "/lib/My Show - 01.mkv"
       /\ (episodeNumber f
           == ep_episodeNumber (mkEpisode 1 (Some 3%N) (str "Episode 1") None None None None))%Q.
Proof.
  assert (H : videoPathFor (fileEpisodeMapOf [oneVideo "My Show - 01.mkv" 1 (Some 2)])
                           (mkEpisode 1 (Some 3) (str "Episode 1") None None None None)
              = Some (str "/lib/My Show - 01.mkv")) by (vm_compute; reflexivity).
  split; [exact H|].
  exact (thumbnail_video_has_the_episode_number _ _ _ H).
Defined.

(** X21, witness: the same episode and file. *)
Lemma thumbnail_video_is_found_witness :
  (forall f', f' ∈ [oneVideo "My Show - 01.mkv" 1 (Some 2)] -> filePath f' <> [])
  /\ exists found,
       found ∈ [oneVideo "My Show - 01.mkv" 1 (Some 2)]
       /\ (episodeNumber found
           == ep_episodeNumber (mkEpisode 1 (Some 3%N) (str "Episode 1") None None None None))%Q
       /\ videoPathFor (fileEpisodeMapOf [oneVideo "My Show - 01.mkv" 1 (Some 2)])
                       (mkEpisode 1 (Some 3) (str "Episode 1") None None None None)
          = Some (filePath found).
Proof.
  assert (Hpaths : forall f', f' ∈ [oneVideo "My Show - 01.mkv" 1 (Some 2)] ->
                              filePath f' <> []).
  { intros f' Hf'. apply list_elem_of_singleton in Hf'. rewrite Hf'. discriminate. }
  assert (Hin : oneVideo "My Show - 01.mkv" 1 (Some 2) ∈ [oneVideo "My Show - 01.mkv" 1 (Some 2)])
    by apply list_elem_of_here.
  assert (Heq : (episodeNumber (oneVideo "My Show - 01.mkv" 1 (Some 2%N))
                 == ep_episodeNumber (mkEpisode 1 (Some 3%N) (str "Episode 1") None None None
                                                None))%Q) by reflexivity.
  split; [exact Hpaths|].
  destruct (thumbnail_video_is_found _ _ _ Hpaths Hin Heq) as (found & Hf & He & Hv & _).
  exists found. split; [exact Hf|]. split; [exact He|exact Hv].
Defined.

(** X4, witness: the identifier of the series [My Show!] of season 2. *)
Lemma generateSeriesId_charset_witness :
  safeOrNull (Some 2) = true
  /\ safeOrNull None = true
  /\ generateSeriesId noUnicode (str "My Show!") (str "My Show S2") (Some 2) None
     = str "my_show_s02"
  /\ forallb isIdChar
       (generateSeriesId noUnicode (str "My Show!") (str "My Show S2") (Some 2) None) = true.
Proof.
  assert (H1 : safeOrNull (Some 2) = true) by reflexivity.
  assert (H2 : safeOrNull None = true) by reflexivity.
  split; [exact H1|]. split; [exact H2|]. split; [vm_compute; reflexivity|].
  exact (proj1 (generateSeriesId_charset noUnicode (str "My Show!") (str "My Show S2")
                  (Some 2) None H1 H2)).
Defined.

(** X26, witness: [My Show] of season 2 becomes [My Show (Season 2)], and
    stays so when it is given the season 3. *)
Lemma season_suffix_is_added_once_witness :
  isSafeInteger 2 = true
  /\ withSeason reSeasonInParens (str "My Show") (Some 2) = str "My Show (Season 2)"
  /\ withSeason reSeasonInParens (withSeason reSeasonInParens (str "My Show") (Some 2)) (Some 3)
     = withSeason reSeasonInParens (str "My Show") (Some 2).
Proof.
  assert (H : isSafeInteger 2 = true) by reflexivity.
  split; [exact H|]. split; [vm_compute; reflexivity|].
  exact (proj2 (proj1 (season_suffix_is_added_once (str "My Show") 2 (Some 3) H))).
Defined.
